(** * libtextclassifier: actions suggestions, double-array trie, reflective flatbuffers

    A shallow embedding of
    - [ActionsSuggestions] (actions/actions-suggestions.cc): locale matching,
      annotation deduplication and mapping, the rule pass, the gating
      pipeline [GatherActionsSuggestions] and [SuggestActions];
    - [DoubleArrayTrie::GatherPrefixMatches] (utils/sentencepiece);
    - [ReflectiveFlatbuffer::Set] (utils/flatbuffers.h).

    The file first gives the embedding of the code, then the vocabulary of
    the properties and the configurations used as concrete inputs, then the
    properties proved about the code. *)

From Stdlib Require Import ZArith List String Ascii Bool Lia QArith Sorted.
From stdpp Require Import base option list gmap strings sorting.

Local Open Scope Z_scope.
Local Open Scope string_scope.
Local Open Scope list_scope.

(** ** Collaborators that live outside the embedded sources

    [float] values are only compared, converted from integers and divided
    in the embedded code, so the embedding is generic in the float type:
    [flt a b] is the C++ [a < b] (false as soon as one side is a NaN),
    [float_of_int] is [static_cast<float>] and [fdiv] is float division;
    [initial_score] is the value a fresh response holds in its two scores.
    The remaining members are library calls whose code is not part of the
    embedded translation units: locale parsing, UTF-8 substrings, and the
    reflective entity-data record used by the rule pass. *)

Record Locale := mkLocale {
  Language : string;
  Script : string;
  Region : string;
  IsValid : bool;
  IsUnknown : bool
}.

(** One call of [UniLib::RegexMatcher::Find(&status)]: the returned flag, the
    status it leaves behind, and the capturing groups of the match it
    stands on (a group that did not take part is [None]). *)
Record FindResult := mkFindResult {
  found : bool;
  find_status : Z;
  groups : list (option string)
}.

(** A matcher is the sequence of results its successive [Find] calls give;
    once the sequence is used up [Find] returns false with [kNoError]. *)
Definition RegexMatcher := list FindResult.

Definition kNoError : Z := 0.

Class Platform := {
  float : Type;
  flt : float -> float -> bool;
  float_of_int : Z -> float;
  fdiv : float -> float -> float;
  initial_score : float;
  AnnotationOptions : Type;
  ParseLocales : string -> option (list Locale);
  UTF8Substring : string -> Z -> Z -> string;
  EntityData : Type;
  MergeFromSerializedFlatbuffer : string -> EntityData -> EntityData;
  SetFieldFromCapturingGroup :
    Z -> list string -> FindResult -> EntityData -> option EntityData;
  Serialize : EntityData -> string
}.

(** [int] arithmetic: the value an [int] holds after a conversion from a
    wider type. *)
Definition to_int32 (z : Z) : Z := (z + 2 ^ 31) mod 2 ^ 32 - 2 ^ 31.

(** The result of an [int64] operation, wrapped to 64 bits. *)
Definition to_int64 (z : Z) : Z := (z + 2 ^ 63) mod 2 ^ 64 - 2 ^ 63.

Definition kAnyMatch : string := "*".

Module ActionsSuggestions.

Section Model.
Context {P : Platform}.

(** *** Data model (actions/types.h, annotator/types.h, actions_model.fbs) *)

Record ClassificationResult := mkClassificationResult {
  collection : string;
  cr_score : float
}.

Record AnnotatedSpan := mkAnnotatedSpan {
  span : Z * Z;
  classification : list ClassificationResult
}.

Record ConversationMessage := mkConversationMessage {
  user_id : Z;
  text : string;
  reference_time_ms_utc : Z;
  annotations : list AnnotatedSpan;
  locales : string
}.

Record Conversation := mkConversation {
  messages : list ConversationMessage
}.

Record ActionSuggestionAnnotation := mkActionSuggestionAnnotation {
  message_index : Z;
  asa_span : Z * Z;
  entity : ClassificationResult;
  name : string;
  asa_text : string
}.

Record ActionSuggestion := mkActionSuggestion {
  response_text : string;
  type : string;
  score : float;
  as_annotations : list ActionSuggestionAnnotation;
  serialized_entity_data : string
}.

Record ActionsSuggestionsResponse := mkActionsSuggestionsResponse {
  sensitivity_score : float;
  triggering_score : float;
  output_filtered_sensitivity : bool;
  output_filtered_min_triggering_score : bool;
  output_filtered_low_confidence : bool;
  output_filtered_locale_mismatch : bool;
  actions : list ActionSuggestion
}.

Record ActionSuggestionOptions := mkActionSuggestionOptions {
  annotation_options : AnnotationOptions;
  ignore_min_replies_triggering_threshold : bool
}.

(** The annotator collaborator: [Annotator::Annotate]. *)
Definition Annotator := string -> AnnotationOptions -> list AnnotatedSpan.

Record TriggeringPreconditions := mkTriggeringPreconditions {
  min_smart_reply_triggering_score : float;
  max_sensitive_topic_score : float;
  suppress_on_sensitive_topic : bool;
  min_input_length : Z;
  max_input_length : Z;
  min_locale_match_fraction : float;
  handle_missing_locale_as_supported : bool;
  handle_unknown_locale_as_supported : bool;
  suppress_on_low_confidence_input : bool
}.

Record TensorflowLiteModelSpec := mkTensorflowLiteModelSpec {
  input_user_id : Z;
  input_context : Z;
  input_context_length : Z;
  input_time_diffs : Z;
  input_num_suggestions : Z;
  output_replies : Z;
  output_replies_scores : Z;
  output_sensitive_topic_score : Z;
  output_triggering_score : Z;
  output_actions_scores : Z
}.

Record ActionTypeOptions := mkActionTypeOptions {
  at_name : string;
  enabled : bool;
  min_triggering_score : float
}.

Record ActionSuggestionSpec := mkActionSuggestionSpec {
  spec_type : string;
  spec_response_text : option string;
  spec_serialized_entity_data : option string;
  spec_score : float
}.

Record AnnotationMapping := mkAnnotationMapping {
  annotation_collection : string;
  mapping_action : ActionSuggestionSpec;
  use_annotation_score : bool;
  min_annotation_score : float
}.

Record AnnotationActionsSpec := mkAnnotationActionsSpec {
  annotation_mapping : option (list AnnotationMapping);
  deduplicate_annotations : bool
}.

Record CapturingGroup := mkCapturingGroup {
  group_id : Z;
  entity_field : list string
}.

Record RuleActionSpec := mkRuleActionSpec {
  action : ActionSuggestionSpec;
  capturing_group : option (list CapturingGroup)
}.

Record Rule := mkRule {
  rule_actions : list RuleActionSpec
}.

(** A rule with its compiled pattern; [pattern] applied to a text is
    [rule.pattern->Matcher(text)]. *)
Record CompiledRule := mkCompiledRule {
  rule : Rule;
  pattern : string -> RegexMatcher
}.

Record ActionsModel := mkActionsModel {
  preconditions : TriggeringPreconditions;
  max_conversation_history_length : Z;
  num_smart_replies : Z;
  tflite_model_spec : TensorflowLiteModelSpec;
  smart_reply_action_type : string;
  action_type : list ActionTypeOptions;
  annotation_actions_spec : option AnnotationActionsSpec
}.

(** *** The TensorFlow Lite executor, as the code uses it *)

Record TensorView := mkTensorView {
  is_valid : bool;
  dims : list Z;
  data : list float
}.

Definition size (t : TensorView) : Z := Z.of_nat (length (data t)).
Definition dim (t : TensorView) (i : nat) : Z := nth i (dims t) 0.
(** [data()[i]]. The source reads without a bounds check; past the data
    the read is undefined there and has the value 0 here. *)
Definition data_at (t : TensorView) (i : nat) : float :=
  nth i (data t) (float_of_int 0).

(** What [SetupModelInput] writes; an input slot with a negative index is
    not written. *)
Record ModelInput := mkModelInput {
  in_context : option (list string);
  in_context_length : option Z;
  in_user_id : option (list Z);
  in_num_suggestions : option Z;
  in_time_diffs : option (list float)
}.

(** The interpreter after a successful [Invoke]: its output tensors. *)
Record Interpreter := mkInterpreter {
  OutputView : Z -> TensorView;
  Output : Z -> list string
}.

Record TfLiteModelExecutor := mkTfLiteModelExecutor {
  CreateInterpreter : bool;
  AllocateTensors : bool;
  Invoke : ModelInput -> option Interpreter
}.

Record ReflectiveFlatbufferBuilder := mkReflectiveFlatbufferBuilder {
  NewRoot : option EntityData
}.

Record ActionsSuggestionsRanker := mkActionsSuggestionsRanker {
  RankActions : ActionsSuggestionsResponse -> bool * ActionsSuggestionsResponse
}.

(** The engine after [ValidateAndInitialize]. *)
Record Engine := mkEngine {
  model_ : ActionsModel;
  locales_ : list Locale;
  rules_ : list CompiledRule;
  low_confidence_rules_ : list CompiledRule;
  model_executor_ : option TfLiteModelExecutor;
  entity_data_builder_ : option ReflectiveFlatbufferBuilder;
  ranker_ : ActionsSuggestionsRanker
}.

(** *** Locale matching *)

Definition language_matches (model_locale locale : Locale) : bool :=
  (Language model_locale =? "")
  || (Language model_locale =? kAnyMatch)
  || (Language model_locale =? Language locale).

Definition script_matches (model_locale locale : Locale) : bool :=
  (Script model_locale =? "") || (Script model_locale =? kAnyMatch)
  || (Script locale =? "") || (Script model_locale =? Script locale).

Definition region_matches (model_locale locale : Locale) : bool :=
  (Region model_locale =? "") || (Region model_locale =? kAnyMatch)
  || (Region locale =? "") || (Region model_locale =? Region locale).

(** The body of the loop over [locales_]. *)
Fixpoint any_model_locale_matches (ls : list Locale) (locale : Locale) : bool :=
  match ls with
  | [] => false
  | model_locale :: rest =>
      if negb (IsValid model_locale) then any_model_locale_matches rest locale
      else if language_matches model_locale locale
              && script_matches model_locale locale
              && region_matches model_locale locale
           then true
           else any_model_locale_matches rest locale
  end.

Definition IsLocaleSupportedByModel (E : Engine) (locale : Locale) : bool :=
  if negb (IsValid locale) then false
  else if IsUnknown locale
       then handle_unknown_locale_as_supported (preconditions (model_ E))
       else any_model_locale_matches (locales_ E) locale.

Definition IsAnyLocaleSupportedByModel (E : Engine) (ls : list Locale) : bool :=
  match ls with
  | [] => handle_missing_locale_as_supported (preconditions (model_ E))
  | _ => existsb (IsLocaleSupportedByModel E) ls
  end.

(** *** Response updates ([response->field = ...], [actions.push_back],
    [actions.clear]) *)

Definition set_actions (r : ActionsSuggestionsResponse)
    (l : list ActionSuggestion) : ActionsSuggestionsResponse :=
  mkActionsSuggestionsResponse (sensitivity_score r) (triggering_score r)
    (output_filtered_sensitivity r) (output_filtered_min_triggering_score r)
    (output_filtered_low_confidence r) (output_filtered_locale_mismatch r) l.

Definition push_back (r : ActionsSuggestionsResponse) (a : ActionSuggestion)
    : ActionsSuggestionsResponse :=
  set_actions r (actions r ++ [a]).

Definition clear (r : ActionsSuggestionsResponse) : ActionsSuggestionsResponse :=
  set_actions r [].

Definition set_triggering (r : ActionsSuggestionsResponse) (s : float) (b : bool)
    : ActionsSuggestionsResponse :=
  mkActionsSuggestionsResponse (sensitivity_score r) s
    (output_filtered_sensitivity r) b
    (output_filtered_low_confidence r) (output_filtered_locale_mismatch r)
    (actions r).

Definition set_sensitivity (r : ActionsSuggestionsResponse) (s : float) (b : bool)
    : ActionsSuggestionsResponse :=
  mkActionsSuggestionsResponse s (triggering_score r)
    b (output_filtered_min_triggering_score r)
    (output_filtered_low_confidence r) (output_filtered_locale_mismatch r)
    (actions r).

Definition set_output_filtered_low_confidence (r : ActionsSuggestionsResponse)
    : ActionsSuggestionsResponse :=
  mkActionsSuggestionsResponse (sensitivity_score r) (triggering_score r)
    (output_filtered_sensitivity r) (output_filtered_min_triggering_score r)
    true (output_filtered_locale_mismatch r) (actions r).

Definition set_output_filtered_locale_mismatch (r : ActionsSuggestionsResponse)
    : ActionsSuggestionsResponse :=
  mkActionsSuggestionsResponse (sensitivity_score r) (triggering_score r)
    (output_filtered_sensitivity r) (output_filtered_min_triggering_score r)
    (output_filtered_low_confidence r) true (actions r).

(** Modelled from the spec: the default-constructed response of
    actions/types.h, which is not among the embedded sources. The response
    starts with an empty action list and no filter flag set. *)
Definition default_response : ActionsSuggestionsResponse :=
  mkActionsSuggestionsResponse initial_score initial_score
    false false false false [].

(** [v.back()]; undefined on an empty vector. *)
Fixpoint back {A : Type} (l : list A) : option A :=
  match l with
  | [] => None
  | [x] => Some x
  | _ :: rest => back rest
  end.

(** The messages visited by
    [for (i = messages.size() - num_messages; i < messages.size(); i++)]. *)
Definition last_messages (num_messages : Z) (msgs : list ConversationMessage)
    : list ConversationMessage :=
  drop (Z.to_nat (Z.of_nat (length msgs) - num_messages)) msgs.

(** *** Low-confidence input *)

Definition rule_finds (message : string) (r : CompiledRule) : bool :=
  match pattern r message with
  | [] => false
  | m :: _ => found m && (find_status m =? kNoError)%Z
  end.

(** Messages are visited from the last one backwards. *)
Definition IsLowConfidenceInput (E : Engine) (conversation : Conversation)
    (num_messages : Z) : bool :=
  existsb
    (fun m : ConversationMessage =>
       existsb (rule_finds (text m)) (low_confidence_rules_ E))
    (rev (last_messages num_messages (messages conversation))).

(** *** Model invocation *)

Definition SetupModelInput (E : Engine) (context : list string)
    (user_ids : list Z) (time_diffs : list float) (num_suggestions : Z)
    : ModelInput :=
  let spec := tflite_model_spec (model_ E) in
  mkModelInput
    (if (0 <=? input_context spec)%Z then Some context else None)
    (if (0 <=? input_context_length spec)%Z
     then Some (Z.of_nat (length context)) else None)
    (if (0 <=? input_user_id spec)%Z then Some user_ids else None)
    (if (0 <=? input_num_suggestions spec)%Z then Some num_suggestions else None)
    (if (0 <=? input_time_diffs spec)%Z then Some time_diffs else None).

(** The loop over [replies]: empty replies are skipped, the others become
    smart-reply suggestions scored by [scores.data()[i]]. *)
Fixpoint read_replies (E : Engine) (scores : TensorView) (i : nat)
    (replies : list string) (response : ActionsSuggestionsResponse)
    : ActionsSuggestionsResponse :=
  match replies with
  | [] => response
  | reply :: rest =>
      if (Z.of_nat (String.length reply) =? 0)%Z
      then read_replies E scores (S i) rest response
      else read_replies E scores (S i) rest
             (push_back response
                (mkActionSuggestion reply (smart_reply_action_type (model_ E))
                   (data_at scores i) [] ""))
  end.

(** The loop over [model_->action_type()]. *)
Fixpoint read_actions (actions_scores : TensorView) (i : nat)
    (types : list ActionTypeOptions) (response : ActionsSuggestionsResponse)
    : ActionsSuggestionsResponse :=
  match types with
  | [] => response
  | t :: rest =>
      if negb (enabled t) then read_actions actions_scores (S i) rest response
      else
        let score := data_at actions_scores i in
        if flt score (min_triggering_score t)
        then read_actions actions_scores (S i) rest response
        else read_actions actions_scores (S i) rest
               (push_back response (mkActionSuggestion "" (at_name t) score [] ""))
  end.

(** The part of [ReadModelOutput] after the score predictions are read. *)
Definition read_predictions (E : Engine) (interpreter : Interpreter)
    (response : ActionsSuggestionsResponse) : ActionsSuggestionsResponse :=
  let spec := tflite_model_spec (model_ E) in
  if output_filtered_sensitivity response then response
  else
    let response1 :=
      if negb (output_filtered_min_triggering_score response)
         && (0 <=? output_replies spec)%Z
      then read_replies E (OutputView interpreter (output_replies_scores spec))
             0 (Output interpreter (output_replies spec)) response
      else response in
    if (0 <=? output_actions_scores spec)%Z
    then read_actions (OutputView interpreter (output_actions_scores spec))
           0 (action_type (model_ E)) response1
    else response1.

(** The sensitivity part of [ReadModelOutput] and what follows it. *)
Definition read_sensitivity (E : Engine) (interpreter : Interpreter)
    (response : ActionsSuggestionsResponse) : ActionsSuggestionsResponse :=
  let spec := tflite_model_spec (model_ E) in
  if (0 <=? output_sensitive_topic_score spec)%Z
  then
    let sensitive_topic_score :=
      OutputView interpreter (output_sensitive_topic_score spec) in
    if negb (is_valid sensitive_topic_score)
       || negb (dim sensitive_topic_score 0 =? 1)%Z
    then response
    else
      let s := data_at sensitive_topic_score 0 in
      read_predictions E interpreter
        (set_sensitivity response s
           (flt (max_sensitive_topic_score (preconditions (model_ E))) s))
  else read_predictions E interpreter response.

Definition ReadModelOutput (E : Engine) (interpreter : Interpreter)
    (options : ActionSuggestionOptions) (response : ActionsSuggestionsResponse)
    : ActionsSuggestionsResponse :=
  let spec := tflite_model_spec (model_ E) in
  if (0 <=? output_triggering_score spec)%Z
  then
    let ts := OutputView interpreter (output_triggering_score spec) in
    if negb (is_valid ts) || (size ts =? 0)%Z
    then response
    else
      let t := data_at ts 0 in
      read_sensitivity E interpreter
        (set_triggering response t
           (negb (ignore_min_replies_triggering_threshold options)
            && flt t (min_smart_reply_triggering_score (preconditions (model_ E)))))
  else read_sensitivity E interpreter response.

(** The loop of [SuggestActionsFromModel] computing the time differences;
    [last] is [last_message_reference_time_ms_utc]. The two reference
    times are [int64] values and so is their difference, which wraps
    around before it is converted to [float]; [std::max(0.0f, d)] is [d]
    where [0.0f < d] and [0.0f] otherwise. *)
Fixpoint time_diffs_from (last : Z) (msgs : list ConversationMessage)
    : list float :=
  match msgs with
  | [] => []
  | message :: rest =>
      let zero := float_of_int 0 in
      let time_diff_secs :=
        if negb (reference_time_ms_utc message =? 0)%Z && negb (last =? 0)%Z
        then
          let d := fdiv (float_of_int
                           (to_int64 (reference_time_ms_utc message - last)))
                        (float_of_int 1000) in
          if flt zero d then d else zero
        else zero in
      let last' :=
        if negb (reference_time_ms_utc message =? 0)%Z
        then reference_time_ms_utc message else last in
      time_diff_secs :: time_diffs_from last' rest
  end.

(** The interpreter [SuggestActionsFromModel] reads the output from; there
    is none when the engine has no executor, or when the interpreter cannot
    be built, its tensors cannot be allocated, or [Invoke] fails. *)
Definition invoke_model (E : Engine) (conversation : Conversation)
    (num_messages : Z) : option Interpreter :=
  match model_executor_ E with
  | None => None
  | Some executor =>
      if negb (CreateInterpreter executor) then None
      else if negb (AllocateTensors executor) then None
      else
        let selected := last_messages num_messages (messages conversation) in
        Invoke executor
          (SetupModelInput E (map text selected) (map user_id selected)
             (time_diffs_from 0 selected) (num_smart_replies (model_ E)))
  end.

(** [None] stands for a failed [TC3_CHECK], which aborts the process; in
    each case without an interpreter the function returns with the
    response as it is. *)
Definition SuggestActionsFromModel (E : Engine) (conversation : Conversation)
    (num_messages : Z) (options : ActionSuggestionOptions)
    (response : ActionsSuggestionsResponse)
    : option ActionsSuggestionsResponse :=
  if (Z.of_nat (length (messages conversation)) <? num_messages)%Z then None
  else
    match invoke_model E conversation num_messages with
    | None => Some response
    | Some interpreter => Some (ReadModelOutput E interpreter options response)
    end.

(** *** Annotation deduplication

    [std::map<std::pair<std::string, std::string>, int>]: an association
    list kept sorted by key, keys compared as [std::pair] and [std::string]
    compare them (lexicographically, bytes as unsigned values). *)

Definition DedupKey : Type := string * string.

Definition key_compare (a b : DedupKey) : comparison :=
  match String.compare (fst a) (fst b) with
  | Eq => String.compare (snd a) (snd b)
  | c => c
  end.

Fixpoint map_find (k : DedupKey) (m : list (DedupKey * nat)) : option nat :=
  match m with
  | [] => None
  | (k', v) :: rest =>
      match key_compare k k' with
      | Eq => Some v
      | _ => map_find k rest
      end
  end.

(** [m.insert({k, v})] for a key that is not in the map. *)
Fixpoint map_insert (k : DedupKey) (v : nat) (m : list (DedupKey * nat))
    : list (DedupKey * nat) :=
  match m with
  | [] => [(k, v)]
  | (k', v') :: rest =>
      match key_compare k k' with
      | Lt => (k, v) :: (k', v') :: rest
      | _ => (k', v') :: map_insert k v rest
      end
  end.

(** [entry->second = v] for the entry found under [k]. *)
Fixpoint map_assign (k : DedupKey) (v : nat) (m : list (DedupKey * nat))
    : list (DedupKey * nat) :=
  match m with
  | [] => []
  | (k', v') :: rest =>
      match key_compare k k' with
      | Eq => (k', v) :: rest
      | _ => (k', v') :: map_assign k v rest
      end
  end.

Definition dedup_key (a : ActionSuggestionAnnotation) : DedupKey :=
  (name a, asa_text a).

(** The first loop of [DeduplicateAnnotations]: [rest] is the part of
    [annotations] from index [i] on. An index stored in the map always
    addresses an annotation, so the last case does not occur. *)
Fixpoint dedup_loop (annotations : list ActionSuggestionAnnotation) (i : nat)
    (rest : list ActionSuggestionAnnotation) (m : list (DedupKey * nat))
    : list (DedupKey * nat) :=
  match rest with
  | [] => m
  | a :: rest' =>
      let key := dedup_key a in
      match map_find key m with
      | Some j =>
          match annotations !! j with
          | Some kept =>
              if flt (cr_score (entity kept)) (cr_score (entity a))
              then dedup_loop annotations (S i) rest' (map_assign key i m)
              else dedup_loop annotations (S i) rest' m
          | None => dedup_loop annotations (S i) rest' m
          end
      | None => dedup_loop annotations (S i) rest' (map_insert key i m)
      end
  end.

Definition DeduplicateAnnotations
    (annotations : list ActionSuggestionAnnotation) : list nat :=
  map snd (dedup_loop annotations 0 annotations []).

(** *** Annotation mapping *)

(** [*model_->annotation_actions_spec()->annotation_mapping()], read only
    after [SuggestActionsFromAnnotations] has checked both pointers. *)
Definition annotation_mappings (E : Engine) : list AnnotationMapping :=
  match annotation_actions_spec (model_ E) with
  | Some spec =>
      match annotation_mapping spec with
      | Some l => l
      | None => []
      end
  | None => []
  end.

Fixpoint create_actions_loop (mappings : list AnnotationMapping)
    (annotation : ActionSuggestionAnnotation)
    (suggestions : ActionsSuggestionsResponse) : ActionsSuggestionsResponse :=
  match mappings with
  | [] => suggestions
  | mapping :: rest =>
      if (collection (entity annotation) =? annotation_collection mapping)
      then
        if flt (cr_score (entity annotation)) (min_annotation_score mapping)
        then create_actions_loop rest annotation suggestions
        else
          let score :=
            if use_annotation_score mapping
            then cr_score (entity annotation)
            else spec_score (mapping_action mapping) in
          let serialized_entity_data :=
            match spec_serialized_entity_data (mapping_action mapping) with
            | Some d => d
            | None => ""
            end in
          create_actions_loop rest annotation
            (push_back suggestions
               (mkActionSuggestion "" (spec_type (mapping_action mapping))
                  score [annotation] serialized_entity_data))
      else create_actions_loop rest annotation suggestions
  end.

Definition CreateActionsFromAnnotation (E : Engine) (message_index : Z)
    (annotation : ActionSuggestionAnnotation)
    (suggestions : ActionsSuggestionsResponse) : ActionsSuggestionsResponse :=
  create_actions_loop (annotation_mappings E) annotation suggestions.

(** The loop building [action_annotations] from the annotated spans. *)
Fixpoint action_annotations_of (message_text : string) (message_index : Z)
    (anns : list AnnotatedSpan) : list ActionSuggestionAnnotation :=
  match anns with
  | [] => []
  | annotation :: rest =>
      match classification annotation with
      | [] => action_annotations_of message_text message_index rest
      | classification_result :: _ =>
          mkActionSuggestionAnnotation message_index (span annotation)
            classification_result (collection classification_result)
            (UTF8Substring message_text (fst (span annotation))
               (snd (span annotation)))
          :: action_annotations_of message_text message_index rest
      end
  end.

(** The loop over the deduplicated annotation ids. *)
Fixpoint create_for_ids (E : Engine) (message_index : Z)
    (action_annotations : list ActionSuggestionAnnotation) (ids : list nat)
    (response : ActionsSuggestionsResponse)
    : option ActionsSuggestionsResponse :=
  match ids with
  | [] => Some response
  | annotation_id :: rest =>
      match action_annotations !! annotation_id with
      | Some a =>
          create_for_ids E message_index action_annotations rest
            (CreateActionsFromAnnotation E message_index a response)
      | None => None
      end
  end.

(** [None] stands for undefined behaviour ([back()] of an empty vector, an
    index past the end). *)
Definition SuggestActionsFromAnnotations (E : Engine)
    (conversation : Conversation) (options : ActionSuggestionOptions)
    (annotator : option Annotator) (response : ActionsSuggestionsResponse)
    : option ActionsSuggestionsResponse :=
  match annotation_actions_spec (model_ E) with
  | None => Some response
  | Some spec =>
      match annotation_mapping spec with
      | None => Some response
      | Some [] => Some response
      | Some (_ :: _) =>
          match back (messages conversation) with
          | None => None
          | Some last_message =>
              let annotations0 := annotations last_message in
              let annotations1 :=
                match annotations0, annotator with
                | [], Some annotate =>
                    annotate (text last_message) (annotation_options options)
                | _, _ => annotations0
                end in
              let message_index :=
                (Z.of_nat (length (messages conversation)) - 1)%Z in
              let action_annotations :=
                action_annotations_of (text last_message) message_index
                  annotations1 in
              if deduplicate_annotations spec
              then create_for_ids E message_index action_annotations
                     (DeduplicateAnnotations action_annotations) response
              else Some (fold_left
                           (fun r a => CreateActionsFromAnnotation E message_index a r)
                           action_annotations response)
          end
      end
  end.

(** *** The rule pass *)

Definition HasEntityData (r : Rule) : bool :=
  existsb
    (fun rule_action : RuleActionSpec =>
       match spec_serialized_entity_data (action rule_action),
             capturing_group rule_action with
       | None, None => false
       | _, _ => true
       end)
    (rule_actions r).

(** The loop over the capturing groups of one action; [None] when
    [SetFieldFromCapturingGroup] fails. *)
Fixpoint set_capturing_groups (gs : list CapturingGroup) (m : FindResult)
    (entity_data : EntityData) : option EntityData :=
  match gs with
  | [] => Some entity_data
  | group :: rest =>
      match SetFieldFromCapturingGroup (group_id group) (entity_field group)
              m entity_data with
      | None => None
      | Some entity_data' => set_capturing_groups rest m entity_data'
      end
  end.

Definition rule_suggestion (a : ActionSuggestionSpec)
    (serialized : string) : ActionSuggestion :=
  mkActionSuggestion
    (match spec_response_text a with Some t => t | None => "" end)
    (spec_type a) (spec_score a) [] serialized.

(** The loop over the actions of a rule, for the match [m]. The outer
    [None] is a failed [TC3_CHECK]; [(false, _)] is the [return false] of
    the rule pass, with the suggestions appended so far. *)
Fixpoint rule_actions_loop (E : Engine) (has_entity_data : bool)
    (m : FindResult) (ras : list RuleActionSpec)
    (suggestions : ActionsSuggestionsResponse)
    : option (bool * ActionsSuggestionsResponse) :=
  match ras with
  | [] => Some (true, suggestions)
  | rule_action :: rest =>
      let a := action rule_action in
      if has_entity_data
      then
        match entity_data_builder_ E with
        | None => None
        | Some builder =>
            match NewRoot builder with
            | None => None
            | Some entity_data =>
                let merged :=
                  match spec_serialized_entity_data a with
                  | Some d => MergeFromSerializedFlatbuffer d entity_data
                  | None => entity_data
                  end in
                let captured :=
                  match capturing_group rule_action with
                  | Some gs => set_capturing_groups gs m merged
                  | None => Some merged
                  end in
                match captured with
                | None => Some (false, suggestions)
                | Some final =>
                    rule_actions_loop E has_entity_data m rest
                      (push_back suggestions (rule_suggestion a (Serialize final)))
                end
            end
        end
      else
        rule_actions_loop E has_entity_data m rest
          (push_back suggestions (rule_suggestion a ""))
  end.

(** [while (matcher->Find(&status) && status == kNoError)]. *)
Fixpoint find_loop (E : Engine) (has_entity_data : bool)
    (ras : list RuleActionSpec) (matcher : RegexMatcher)
    (suggestions : ActionsSuggestionsResponse)
    : option (bool * ActionsSuggestionsResponse) :=
  match matcher with
  | [] => Some (true, suggestions)
  | m :: later =>
      if found m && (find_status m =? kNoError)%Z
      then
        match rule_actions_loop E has_entity_data m ras suggestions with
        | None => None
        | Some (false, s) => Some (false, s)
        | Some (true, s) => find_loop E has_entity_data ras later s
        end
      else Some (true, suggestions)
  end.

Fixpoint rules_loop (E : Engine) (message : string) (rs : list CompiledRule)
    (suggestions : ActionsSuggestionsResponse)
    : option (bool * ActionsSuggestionsResponse) :=
  match rs with
  | [] => Some (true, suggestions)
  | r :: rest =>
      match find_loop E (HasEntityData (rule r)) (rule_actions (rule r))
              (pattern r message) suggestions with
      | None => None
      | Some (false, s) => Some (false, s)
      | Some (true, s) => rules_loop E message rest s
      end
  end.

Definition SuggestActionsFromRules (E : Engine) (conversation : Conversation)
    (suggestions : ActionsSuggestionsResponse)
    : option (bool * ActionsSuggestionsResponse) :=
  match back (messages conversation) with
  | None => None
  | Some last_message => rules_loop E (text last_message) (rules_ E) suggestions
  end.

(** *** The gating pipeline

    The number of messages is held in an [int]; a conversation is taken to
    hold fewer than 2^31 messages. *)

Definition num_messages_of (E : Engine) (conversation : Conversation) : Z :=
  let conversation_history_length := Z.of_nat (length (messages conversation)) in
  let max_conversation_history_length :=
    max_conversation_history_length (model_ E) in
  if (max_conversation_history_length <? 0)%Z
     || (conversation_history_length <? max_conversation_history_length)%Z
  then conversation_history_length
  else max_conversation_history_length.

(** [input_text_length] after the loop over the selected messages; the sum
    is stored in an [int]. *)
Definition input_text_length (selected : list ConversationMessage) : Z :=
  fold_left
    (fun acc (m : ConversationMessage) =>
       to_int32 (acc + Z.of_nat (String.length (text m))))
    selected 0%Z.

Definition num_matching_locales (E : Engine)
    (selected : list ConversationMessage) : Z :=
  fold_left
    (fun acc (m : ConversationMessage) =>
       match ParseLocales (locales m) with
       | None => acc
       | Some message_locales =>
           if IsAnyLocaleSupportedByModel E message_locales
           then (acc + 1)%Z else acc
       end)
    selected 0%Z.

(** The condition of the input-length check. *)
Definition input_length_out_of_range (E : Engine)
    (selected : list ConversationMessage) : bool :=
  let pre := preconditions (model_ E) in
  (input_text_length selected <? min_input_length pre)%Z
  || ((0 <=? max_input_length pre)%Z
      && (max_input_length pre <? input_text_length selected)%Z).

(** [GatherActionsSuggestions] from the model invocation on. *)
Definition gather_from_model (E : Engine) (conversation : Conversation)
    (num_messages : Z) (options : ActionSuggestionOptions)
    (response : ActionsSuggestionsResponse)
    : option (bool * ActionsSuggestionsResponse) :=
  match SuggestActionsFromModel E conversation num_messages options response with
  | None => None
  | Some response2 =>
      if suppress_on_sensitive_topic (preconditions (model_ E))
         && output_filtered_sensitivity response2
      then Some (true, response2)
      else
        match SuggestActionsFromRules E conversation response2 with
        | None => None
        | Some (false, response3) => Some (false, response3)
        | Some (true, response3) => Some (true, response3)
        end
  end.

(** [GatherActionsSuggestions] after the input-length check. *)
Definition gather_after_length_check (E : Engine) (conversation : Conversation)
    (num_messages : Z) (options : ActionSuggestionOptions)
    (response : ActionsSuggestionsResponse)
    : option (bool * ActionsSuggestionsResponse) :=
  let selected := last_messages num_messages (messages conversation) in
  let matching_fraction :=
    fdiv (float_of_int (num_matching_locales E selected))
         (float_of_int num_messages) in
  if flt matching_fraction
       (min_locale_match_fraction (preconditions (model_ E)))
  then Some (true, set_output_filtered_locale_mismatch response)
  else if IsLowConfidenceInput E conversation num_messages
  then Some (true, set_output_filtered_low_confidence response)
  else gather_from_model E conversation num_messages options response.

(** The input-length check ends with [return response;], a non-null
    pointer converted to [bool]: the call succeeds. *)
Definition GatherActionsSuggestions (E : Engine) (conversation : Conversation)
    (annotator : option Annotator) (options : ActionSuggestionOptions)
    (response : ActionsSuggestionsResponse)
    : option (bool * ActionsSuggestionsResponse) :=
  match messages conversation with
  | [] => Some (true, response)
  | _ :: _ =>
      let num_messages := num_messages_of E conversation in
      if (num_messages <=? 0)%Z then Some (false, response)
      else
        match SuggestActionsFromAnnotations E conversation options annotator
                response with
        | None => None
        | Some response1 =>
            if input_length_out_of_range E
                 (last_messages num_messages (messages conversation))
            then Some (true, response1)
            else gather_after_length_check E conversation num_messages
                   options response1
        end
  end.

Definition SuggestActions (E : Engine) (conversation : Conversation)
    (annotator : option Annotator) (options : ActionSuggestionOptions)
    : option ActionsSuggestionsResponse :=
  match GatherActionsSuggestions E conversation annotator options
          default_response with
  | None => None
  | Some (false, response) => Some (clear response)
  | Some (true, response) =>
      match RankActions (ranker_ E) response with
      | (false, ranked) => Some (clear ranked)
      | (true, ranked) => Some ranked
      end
  end.

End Model.

End ActionsSuggestions.

(** ** The double-array trie (utils/sentencepiece/double_array_trie.cc) *)

Module DoubleArrayTrie.

(** The node accessors of double_array_trie.h read the node array; the
    header is not among the embedded sources, so a trie is given by its
    length and its accessors. Positions and the results of [offset] and
    [label] are [unsigned int] values. *)
Record Trie := mkTrie {
  nodes_length_ : Z;
  offset : Z -> Z;
  label : Z -> Z;
  has_leaf : Z -> bool;
  value : Z -> Z
}.

Record TrieMatch := mkTrieMatch {
  id : Z;
  match_length : Z
}.

Definition to_uint32 (z : Z) : Z := z mod 2 ^ 32.

(** [static_cast<unsigned char>(input[i])]. *)
Definition uchar (c : ascii) : Z := Z.of_N (N_of_ascii c).

(** [input[i]] converted to [unsigned int] for the comparison with
    [label(pos)]: where [char] is signed, a byte above 127 is a negative
    [char]. *)
Definition char_as_uint32 (char_is_signed : bool) (c : ascii) : Z :=
  if char_is_signed && (128 <=? uchar c)%Z
  then to_uint32 (uchar c - 256)
  else uchar c.

Section Gather.
Variable char_is_signed : bool.
Context {S : Type}.
Variable update_fn : TrieMatch -> S -> S.

(** The loop of [GatherPrefixMatches]: [i] is the index of the first byte
    of [input], [pos] the current position and [s] the state the callback
    has built. [pos < 0] never holds for an [unsigned int]. *)
Fixpoint gather_loop (T : Trie) (input : string) (i : Z) (pos : Z) (s : S)
    : bool * S :=
  match input with
  | EmptyString => (true, s)
  | String c rest =>
      if (uchar c =? 0)%Z then (true, s)
      else
        let pos1 := Z.lxor pos (uchar c) in
        if (nodes_length_ T <=? pos1)%Z then (true, s)
        else if negb (label T pos1 =? char_as_uint32 char_is_signed c)%Z
        then (true, s)
        else
          let node_has_leaf := has_leaf T pos1 in
          let pos2 := Z.lxor pos1 (to_uint32 (offset T pos1)) in
          if (nodes_length_ T <? pos2)%Z then (false, s)
          else
            gather_loop T rest (i + 1) pos2
              (if node_has_leaf
               then update_fn (mkTrieMatch (value T pos2) (i + 1)) s
               else s)
  end.

Definition GatherPrefixMatches (T : Trie) (input : string) (s : S) : bool * S :=
  if (nodes_length_ T =? 0)%Z then (true, s)
  else gather_loop T input 0 (to_uint32 (offset T 0)) s.

End Gather.

Definition FindAllPrefixMatches (char_is_signed : bool) (T : Trie)
    (input : string) (matches : list TrieMatch) : bool * list TrieMatch :=
  GatherPrefixMatches char_is_signed (fun m ms => ms ++ [m]) T input matches.

(** [TrieMatch()], the value [LongestPrefixMatch] starts from, is not
    declared in the embedded sources and is an argument here. *)
Definition LongestPrefixMatch (char_is_signed : bool) (T : Trie)
    (input : string) (empty_match : TrieMatch) : bool * TrieMatch :=
  GatherPrefixMatches char_is_signed (fun m _ => m) T input empty_match.

End DoubleArrayTrie.

(** ** The reflective flatbuffer (utils/flatbuffers.h) *)

Module ReflectiveFlatbuffer.

Section Reflective.
(** [Field] stands for [const reflection::Field*], [Object] for
    [const reflection::Object*] and [Variant] for the variant value of
    utils/variant.h. [IsMatchingType] and [GetFieldOrNull] are declared in
    the header and defined elsewhere; they read only the constant members
    of the record, here its [type_]. *)
Context {Field : Type} `{Countable Field}.
Context {Object Variant : Type}.
Variable IsMatchingType : Object -> Field -> Variant -> bool.
Variable GetFieldOrNull : Object -> string -> option Field.

(** [fields_] caches the primitive fields, [children_] the sub-messages,
    keyed by vtable offset. *)
#[warnings="-register-all"]
Inductive t : Type := mk {
  type_ : Object;
  fields_ : gmap Field Variant;
  children_ : gmap Z t
}.

(** [Set(const reflection::Field* field, T value)]; [None] is the null
    pointer, [value] the variant built from the argument. *)
Definition Set_field (field : option Field) (value : Variant) (r : t)
    : bool * t :=
  match field with
  | None => (false, r)
  | Some f =>
      if negb (IsMatchingType (type_ r) f value) then (false, r)
      else (true, mk (type_ r) (<[f := value]> (fields_ r)) (children_ r))
  end.

(** [Set(StringPiece field_name, T value)]. *)
Definition Set_name (field_name : string) (value : Variant) (r : t)
    : bool * t :=
  match GetFieldOrNull (type_ r) field_name with
  | Some f => Set_field (Some f) value r
  | None => (false, r)
  end.

(** Modelled from the spec: [Mutable], declared in the header (it returns
    the record of a table field, and the null pointer if the field was not
    found or is not a table) and defined outside the embedded sources. It
    returns, creating it on first access, the nested record of a
    table-typed field; repeated calls return the same nested record.
    [table_type f] is the object type of a table-typed field and
    [field_offset f] its vtable offset. The result is the nested record
    together with the record that now owns it. *)
Variable table_type : Field -> option Object.
Variable field_offset : Field -> Z.

Definition Mutable_field (f : Field) (r : t) : option (t * t) :=
  match table_type f with
  | None => None
  | Some ty =>
      match children_ r !! field_offset f with
      | Some child => Some (child, r)
      | None =>
          let child := mk ty ∅ ∅ in
          Some (child,
                mk (type_ r) (fields_ r) (<[field_offset f := child]> (children_ r)))
      end
  end.

Definition Mutable_name (field_name : string) (r : t) : option (t * t) :=
  match GetFieldOrNull (type_ r) field_name with
  | Some f => Mutable_field f r
  | None => None
  end.

(** A nested record is reached through the pointers [Mutable] returns: a
    step names the field either way [Mutable] accepts it. *)
Definition step : Type := string + Field.

Definition step_field (r : t) (st : step) : option Field :=
  match st with
  | inl field_name => GetFieldOrNull (type_ r) field_name
  | inr f => Some f
  end.

(** [r->Mutable(s1)->...->Mutable(sn)] followed by the update [g] of the
    record reached; the owner sees the update. Where a [Mutable] returns
    the null pointer there is no record to update. *)
Fixpoint update_at (path : list step) (g : t -> t) (r : t) : t :=
  match path with
  | [] => g r
  | st :: rest =>
      match step_field r st with
      | None => r
      | Some f =>
          match Mutable_field f r with
          | None => r
          | Some (child, r') =>
              mk (type_ r') (fields_ r')
                 (<[field_offset f := update_at rest g child]> (children_ r'))
          end
      end
  end.

(** The calls a client can make on a record and its nested records. *)
Inductive Op : Type :=
  | OpSetName (path : list step) (field_name : string) (value : Variant)
  | OpSetField (path : list step) (field : option Field) (value : Variant)
  | OpMutable (path : list step).

Definition run (op : Op) (r : t) : t :=
  match op with
  | OpSetName path field_name value =>
      update_at path (fun x => snd (Set_name field_name value x)) r
  | OpSetField path field value =>
      update_at path (fun x => snd (Set_field field value x)) r
  | OpMutable path => update_at path (fun x => x) r
  end.

(** The typing invariant: every cached value agrees with its field, in
    the record and in all its nested records. *)
Inductive well_typed : t -> Prop :=
  | well_typed_intro (r : t) :
      (forall f v, fields_ r !! f = Some v ->
                   IsMatchingType (type_ r) f v = true) ->
      (forall o child, children_ r !! o = Some child -> well_typed child) ->
      well_typed r.

End Reflective.

End ReflectiveFlatbuffer.

(** ** Rule compilation at initialization (actions/actions-suggestions.cc) *)

Module Initialization.
Import ActionsSuggestions.

Section Init.
Context {P : Platform}.

(** An entry of a [RulesModel]: the rule with its pattern, plain or
    compressed. *)
Record RuleEntry := mkRuleEntry {
  entry_rule : Rule;
  entry_pattern : option string;
  entry_compressed_pattern : option string
}.

(** The two rule tables [InitializeRules] reads: [model_->rules()] and
    [model_->preconditions()->low_confidence_rules()]. *)
Record RuleTables := mkRuleTables {
  rules : option (list RuleEntry);
  low_confidence_rules : option (list RuleEntry)
}.

(** [UncompressMakeRegexPattern], for the engine's [unilib_] and the
    decompressor at hand; it is defined outside the embedded sources and
    returns the null pointer for a pattern that cannot be built. *)
Variable UncompressMakeRegexPattern :
  option string -> option string -> option (string -> RegexMatcher).

(** [InitializeRules(decompressor, rules, compiled_rules)]: the flag
    returned and the vector [compiled_rules] afterwards. *)
Fixpoint InitializeRules_into (entries : list RuleEntry)
    (compiled_rules : list CompiledRule) : bool * list CompiledRule :=
  match entries with
  | [] => (true, compiled_rules)
  | e :: rest =>
      match UncompressMakeRegexPattern (entry_pattern e)
              (entry_compressed_pattern e) with
      | None => (false, compiled_rules)
      | Some compiled_pattern =>
          InitializeRules_into rest
            (compiled_rules ++ [mkCompiledRule (entry_rule e) compiled_pattern])
      end
  end.

(** [InitializeRules(decompressor)]: the flag returned, [rules_] and
    [low_confidence_rules_] afterwards. *)
Definition InitializeRules (model : ActionsModel) (tables : RuleTables)
    (rules_ low_confidence_rules_ : list CompiledRule)
    : bool * (list CompiledRule * list CompiledRule) :=
  let '(ok, rules1) :=
    match rules tables with
    | Some entries => InitializeRules_into entries rules_
    | None => (true, rules_)
    end in
  if negb ok then (false, (rules1, low_confidence_rules_))
  else
    match suppress_on_low_confidence_input (preconditions model),
          low_confidence_rules tables with
    | true, Some entries =>
        let '(ok2, low1) := InitializeRules_into entries low_confidence_rules_ in
        (ok2, (rules1, low1))
    | _, _ => (true, (rules1, low_confidence_rules_))
    end.

End Init.
End Initialization.

(** ** Vocabulary of the properties

    The notions the properties below are stated with: the matching rule of
    the locale matcher in the words of the specification, the order on
    scores, the suggestions the rule pass is to append, and the conditions
    under which the pipeline reaches its stages. *)

Module LocaleSpec.
Import ActionsSuggestions.

(** The matching rule in the words of the specification, for one
    model-declared locale and one candidate. *)
Definition spec_field_matches (candidate_may_be_empty : bool)
    (model_field candidate_field : string) : Prop :=
  model_field = "" \/ model_field = "*" \/ model_field = candidate_field
  \/ (candidate_may_be_empty = true /\ candidate_field = "").

Definition spec_locale_matches (model_locale locale : Locale) : Prop :=
  spec_field_matches false (Language model_locale) (Language locale)
  /\ spec_field_matches true (Script model_locale) (Script locale)
  /\ spec_field_matches true (Region model_locale) (Region locale).

(** Relaxations of a component: on the model side to the wildcard or the
    empty string, on the candidate side to the empty string. *)
Definition relaxed_model_field (old new : string) : Prop :=
  new = old \/ new = "*" \/ new = "".

Definition relaxed_candidate_field (old new : string) : Prop :=
  new = old \/ new = "".

Definition relaxes_model (m m' : Locale) : Prop :=
  IsValid m' = IsValid m
  /\ relaxed_model_field (Language m) (Language m')
  /\ relaxed_model_field (Script m) (Script m')
  /\ relaxed_model_field (Region m) (Region m').

Definition relaxes_candidate (c c' : Locale) : Prop :=
  Language c' = Language c
  /\ relaxed_candidate_field (Script c) (Script c')
  /\ relaxed_candidate_field (Region c) (Region c').

End LocaleSpec.

Module DeduplicationSpec.
Import ActionsSuggestions.

Section Dedup.
Context {P : Platform}.

Definition score_of (a : ActionSuggestionAnnotation) : float :=
  cr_score (entity a).

(** The scores of the annotations are ordered by [<] as numbers are: no
    score is below itself, [<] is transitive, and a score that is not below
    another one is below everything the other one is below. (A NaN score
    breaks the last part.) *)
Definition scores_ordered (anns : list ActionSuggestionAnnotation) : Prop :=
  (forall a, In a anns -> flt (score_of a) (score_of a) = false)
  /\ (forall a b c, In a anns -> In b anns -> In c anns ->
        flt (score_of a) (score_of b) = true ->
        flt (score_of b) (score_of c) = true ->
        flt (score_of a) (score_of c) = true)
  /\ (forall a b c, In a anns -> In b anns -> In c anns ->
        flt (score_of a) (score_of b) = false ->
        flt (score_of a) (score_of c) = true ->
        flt (score_of b) (score_of c) = true).

(** [v] is the representative of the annotations with key [k] among the
    first [i] annotations: it has the key, none of them has a higher score,
    and those before it have a lower score. *)
Definition represents (anns : list ActionSuggestionAnnotation) (i : nat)
    (k : DedupKey) (v : nat) : Prop :=
  (v < i)%nat
  /\ exists a, anns !! v = Some a /\ dedup_key a = k
     /\ forall j aj, (j < i)%nat -> anns !! j = Some aj -> dedup_key aj = k ->
          flt (score_of a) (score_of aj) = false
          /\ ((j < v)%nat -> flt (score_of aj) (score_of a) = true).

Record dedup_inv (anns : list ActionSuggestionAnnotation) (i : nat)
    (m : list (DedupKey * nat)) : Prop := mk_dedup_inv {
  inv_nodup : NoDup (map fst m);
  inv_entry : forall k v, map_find k m = Some v -> represents anns i k v;
  inv_seen : forall j aj, (j < i)%nat -> anns !! j = Some aj ->
               map_find (dedup_key aj) m <> None
}.

End Dedup.
End DeduplicationSpec.

Module RulePassSpec.
Import ActionsSuggestions.

Section RulePass.
Context {P : Platform}.

(** The matches the [while] loop visits: the results of [Find] up to the
    first one that reports no match or an error status. *)
Fixpoint matches_of (matcher : RegexMatcher) : list FindResult :=
  match matcher with
  | [] => []
  | m :: later =>
      if found m && (find_status m =? kNoError)%Z
      then m :: matches_of later else []
  end.

(** The entity payload of one action for one match: the empty string for
    a rule without entity data, otherwise the serialized record built from
    the static payload and the capturing groups. There is none when the
    builder or the root record is missing or an extraction fails. *)
Definition entity_payload (E : Engine) (has_entity_data : bool)
    (m : FindResult) (rule_action : RuleActionSpec) : option string :=
  if has_entity_data
  then
    builder ← entity_data_builder_ E;
    root ← NewRoot builder;
    final ←
      (let merged :=
         match spec_serialized_entity_data (action rule_action) with
         | Some d => MergeFromSerializedFlatbuffer d root
         | None => root
         end in
       match capturing_group rule_action with
       | Some gs => set_capturing_groups gs m merged
       | None => Some merged
       end);
    Some (Serialize final)
  else Some "".

(** The suggestion the rule pass makes for one match and one action. *)
Definition suggestion_for (E : Engine) (has_entity_data : bool)
    (m : FindResult) (rule_action : RuleActionSpec) : ActionSuggestion :=
  mkActionSuggestion
    (default "" (spec_response_text (action rule_action)))
    (spec_type (action rule_action))
    (spec_score (action rule_action))
    []
    (default "" (entity_payload E has_entity_data m rule_action)).

Definition suggestions_of_rule (E : Engine) (message : string)
    (r : CompiledRule) : list ActionSuggestion :=
  flat_map
    (fun m => map (suggestion_for E (HasEntityData (rule r)) m)
                  (rule_actions (rule r)))
    (matches_of (pattern r message)).

Definition suggestions_of_rules (E : Engine) (message : string)
    : list ActionSuggestion :=
  flat_map (suggestions_of_rule E message) (rules_ E).

(** Every payload the pass needs can be built. *)
Definition payloads_available (E : Engine) (message : string) : Prop :=
  forall r m rule_action,
    In r (rules_ E) -> In m (matches_of (pattern r message)) ->
    In rule_action (rule_actions (rule r)) ->
    is_Some (entity_payload E (HasEntityData (rule r)) m rule_action).

(** An extraction of a capturing group fails somewhere in the pass. *)
Definition extraction_fails (E : Engine) (message : string) : Prop :=
  exists r m rule_action gs entity_data,
    In r (rules_ E) /\ In m (matches_of (pattern r message))
    /\ In rule_action (rule_actions (rule r))
    /\ capturing_group rule_action = Some gs
    /\ set_capturing_groups gs m entity_data = None.

End RulePass.
End RulePassSpec.

(** The rule pass as the specification words it, written without the
    functions of the pass: these definitions are what the pass is compared
    with. *)
Module RulePassClaim.
Import ActionsSuggestions RulePassSpec.

Section Claim.
Context {P : Platform}.

Definition declared {A : Type} (o : option A) : bool :=
  match o with Some _ => true | None => false end.

(** A rule declares entity data when one of its actions carries a static
    payload or capturing groups. *)
Definition rule_declares_entity_data (r : Rule) : bool :=
  existsb
    (fun ra => declared (spec_serialized_entity_data (action ra))
               || declared (capturing_group ra))
    (rule_actions r).

(** The fields set from the capturing groups, one group after the other;
    nothing once a group cannot be extracted. *)
Definition captured_entity_data (gs : list CapturingGroup) (m : FindResult)
    (entity_data : EntityData) : option EntityData :=
  fold_left
    (fun acc group =>
       match acc with
       | Some e =>
           SetFieldFromCapturingGroup (group_id group) (entity_field group) m e
       | None => None
       end)
    gs (Some entity_data).

(** The serialized entity payload of an action of rule [r] for the match
    [m]: the empty string when the rule declares no entity data;
    otherwise the serialization of a fresh root record with the action's
    static payload merged in and the action's capturing groups set. *)
Definition claimed_payload (E : Engine) (r : Rule) (m : FindResult)
    (ra : RuleActionSpec) : option string :=
  if rule_declares_entity_data r
  then
    match entity_data_builder_ E with
    | None => None
    | Some builder =>
        match NewRoot builder with
        | None => None
        | Some root =>
            let with_static :=
              match spec_serialized_entity_data (action ra) with
              | Some d => MergeFromSerializedFlatbuffer d root
              | None => root
              end in
            option_map Serialize
              (captured_entity_data (default [] (capturing_group ra)) m
                 with_static)
        end
    end
  else Some "".

(** The suggestion for one match and one action: the declared response
    text (empty if none is declared), type and static score, no
    annotation, and the payload. *)
Definition claimed_suggestion (ra : RuleActionSpec) (payload : string)
    : ActionSuggestion :=
  mkActionSuggestion
    (default "" (spec_response_text (action ra)))
    (spec_type (action ra)) (spec_score (action ra)) [] payload.

(** One suggestion per match of the rule in [message] and per action of
    the rule. *)
Definition claimed_suggestions_of_rule (E : Engine) (message : string)
    (r : CompiledRule) : list ActionSuggestion :=
  flat_map
    (fun m =>
       map (fun ra =>
              claimed_suggestion ra (default "" (claimed_payload E (rule r) m ra)))
           (rule_actions (rule r)))
    (matches_of (pattern r message)).

Definition claimed_suggestions (E : Engine) (message : string)
    : list ActionSuggestion :=
  flat_map (claimed_suggestions_of_rule E message) (rules_ E).

(** Every payload the suggestions carry can be built. *)
Definition payloads_buildable (E : Engine) (message : string) : Prop :=
  forall r m ra,
    In r (rules_ E) -> In m (matches_of (pattern r message)) ->
    In ra (rule_actions (rule r)) ->
    is_Some (claimed_payload E (rule r) m ra).

End Claim.
End RulePassClaim.

Module PipelineSpec.
Import ActionsSuggestions.

(** The condition as the specification words it: the total length lies
    outside [[min_input_length, max_input_length]], where a maximum of at
    most 0 means no upper bound. *)
Definition claimed_length_out_of_range (min_len max_len total : Z) : bool :=
  (total <? min_len)%Z || ((0 <? max_len)%Z && (max_len <? total)%Z).

Section Pipeline.
Context {P : Platform}.

(** [r'] is [r] with more actions appended. *)
Definition extends (r r' : ActionsSuggestionsResponse) : Prop :=
  exists l, r' = set_actions r (actions r ++ l).

(** The sum of the text lengths, as a number. *)
Definition total_text_length (selected : list ConversationMessage) : Z :=
  fold_right (fun m acc => (Z.of_nat (String.length (text m)) + acc)%Z) 0%Z
    selected.

(** The matcher of some rule reports an error status when the loop over
    its matches asks for the next match. *)
Fixpoint matcher_error (matcher : RegexMatcher) : bool :=
  match matcher with
  | [] => false
  | m :: later =>
      if found m && (find_status m =? kNoError)%Z
      then matcher_error later
      else negb (find_status m =? kNoError)%Z
  end.

Definition rule_matcher_error (E : Engine) (message : string) : bool :=
  existsb (fun r => matcher_error (pattern r message)) (rules_ E).

(** The sensitivity score [ReadModelOutput] reads from the interpreter:
    the triggering score, if the model has one, must be readable first,
    then the sensitivity tensor must be valid and hold one row. *)
Definition sensitivity_read (E : Engine) (interpreter : Interpreter)
    : option float :=
  let spec := tflite_model_spec (model_ E) in
  let ts := OutputView interpreter (output_triggering_score spec) in
  let st := OutputView interpreter (output_sensitive_topic_score spec) in
  if (0 <=? output_triggering_score spec)%Z
     && (negb (is_valid ts) || (size ts =? 0)%Z)
  then None
  else if (0 <=? output_sensitive_topic_score spec)%Z
          && is_valid st && (dim st 0 =? 1)%Z
  then Some (data_at st 0)
  else None.

(** The model's sensitivity score exceeds [max_sensitive_topic_score]. *)
Definition sensitivity_exceeded (E : Engine) (interpreter : Interpreter)
    : bool :=
  match sensitivity_read E interpreter with
  | Some s => flt (max_sensitive_topic_score (preconditions (model_ E))) s
  | None => false
  end.

(** The triggering score can be read: the model declares none, or its
    tensor is valid and not empty. *)
Definition triggering_score_readable (E : Engine) (interpreter : Interpreter)
    : bool :=
  let spec := tflite_model_spec (model_ E) in
  let ts := OutputView interpreter (output_triggering_score spec) in
  negb (0 <=? output_triggering_score spec)%Z
  || (is_valid ts && negb (size ts =? 0)%Z).

(** The sensitivity score the model has put out, taken from the
    sensitivity tensor alone: the model declares the output, and the
    tensor is valid and holds one row. *)
Definition model_sensitivity (E : Engine) (interpreter : Interpreter)
    : option float :=
  let spec := tflite_model_spec (model_ E) in
  let st := OutputView interpreter (output_sensitive_topic_score spec) in
  if (0 <=? output_sensitive_topic_score spec)%Z
     && is_valid st && (dim st 0 =? 1)%Z
  then Some (data_at st 0)
  else None.

(** The model's sensitivity output exceeds [max_sensitive_topic_score],
    as the specification words the condition. *)
Definition model_sensitivity_exceeds (E : Engine) (interpreter : Interpreter)
    : bool :=
  match model_sensitivity E interpreter with
  | Some s => flt (max_sensitive_topic_score (preconditions (model_ E))) s
  | None => false
  end.

(** All checks before the model invocation let the conversation through. *)
Definition reaches_model (E : Engine) (conversation : Conversation) : bool :=
  let num_messages := num_messages_of E conversation in
  let selected := last_messages num_messages (messages conversation) in
  match messages conversation with [] => false | _ :: _ => true end
  && (0 <? num_messages)%Z
  && negb (input_length_out_of_range E selected)
  && negb (flt (fdiv (float_of_int (num_matching_locales E selected))
                     (float_of_int num_messages))
               (min_locale_match_fraction (preconditions (model_ E))))
  && negb (IsLowConfidenceInput E conversation num_messages).

(** Modelled from the spec: the contract of the ranker, whose code is not
    among the embedded sources (actions/ranker.h declares [RankActions]). It
    filters and reorders the suggestions in place: it leaves the filter
    flags as they are and returns no suggestion it was not given. *)
Definition ranker_filters (ranker : ActionsSuggestionsRanker) : Prop :=
  forall r,
    output_filtered_sensitivity (snd (RankActions ranker r))
    = output_filtered_sensitivity r
    /\ forall a, In a (actions (snd (RankActions ranker r))) -> In a (actions r).

End Pipeline.
End PipelineSpec.

Module DedupOrderSpec.
Import ActionsSuggestions.

(** The order of the keys of the deduplication map. *)
Definition key_lt (a b : DedupKey) : Prop := key_compare a b = Lt.

Section Shape.
Context {P : Platform}.

(** The shape of the map after the first [i] annotations, whatever their
    scores: keys in increasing order, every entry the index of an
    annotation with that key, every key seen so far present. *)
Record dedup_shape (anns : list ActionSuggestionAnnotation) (i : nat)
    (m : list (DedupKey * nat)) : Prop := mk_dedup_shape {
  shape_sorted : StronglySorted key_lt (map fst m);
  shape_entry : forall k v, map_find k m = Some v ->
                  (v < i)%nat
                  /\ exists a, anns !! v = Some a /\ dedup_key a = k;
  shape_seen : forall j aj, (j < i)%nat -> anns !! j = Some aj ->
                 map_find (dedup_key aj) m <> None
}.

(** The annotations [DeduplicateAnnotations] selects, in the order of
    the ids it returns. *)
Definition representatives (anns : list ActionSuggestionAnnotation)
    : list ActionSuggestionAnnotation :=
  omap (fun r => anns !! r) (DeduplicateAnnotations anns).

End Shape.
End DedupOrderSpec.

Module GatingSpec.
Import ActionsSuggestions.

Section Gating.
Context {P : Platform}.

(** [r'] holds the actions of [r] and possibly more behind them. *)
Definition appends (r r' : ActionsSuggestionsResponse) : Prop :=
  exists l, actions r' = actions r ++ l.

(** The engine can build the entity data its rules ask for: no rule
    declares entity data, or the builder is there and yields a root. *)
Definition entity_data_ready (E : Engine) : Prop :=
  (forall r, In r (rules_ E) -> HasEntityData (rule r) = false)
  \/ exists builder root,
       entity_data_builder_ E = Some builder /\ NewRoot builder = Some root.

(** The entity data a rule asks for cannot be built: the builder is
    missing or yields no root. *)
Definition entity_data_missing (E : Engine) : Prop :=
  match entity_data_builder_ E with
  | None => True
  | Some builder => NewRoot builder = None
  end.

(** [ReadModelOutput] reads [data()[i]] of the sensitivity, reply-score
    and action-score views without checking the index; [data_at] gives
    such a read a value also where the source reads past the data or from
    an invalid view, which is undefined there. The reads of a model run
    are in range when the sensitivity view that passes its check holds an
    element, the reply-score view is valid and holds an element for every
    non-empty reply, and the action-score view is valid and holds an
    element for every enabled action class. *)
Definition reads_in_range (E : Engine) (interpreter : Interpreter) : Prop :=
  let spec := tflite_model_spec (model_ E) in
  let sensitive_topic_score :=
    OutputView interpreter (output_sensitive_topic_score spec) in
  let scores := OutputView interpreter (output_replies_scores spec) in
  let actions_scores := OutputView interpreter (output_actions_scores spec) in
  (is_valid sensitive_topic_score = true ->
   dim sensitive_topic_score 0 = 1%Z ->
   data sensitive_topic_score <> [])
  /\ (forall i reply,
        Output interpreter (output_replies spec) !! i = Some reply ->
        reply <> "" ->
        is_valid scores = true /\ (i < length (data scores))%nat)
  /\ (forall i t,
        action_type (model_ E) !! i = Some t -> enabled t = true ->
        is_valid actions_scores = true
        /\ (i < length (data actions_scores))%nat).

(** The score of a suggestion is an element of the reply-score or of the
    action-score tensor of the model run. *)
Definition score_read_from (E : Engine) (interpreter : Interpreter)
    (a : ActionSuggestion) : Prop :=
  let spec := tflite_model_spec (model_ E) in
  In (score a) (data (OutputView interpreter (output_replies_scores spec)))
  \/ In (score a) (data (OutputView interpreter (output_actions_scores spec))).

(** Every model run of the engine has its reads in range. *)
Definition model_output_in_range (E : Engine) : Prop :=
  forall executor input interpreter,
    model_executor_ E = Some executor ->
    Invoke executor input = Some interpreter ->
    reads_in_range E interpreter.

(** A message counts for the locale check: its locale string parses and
    one of its locales is supported. *)
Definition locale_counts (E : Engine) (m : ConversationMessage) : bool :=
  match ParseLocales (locales m) with
  | Some message_locales => IsAnyLocaleSupportedByModel E message_locales
  | None => false
  end.

(** A component of a model-declared locale accepts every candidate. *)
Definition open_field (model_field : string) : Prop :=
  model_field = "" \/ model_field = "*".

End Gating.
End GatingSpec.

Module ModelSpec.
Import ActionsSuggestions.

Section ModelOutput.
Context {P : Platform}.

(** A suggestion made from a reply of the model. *)
Definition is_smart_reply (E : Engine) (a : ActionSuggestion) : Prop :=
  response_text a <> ""
  /\ type a = smart_reply_action_type (model_ E)
  /\ as_annotations a = [] /\ serialized_entity_data a = "".

(** A suggestion made from an action class of the model. *)
Definition is_action_class (E : Engine) (a : ActionSuggestion) : Prop :=
  response_text a = ""
  /\ as_annotations a = [] /\ serialized_entity_data a = ""
  /\ exists t, In t (action_type (model_ E)) /\ enabled t = true
               /\ type a = at_name t
               /\ flt (score a) (min_triggering_score t) = false.

(** What reading the model output does to a response: it appends
    suggestions made from replies and action classes, none at all if the
    sensitivity flag ends up set and no reply if the triggering flag ends
    up set, and it leaves the two policy flags alone. *)
Definition model_step (E : Engine) (r res : ActionsSuggestionsResponse) : Prop :=
  exists l,
    actions res = actions r ++ l
    /\ Forall (fun a => is_smart_reply E a \/ is_action_class E a) l
    /\ (output_filtered_sensitivity res = true -> l = [])
    /\ (output_filtered_min_triggering_score res = true ->
        Forall (is_action_class E) l)
    /\ output_filtered_locale_mismatch res = output_filtered_locale_mismatch r
    /\ output_filtered_low_confidence res = output_filtered_low_confidence r.

End ModelOutput.
End ModelSpec.

Module AnnotationSpec.
Import ActionsSuggestions DedupOrderSpec.

Section Mapping.
Context {P : Platform}.

(** A mapping entry applies to a candidate: the collections agree and the
    candidate's score is not below the entry's minimum. *)
Definition mapping_applies (mapping : AnnotationMapping)
    (a : ActionSuggestionAnnotation) : bool :=
  (collection (entity a) =? annotation_collection mapping)
  && negb (flt (cr_score (entity a)) (min_annotation_score mapping)).

(** The suggestion a mapping entry makes of a candidate. *)
Definition mapped_action (mapping : AnnotationMapping)
    (a : ActionSuggestionAnnotation) : ActionSuggestion :=
  mkActionSuggestion ""
    (spec_type (mapping_action mapping))
    (if use_annotation_score mapping then cr_score (entity a)
     else spec_score (mapping_action mapping))
    [a]
    (default "" (spec_serialized_entity_data (mapping_action mapping))).

Definition mapped_actions (E : Engine) (a : ActionSuggestionAnnotation)
    : list ActionSuggestion :=
  map (fun mapping => mapped_action mapping a)
    (List.filter (fun mapping => mapping_applies mapping a)
       (annotation_mappings E)).

(** The candidates of the annotation pass: the annotations of the last
    message, or those the annotator gives when the message has none, each
    with its top classification. *)
Definition annotation_candidates (conversation : Conversation)
    (options : ActionSuggestionOptions) (annotator : option Annotator)
    (last_message : ConversationMessage) : list ActionSuggestionAnnotation :=
  action_annotations_of (text last_message)
    (Z.of_nat (length (messages conversation)) - 1)
    (match annotations last_message, annotator with
     | [], Some annotate =>
         annotate (text last_message) (annotation_options options)
     | _, _ => annotations last_message
     end).

Definition deduplicates (E : Engine) : bool :=
  match annotation_actions_spec (model_ E) with
  | Some spec => deduplicate_annotations spec
  | None => false
  end.

End Mapping.
End AnnotationSpec.

Module TrieSpec.
Import DoubleArrayTrie.

(** The matches a walk reports, in the order it reports them, from the
    byte with index [i] at position [pos]. *)
Definition emitted (char_is_signed : bool) (T : Trie) (input : string)
    (i pos : Z) : bool * list TrieMatch :=
  gather_loop char_is_signed (fun m ms => ms ++ [m]) T input i pos [].

End TrieSpec.

(** ** Concrete configurations

    A platform whose floats are rationals, and small engines, tries and
    records on which the definitions above are evaluated. *)

Module Fixtures.

Definition Qltb (a b : Q) : bool := negb (Qle_bool b a).

(** Stand-ins for the library calls: a locale string is taken as a bare
    language tag, a capturing group is appended to the entity data. *)
Definition rational_platform : Platform := {|
  float := Q;
  flt := Qltb;
  float_of_int := inject_Z;
  fdiv := Qdiv;
  initial_score := inject_Z (-1);
  AnnotationOptions := unit;
  ParseLocales := fun s =>
    Some (if (s =? "") then [] else [mkLocale s "" "" true false]);
  UTF8Substring := fun s first second =>
    substring (Z.to_nat first) (Z.to_nat (second - first)) s;
  EntityData := string;
  MergeFromSerializedFlatbuffer := fun d e => String.append e d;
  SetFieldFromCapturingGroup := fun gid _ m e =>
    match nth (Z.to_nat gid) (groups m) None with
    | Some g => Some (String.append e g)
    | None => None
    end;
  Serialize := fun e => e
|}.

Abbreviation Q_ := rational_platform.

Definition preconditions_with (min_len max_len : Z) (max_sensitive : Q)
    (suppress_sensitive : bool)
    : ActionsSuggestions.TriggeringPreconditions (P := Q_) :=
  ActionsSuggestions.mkTriggeringPreconditions (P := Q_)
    0%Q max_sensitive suppress_sensitive min_len max_len 0%Q
    true true false.

(** Output slots 0..4 of the model: replies, reply scores, sensitivity,
    triggering score, action scores. *)
Definition all_outputs : ActionsSuggestions.TensorflowLiteModelSpec :=
  ActionsSuggestions.mkTensorflowLiteModelSpec 0 1 2 3 4 0 1 2 3 4.

Definition model_with
    (pre : ActionsSuggestions.TriggeringPreconditions (P := Q_))
    (spec : option (ActionsSuggestions.AnnotationActionsSpec (P := Q_)))
    : ActionsSuggestions.ActionsModel (P := Q_) :=
  ActionsSuggestions.mkActionsModel (P := Q_) pre (-1) 3 all_outputs
    "text_reply"
    [ActionsSuggestions.mkActionTypeOptions (P := Q_) "share_location" true 0%Q]
    spec.

(** A ranker that keeps every suggestion, and one that always fails. *)
Definition keep_all_ranker : ActionsSuggestions.ActionsSuggestionsRanker (P := Q_) :=
  ActionsSuggestions.mkActionsSuggestionsRanker (P := Q_) (fun r => (true, r)).

Definition failing_ranker : ActionsSuggestions.ActionsSuggestionsRanker (P := Q_) :=
  ActionsSuggestions.mkActionsSuggestionsRanker (P := Q_) (fun r => (false, r)).

Definition engine_with
    (model : ActionsSuggestions.ActionsModel (P := Q_))
    (ls : list Locale)
    (rules : list (ActionsSuggestions.CompiledRule (P := Q_)))
    (executor : option (ActionsSuggestions.TfLiteModelExecutor (P := Q_)))
    (ranker : ActionsSuggestions.ActionsSuggestionsRanker (P := Q_))
    : ActionsSuggestions.Engine (P := Q_) :=
  ActionsSuggestions.mkEngine (P := Q_) model ls rules [] executor
    (Some (ActionsSuggestions.mkReflectiveFlatbufferBuilder (P := Q_) (Some "")))
    ranker.

Definition open_preconditions := preconditions_with 0 (-1) 1%Q false.

(** An engine declaring the single locale "en". *)
Definition en_engine : ActionsSuggestions.Engine (P := Q_) :=
  engine_with (model_with open_preconditions None)
    [mkLocale "en" "" "" true false] [] None keep_all_ranker.

(** Scenario C: two annotations of collection "date" over the substring
    "tomorrow". *)
Definition date_annotation (s : Q)
    : ActionsSuggestions.ActionSuggestionAnnotation (P := Q_) :=
  ActionsSuggestions.mkActionSuggestionAnnotation (P := Q_) 0 (9, 17)
    (ActionsSuggestions.mkClassificationResult (P := Q_) "date" s)
    "date" "tomorrow".

Definition two_dates := [date_annotation (4 # 10); date_annotation (8 # 10)].

Definition tied_dates := [date_annotation (8 # 10); date_annotation (8 # 10)].

(** Scenario A: a rule for time expressions with score 0.9 and no entity
    data; its pattern is taken to match once in a text that mentions "5pm". *)
Definition mentions_5pm (t : string) : bool :=
  match index 0 "5pm" t with Some _ => true | None => false end.

Definition time_pattern (t : string) : RegexMatcher :=
  if mentions_5pm t then [mkFindResult true kNoError [Some "5pm"]] else [].

Definition plain_action (type : string) (score : Q)
    : ActionsSuggestions.ActionSuggestionSpec (P := Q_) :=
  ActionsSuggestions.mkActionSuggestionSpec (P := Q_) type None None score.

Definition time_rule : ActionsSuggestions.CompiledRule (P := Q_) :=
  ActionsSuggestions.mkCompiledRule (P := Q_)
    (ActionsSuggestions.mkRule (P := Q_)
       [ActionsSuggestions.mkRuleActionSpec (P := Q_)
          (plain_action "create_event" (9 # 10)) None])
    time_pattern.

Definition message (t : string)
    : ActionsSuggestions.ConversationMessage (P := Q_) :=
  ActionsSuggestions.mkConversationMessage (P := Q_) 1 t 0 [] "en".

Definition meet_at_5pm : ActionsSuggestions.Conversation (P := Q_) :=
  ActionsSuggestions.mkConversation (P := Q_) [message "Let's meet at 5pm"].

Definition default_options : ActionsSuggestions.ActionSuggestionOptions (P := Q_) :=
  ActionsSuggestions.mkActionSuggestionOptions (P := Q_) tt false.

Definition time_engine : ActionsSuggestions.Engine (P := Q_) :=
  engine_with (model_with open_preconditions None)
    [mkLocale "en" "" "" true false] [time_rule] None keep_all_ranker.

(** A rule whose matcher finds one match and then reports an error. *)
Definition flaky_pattern (t : string) : RegexMatcher :=
  [mkFindResult true kNoError [Some t]; mkFindResult false 1 []].

Definition flaky_rule : ActionsSuggestions.CompiledRule (P := Q_) :=
  ActionsSuggestions.mkCompiledRule (P := Q_)
    (ActionsSuggestions.mkRule (P := Q_)
       [ActionsSuggestions.mkRuleActionSpec (P := Q_)
          (plain_action "copy" (1 # 2)) None])
    flaky_pattern.

(** A rule that maps capturing group 3 to an entity field although its
    matches have a single group. *)
Definition bad_group_rule : ActionsSuggestions.CompiledRule (P := Q_) :=
  ActionsSuggestions.mkCompiledRule (P := Q_)
    (ActionsSuggestions.mkRule (P := Q_)
       [ActionsSuggestions.mkRuleActionSpec (P := Q_)
          (plain_action "call_phone" (1 # 2))
          (Some [ActionsSuggestions.mkCapturingGroup 3 ["number"]])])
    time_pattern.

Definition flaky_engine : ActionsSuggestions.Engine (P := Q_) :=
  engine_with (model_with open_preconditions None)
    [mkLocale "en" "" "" true false] [flaky_rule; time_rule] None
    keep_all_ranker.

Definition bad_group_engine : ActionsSuggestions.Engine (P := Q_) :=
  engine_with (model_with open_preconditions None)
    [mkLocale "en" "" "" true false] [time_rule; bad_group_rule] None
    keep_all_ranker.

Definition unranked_engine : ActionsSuggestions.Engine (P := Q_) :=
  engine_with (model_with open_preconditions None)
    [mkLocale "en" "" "" true false] [time_rule] None failing_ranker.

(** Annotations of collection "date" become "view_calendar" actions. *)
Definition date_spec
    : option (ActionsSuggestions.AnnotationActionsSpec (P := Q_)) :=
  Some (ActionsSuggestions.mkAnnotationActionsSpec (P := Q_)
          (Some [ActionsSuggestions.mkAnnotationMapping (P := Q_) "date"
                   (plain_action "view_calendar" 1) true 0%Q])
          true).

Definition annotated_message (t : string) (first second : Z)
    : ActionsSuggestions.ConversationMessage (P := Q_) :=
  ActionsSuggestions.mkConversationMessage (P := Q_) 1 t 0
    [ActionsSuggestions.mkAnnotatedSpan (P := Q_) (first, second)
       [ActionsSuggestions.mkClassificationResult (P := Q_) "date" (8 # 10)]]
    "en".

Definition tomorrow_at_5pm : ActionsSuggestions.Conversation (P := Q_) :=
  ActionsSuggestions.mkConversation (P := Q_)
    [annotated_message "See you tomorrow at 5pm" 8 16].

(** Scenario B: five characters of input. *)
Definition five_characters : ActionsSuggestions.Conversation (P := Q_) :=
  ActionsSuggestions.mkConversation (P := Q_) [annotated_message "5pm!!" 0 3].

(** The output tensors of a model run: one reply, its score, the
    sensitivity score [sensitivity], a triggering score and one action
    score, in the slots of [all_outputs]. *)
Definition tensor (l : list Q) : ActionsSuggestions.TensorView (P := Q_) :=
  ActionsSuggestions.mkTensorView (P := Q_) true [Z.of_nat (length l)] l.

Definition interpreter_with (sensitivity : Q)
    : ActionsSuggestions.Interpreter (P := Q_) :=
  ActionsSuggestions.mkInterpreter (P := Q_)
    (fun i => if (i =? 1)%Z then tensor [7 # 10]
              else if (i =? 2)%Z then tensor [sensitivity]
              else if (i =? 3)%Z then tensor [1 # 2]
              else if (i =? 4)%Z then tensor [6 # 10]
              else tensor [])
    (fun i => if (i =? 0)%Z then ["Sure"] else []).

Definition executor_with (sensitivity : Q)
    : option (ActionsSuggestions.TfLiteModelExecutor (P := Q_)) :=
  Some (ActionsSuggestions.mkTfLiteModelExecutor (P := Q_) true true
          (fun _ => Some (interpreter_with sensitivity))).

(** Engines with the model, the time rule and the date mapping; the
    sensitivity threshold is 0.5. *)
Definition model_engine (min_len max_len : Z) (suppress : bool)
    (sensitivity : Q) : ActionsSuggestions.Engine (P := Q_) :=
  engine_with
    (model_with (preconditions_with min_len max_len (1 # 2) suppress) date_spec)
    [mkLocale "en" "" "" true false] [time_rule] (executor_with sensitivity)
    keep_all_ranker.

(** A trie of 200 nodes whose node 97 is labelled 'a', has a leaf and
    carries the offset 169, so that the position after "a" is
    97 xor 169 = 200, one past the last node; the word behind the node
    array reads as 42. *)
Definition leaf_at_bounds_trie : DoubleArrayTrie.Trie :=
  DoubleArrayTrie.mkTrie 200
    (fun i => if (i =? 97)%Z then 169 else 0)
    (fun i => if (i =? 97)%Z then 97 else 0)
    (fun i => (i =? 97)%Z)
    (fun i => if (i =? 200)%Z then 42 else 0).

(** The same trie with the offset 425, which gives the position
    97 xor 425 = 456. *)
Definition leaf_past_bounds_trie : DoubleArrayTrie.Trie :=
  DoubleArrayTrie.mkTrie 200
    (fun i => if (i =? 97)%Z then 425 else 0)
    (fun i => if (i =? 97)%Z then 97 else 0)
    (fun i => (i =? 97)%Z)
    (fun _ => 0).

(** A well-formed trie for the keys "a" (id 7) and "ab" (id 9): node 97 is
    'a' with a leaf and offset 97 xor 100, the leaf value sits at 100 and
    node 100 xor 98 = 6 is 'b' with a leaf and offset 6 xor 101, with its
    value at 101. *)
Definition ab_trie : DoubleArrayTrie.Trie :=
  DoubleArrayTrie.mkTrie 200
    (fun i => if (i =? 97)%Z then Z.lxor 97 100
              else if (i =? 6)%Z then Z.lxor 6 101 else 0)
    (fun i => if (i =? 97)%Z then 97 else if (i =? 6)%Z then 98 else 0)
    (fun i => (i =? 97)%Z || (i =? 6)%Z)
    (fun i => if (i =? 100)%Z then 7 else if (i =? 101)%Z then 9 else 0).

(** A schema with one table: field 1 is the boolean "done", field 2 the
    string "title" and field 3 the nested table "owner" at vtable offset 8.
    A value is a boolean or a string. *)
Inductive test_value : Type :=
  | BoolValue (b : bool)
  | StringValue (s : string).

Definition test_matching (_ : unit) (f : positive) (v : test_value) : bool :=
  match f, v with
  | 1%positive, BoolValue _ => true
  | 2%positive, StringValue _ => true
  | _, _ => false
  end.

Definition test_field (_ : unit) (field_name : string) : option positive :=
  if (field_name =? "done") then Some 1%positive
  else if (field_name =? "title") then Some 2%positive
  else if (field_name =? "owner") then Some 3%positive
  else None.

Definition test_table (f : positive) : option unit :=
  match f with 3%positive => Some tt | _ => None end.

Definition test_offset (f : positive) : Z := (2 * Z.pos f + 2)%Z.

Definition empty_record : ReflectiveFlatbuffer.t (Field := positive)
                            (Object := unit) (Variant := test_value) :=
  ReflectiveFlatbuffer.mk tt ∅ ∅.

End Fixtures.

(** Further configurations: annotations with different keys, a rule that
    asks for entity data, engines without an entity-data builder, with a
    locale requirement and with an open model locale, and a rule table. *)
Module MoreFixtures.
Import Fixtures.

Definition named_annotation (name text : string) (s : Q)
    : ActionsSuggestions.ActionSuggestionAnnotation (P := Q_) :=
  ActionsSuggestions.mkActionSuggestionAnnotation (P := Q_) 0 (0, 1)
    (ActionsSuggestions.mkClassificationResult (P := Q_) name s)
    name text.

Definition two_days :=
  [named_annotation "date" "tomorrow" (4 # 10);
   named_annotation "date" "today" (8 # 10)].

(** An action with the static entity data "when". *)
Definition payload_action
    : ActionsSuggestions.RuleActionSpec (P := Q_) :=
  ActionsSuggestions.mkRuleActionSpec (P := Q_)
    (ActionsSuggestions.mkActionSuggestionSpec (P := Q_)
       "create_event" None (Some "when") (9 # 10))
    None.

Definition bare_action
    : ActionsSuggestions.RuleActionSpec (P := Q_) :=
  ActionsSuggestions.mkRuleActionSpec (P := Q_)
    (plain_action "set_alarm" (1 # 2)) None.

Definition mixed_rule : ActionsSuggestions.Rule (P := Q_) :=
  ActionsSuggestions.mkRule (P := Q_) [payload_action; bare_action].

Definition payload_rule : ActionsSuggestions.CompiledRule (P := Q_) :=
  ActionsSuggestions.mkCompiledRule (P := Q_) mixed_rule time_pattern.

Definition no_builder_engine : ActionsSuggestions.Engine (P := Q_) :=
  ActionsSuggestions.mkEngine (P := Q_) (model_with open_preconditions None)
    [mkLocale "en" "" "" true false] [payload_rule] [] None None
    keep_all_ranker.

(** Every message has to be in a supported locale. *)
Definition strict_locale_preconditions
    : ActionsSuggestions.TriggeringPreconditions (P := Q_) :=
  ActionsSuggestions.mkTriggeringPreconditions (P := Q_)
    0%Q 1%Q false 0 (-1) 1%Q true true false.

Definition strict_locale_engine : ActionsSuggestions.Engine (P := Q_) :=
  engine_with (model_with strict_locale_preconditions None)
    [mkLocale "en" "" "" true false] [time_rule] None keep_all_ranker.

Definition treffen_um_5pm : ActionsSuggestions.Conversation (P := Q_) :=
  ActionsSuggestions.mkConversation (P := Q_)
    [ActionsSuggestions.mkConversationMessage (P := Q_) 1
       "Treffen um 5pm" 0 [] "de"].

Definition any_locale_engine : ActionsSuggestions.Engine (P := Q_) :=
  engine_with (model_with open_preconditions None)
    [mkLocale "*" "" "" true false] [] None keep_all_ranker.

(** A pattern builder that knows one pattern, and a model that declares
    the time rule both as a rule and as a low-confidence rule. *)
Definition known_patterns (pattern compressed_pattern : option string)
    : option (string -> RegexMatcher) :=
  match pattern with
  | Some _ => Some time_pattern
  | None => None
  end.

Definition time_entry : Initialization.RuleEntry (P := Q_) :=
  Initialization.mkRuleEntry (P := Q_)
    (ActionsSuggestions.rule time_rule) (Some "5pm") None.

Definition time_tables : Initialization.RuleTables (P := Q_) :=
  Initialization.mkRuleTables (P := Q_) (Some [time_entry]) (Some [time_entry]).

(** A model run that put out the sensitivity score [sensitivity] but an
    empty triggering-score tensor, and an engine whose executor gives it. *)
Definition no_trigger_interpreter (sensitivity : Q)
    : ActionsSuggestions.Interpreter (P := Q_) :=
  ActionsSuggestions.mkInterpreter (P := Q_)
    (fun i => if (i =? 3)%Z then tensor []
              else ActionsSuggestions.OutputView
                     (interpreter_with sensitivity) i)
    (ActionsSuggestions.Output (interpreter_with sensitivity)).

Definition no_trigger_engine (suppress : bool) (sensitivity : Q)
    : ActionsSuggestions.Engine (P := Q_) :=
  engine_with
    (model_with (preconditions_with 0 (-1) (1 # 2) suppress) date_spec)
    [mkLocale "en" "" "" true false] [time_rule]
    (Some (ActionsSuggestions.mkTfLiteModelExecutor (P := Q_) true true
             (fun _ => Some (no_trigger_interpreter sensitivity))))
    keep_all_ranker.

(** A rule with two matches and two actions: the first action declares
    the static payload "when=" and maps capturing group 0 to a field, the
    second declares neither. The builder of [event_engine] yields the root
    record "{"; the engine also holds the time rule, which declares no
    entity data. *)
Definition two_times_pattern (t : string) : RegexMatcher :=
  if mentions_5pm t
  then [mkFindResult true kNoError [Some "5pm"];
        mkFindResult true kNoError [Some "6pm"]]
  else [].

Definition event_action
    : ActionsSuggestions.RuleActionSpec (P := Q_) :=
  ActionsSuggestions.mkRuleActionSpec (P := Q_)
    (ActionsSuggestions.mkActionSuggestionSpec (P := Q_)
       "create_event" (Some "Add to calendar") (Some "when=") (9 # 10))
    (Some [ActionsSuggestions.mkCapturingGroup 0 ["time"]]).

Definition event_rule : ActionsSuggestions.CompiledRule (P := Q_) :=
  ActionsSuggestions.mkCompiledRule (P := Q_)
    (ActionsSuggestions.mkRule (P := Q_) [event_action; bare_action])
    two_times_pattern.

Definition event_engine : ActionsSuggestions.Engine (P := Q_) :=
  ActionsSuggestions.mkEngine (P := Q_) (model_with open_preconditions None)
    [mkLocale "en" "" "" true false] [time_rule; event_rule] [] None
    (Some (ActionsSuggestions.mkReflectiveFlatbufferBuilder (P := Q_)
             (Some "{")))
    keep_all_ranker.

End MoreFixtures.

(** ** Properties of the locale matcher *)

Module LocaleProps.
Import ActionsSuggestions LocaleSpec.

Section Props.
Context {P : Platform}.

Lemma language_matches_spec (m c : Locale) :
  language_matches m c = true
  <-> spec_field_matches false (Language m) (Language c).
Proof.
  unfold language_matches, spec_field_matches, kAnyMatch.
  rewrite !orb_true_iff, !String.eqb_eq. intuition congruence.
Qed.

Lemma script_matches_spec (m c : Locale) :
  script_matches m c = true
  <-> spec_field_matches true (Script m) (Script c).
Proof.
  unfold script_matches, spec_field_matches, kAnyMatch.
  rewrite !orb_true_iff, !String.eqb_eq. intuition congruence.
Qed.

Lemma region_matches_spec (m c : Locale) :
  region_matches m c = true
  <-> spec_field_matches true (Region m) (Region c).
Proof.
  unfold region_matches, spec_field_matches, kAnyMatch.
  rewrite !orb_true_iff, !String.eqb_eq. intuition congruence.
Qed.

Lemma single_model_locale (m c : Locale) :
  any_model_locale_matches [m] c = true
  <-> IsValid m = true /\ spec_locale_matches m c.
Proof.
  unfold spec_locale_matches.
  rewrite <- language_matches_spec, <- script_matches_spec,
    <- region_matches_spec.
  simpl. destruct (IsValid m); simpl.
  - destruct (language_matches m c), (script_matches m c),
      (region_matches m c); simpl; intuition congruence.
  - intuition congruence.
Qed.

Lemma any_model_locale_matches_cons (m : Locale) (ls : list Locale)
    (c : Locale) :
  any_model_locale_matches (m :: ls) c
  = any_model_locale_matches [m] c || any_model_locale_matches ls c.
Proof.
  simpl. destruct (IsValid m); simpl; [|reflexivity].
  destruct (language_matches m c && script_matches m c && region_matches m c);
    reflexivity.
Qed.

Lemma any_model_locale_matches_exists (ls : list Locale) (c : Locale) :
  any_model_locale_matches ls c = true
  <-> exists m, In m ls /\ any_model_locale_matches [m] c = true.
Proof.
  induction ls as [|m ls IH].
  - simpl. split; [discriminate | intros (m & [] & _)].
  - rewrite any_model_locale_matches_cons, orb_true_iff, IH. split.
    + intros [Hm | (m' & Hin & Hm')].
      * exists m. simpl. auto.
      * exists m'. simpl. auto.
    + intros (m' & [<- | Hin] & Hm'); [left; exact Hm'|].
      right. exists m'. auto.
Qed.

(** C4. A valid, known candidate matches a declared model locale exactly
    when language, script and region each satisfy: the model field is
    empty, or is the wildcard, or equals the candidate field, or (script
    and region only) the candidate field is empty; an invalid model locale
    matches nothing. An empty candidate language never matches a model
    language that is neither empty nor the wildcard. The candidate is
    supported iff it matches at least one declared model locale. *)
Theorem IsLocaleSupportedByModel_spec (E : Engine) (locale : Locale) :
  IsValid locale = true ->
  IsUnknown locale = false ->
  (forall m, any_model_locale_matches [m] locale = true
             <-> IsValid m = true /\ spec_locale_matches m locale)
  /\ (forall m, Language locale = "" -> Language m <> "" ->
                Language m <> "*" ->
                any_model_locale_matches [m] locale = false)
  /\ (IsLocaleSupportedByModel E locale = true
      <-> exists m, In m (locales_ E) /\ IsValid m = true
                    /\ spec_locale_matches m locale).
Proof.
  intros Hvalid Hknown. split; [|split].
  - intros m. apply single_model_locale.
  - intros m Hempty Hne Hnw.
    destruct (any_model_locale_matches [m] locale) eqn:Hm; [|reflexivity].
    apply single_model_locale in Hm as [_ [Hl _]].
    unfold spec_field_matches in Hl. rewrite Hempty in Hl.
    destruct Hl as [Hl | [Hl | [Hl | [Hl _]]]]; congruence.
  - unfold IsLocaleSupportedByModel. rewrite Hvalid, Hknown. simpl.
    rewrite any_model_locale_matches_exists. split.
    + intros (m & Hin & Hm). apply single_model_locale in Hm. eauto.
    + intros (m & Hin & Hm). exists m. split; [exact Hin|].
      apply single_model_locale. exact Hm.
Qed.

(** C9, amended. Replacing a component of the model-declared locale by the
    wildcard or the empty string, or the script or region of the candidate
    by the empty string, keeps every matching pair matching. *)
Theorem relaxation_widens (m m' c c' : Locale) :
  relaxes_model m m' ->
  relaxes_candidate c c' ->
  any_model_locale_matches [m] c = true ->
  any_model_locale_matches [m'] c' = true.
Proof.
  intros (Hv & Hl & Hs & Hr) (Hcl & Hcs & Hcr) Hm.
  apply single_model_locale in Hm as (Hvalid & Ml & Ms & Mr).
  apply single_model_locale. split; [congruence|].
  unfold relaxed_model_field, relaxed_candidate_field in *.
  unfold spec_locale_matches, spec_field_matches in *.
  rewrite Hcl. repeat split.
  - destruct Hl as [-> | [-> | ->]]; intuition congruence.
  - destruct Hs as [-> | [-> | ->]]; destruct Hcs as [-> | ->];
      intuition congruence.
  - destruct Hr as [-> | [-> | ->]]; destruct Hcr as [-> | ->];
      intuition congruence.
Qed.

End Props.

Lemma IsLocaleSupportedByModel_spec_witness :
  IsLocaleSupportedByModel Fixtures.en_engine
    (mkLocale "en" "Latn" "GB" true false) = true
  <-> exists m, In m (locales_ Fixtures.en_engine) /\ IsValid m = true
                /\ spec_locale_matches m (mkLocale "en" "Latn" "GB" true false).
Proof.
  apply (IsLocaleSupportedByModel_spec Fixtures.en_engine
           (mkLocale "en" "Latn" "GB" true false));
    reflexivity.
Defined.

(** C9, as stated, fails: putting the wildcard or the empty string in the
    candidate's language turns a supported candidate into an unsupported
    one, and so does the wildcard in the candidate's script or region. *)
Lemma candidate_wildcard_narrows :
  let m := mkLocale "en" "Latn" "US" true false in
  any_model_locale_matches [m] (mkLocale "en" "Latn" "US" true false) = true
  /\ any_model_locale_matches [m] (mkLocale "*" "Latn" "US" true false) = false
  /\ any_model_locale_matches [m] (mkLocale "" "Latn" "US" true false) = false
  /\ any_model_locale_matches [m] (mkLocale "en" "*" "US" true false) = false
  /\ any_model_locale_matches [m] (mkLocale "en" "Latn" "*" true false) = false
  /\ IsLocaleSupportedByModel Fixtures.en_engine
       (mkLocale "en" "" "" true false) = true
  /\ IsLocaleSupportedByModel Fixtures.en_engine
       (mkLocale "*" "" "" true false) = false.
Proof. repeat split; reflexivity. Qed.

Lemma relaxation_widens_witness :
  any_model_locale_matches [mkLocale "en" "*" "" true false]
    (mkLocale "en" "" "US" true false) = true.
Proof.
  apply (relaxation_widens (mkLocale "en" "Latn" "US" true false)
           (mkLocale "en" "*" "" true false)
           (mkLocale "en" "Latn" "US" true false)
           (mkLocale "en" "" "US" true false)).
  - unfold relaxes_model, relaxed_model_field. simpl. repeat split; auto.
  - unfold relaxes_candidate, relaxed_candidate_field. simpl.
    repeat split; auto.
  - reflexivity.
Defined.

End LocaleProps.

(** ** Properties of annotation deduplication *)

Module DeduplicationProps.
Import ActionsSuggestions DeduplicationSpec.

Lemma string_compare_refl (s : string) : String.compare s s = Eq.
Proof.
  pose proof (String.compare_antisym s s) as H.
  destruct (String.compare s s); simpl in H; congruence.
Qed.

Lemma key_compare_eq (a b : DedupKey) : key_compare a b = Eq <-> a = b.
Proof.
  destruct a as [a1 a2], b as [b1 b2]. unfold key_compare. simpl. split.
  - destruct (String.compare a1 b1) eqn:H1; try discriminate.
    intros H2. apply String.compare_eq_iff in H1, H2. congruence.
  - intros [= -> ->]. rewrite !string_compare_refl. reflexivity.
Qed.

Lemma key_compare_refl (a : DedupKey) : key_compare a a = Eq.
Proof. apply key_compare_eq. reflexivity. Qed.

Lemma key_compare_neq (a b : DedupKey) : a <> b -> key_compare a b <> Eq.
Proof. intros Hne Heq. apply Hne, key_compare_eq, Heq. Qed.

Lemma map_find_cons (k k' : DedupKey) (v : nat) (m : list (DedupKey * nat)) :
  map_find k ((k', v) :: m) = if decide (k = k') then Some v else map_find k m.
Proof.
  simpl. destruct (decide (k = k')) as [->|Hne].
  - rewrite key_compare_refl. reflexivity.
  - apply key_compare_neq in Hne. destruct (key_compare k k'); congruence.
Qed.

Lemma map_find_insert (k k' : DedupKey) (v : nat) (m : list (DedupKey * nat)) :
  map_find k m = None ->
  map_find k' (map_insert k v m)
  = if decide (k' = k) then Some v else map_find k' m.
Proof.
  induction m as [|[k0 v0] m IH]; intros Hnone.
  - simpl map_insert. rewrite map_find_cons. reflexivity.
  - rewrite map_find_cons in Hnone.
    destruct (decide (k = k0)) as [|Hne]; [discriminate|].
    simpl map_insert. destruct (key_compare k k0).
    + rewrite !map_find_cons, (IH Hnone).
      repeat case_decide; congruence.
    + rewrite !map_find_cons. reflexivity.
    + rewrite !map_find_cons, (IH Hnone).
      repeat case_decide; congruence.
Qed.

Lemma map_find_assign (k k' : DedupKey) (v : nat) (m : list (DedupKey * nat)) :
  map_find k' (map_assign k v m)
  = if decide (k' = k) then (fun _ => v) <$> map_find k m else map_find k' m.
Proof.
  induction m as [|[k0 v0] m IH].
  - simpl. case_decide; reflexivity.
  - simpl map_assign. destruct (key_compare k k0) eqn:Hc.
    + apply key_compare_eq in Hc as <-.
      rewrite !map_find_cons. repeat case_decide; simpl; congruence.
    + assert (k <> k0) by (intros ->; rewrite key_compare_refl in Hc; discriminate).
      rewrite !map_find_cons, IH. repeat case_decide; simpl; congruence.
    + assert (k <> k0) by (intros ->; rewrite key_compare_refl in Hc; discriminate).
      rewrite !map_find_cons, IH. repeat case_decide; simpl; congruence.
Qed.

Lemma map_find_In (k : DedupKey) (v : nat) (m : list (DedupKey * nat)) :
  map_find k m = Some v -> In (k, v) m.
Proof.
  induction m as [|[k0 v0] m IH]; [discriminate|].
  rewrite map_find_cons. case_decide.
  - intros [= ->]. subst. left. reflexivity.
  - intros Hf. right. auto.
Qed.

Lemma map_find_None (k : DedupKey) (m : list (DedupKey * nat)) :
  map_find k m = None -> ~ In k (map fst m).
Proof.
  induction m as [|[k0 v0] m IH]; [intros _ []|].
  rewrite map_find_cons. case_decide; [discriminate|].
  intros Hf [Heq | Hin]; simpl in *; [congruence | exact (IH Hf Hin)].
Qed.

Lemma In_map_find (k : DedupKey) (v : nat) (m : list (DedupKey * nat)) :
  NoDup (map fst m) -> In (k, v) m -> map_find k m = Some v.
Proof.
  induction m as [|[k0 v0] m IH]; [intros _ []|].
  simpl map. intros Hnd [Heq | Hin]; rewrite map_find_cons.
  - injection Heq as -> ->. case_decide; congruence.
  - apply NoDup_cons in Hnd as [Hk0 Hnd]. rewrite list_elem_of_In in Hk0.
    case_decide.
    + subst. exfalso. apply Hk0. apply (in_map fst) in Hin. exact Hin.
    + auto.
Qed.

Lemma map_insert_keys (k : DedupKey) (v : nat) (m : list (DedupKey * nat)) :
  forall x, In x (map fst (map_insert k v m)) <-> x = k \/ In x (map fst m).
Proof.
  induction m as [|[k0 v0] m IH]; intros x; simpl.
  - intuition.
  - destruct (key_compare k k0); simpl; rewrite ?IH; intuition.
Qed.

Lemma map_insert_NoDup (k : DedupKey) (v : nat) (m : list (DedupKey * nat)) :
  map_find k m = None -> NoDup (map fst m) -> NoDup (map fst (map_insert k v m)).
Proof.
  induction m as [|[k0 v0] m IH]; intros Hnone Hnd.
  - simpl. constructor; [rewrite list_elem_of_In; intros []|constructor].
  - rewrite map_find_cons in Hnone.
    destruct (decide (k = k0)) as [|Hne]; [discriminate|].
    simpl in Hnd. apply NoDup_cons in Hnd as [Hk0 Hnd].
    rewrite list_elem_of_In in Hk0.
    assert (NoDup (map fst ((k, v) :: (k0, v0) :: m))) as Hfront.
    { simpl. constructor.
      - rewrite list_elem_of_In. intros [Heq | Hin]; [congruence|].
        exact (map_find_None _ _ Hnone Hin).
      - constructor; [rewrite list_elem_of_In|]; assumption. }
    assert (NoDup (map fst ((k0, v0) :: map_insert k v m))) as Hlater.
    { simpl. constructor.
      - rewrite list_elem_of_In, map_insert_keys. intros [Heq | Hin]; auto.
      - auto. }
    simpl map_insert. destruct (key_compare k k0); assumption.
Qed.

Lemma map_assign_keys (k : DedupKey) (v : nat) (m : list (DedupKey * nat)) :
  map fst (map_assign k v m) = map fst m.
Proof.
  induction m as [|[k0 v0] m IH]; [reflexivity|].
  simpl. destruct (key_compare k k0); simpl; congruence.
Qed.

Section Dedup.
Context {P : Platform}.

Lemma lookup_In (anns : list ActionSuggestionAnnotation) (j : nat)
    (a : ActionSuggestionAnnotation) :
  anns !! j = Some a -> In a anns.
Proof. intros H. apply list_elem_of_In, list_elem_of_lookup. eauto. Qed.

Lemma dedup_inv_init (anns : list ActionSuggestionAnnotation) :
  dedup_inv anns 0 [].
Proof.
  split.
  - constructor.
  - intros k v. discriminate.
  - intros j aj Hj. lia.
Qed.

(** One iteration of the loop keeps the invariant. *)
Lemma dedup_inv_step (anns : list ActionSuggestionAnnotation) (i : nat)
    (a : ActionSuggestionAnnotation) (m : list (DedupKey * nat)) :
  scores_ordered anns ->
  anns !! i = Some a ->
  dedup_inv anns i m ->
  dedup_inv anns (S i)
    (match map_find (dedup_key a) m with
     | Some j =>
         match anns !! j with
         | Some kept =>
             if flt (score_of kept) (score_of a)
             then map_assign (dedup_key a) i m else m
         | None => m
         end
     | None => map_insert (dedup_key a) i m
     end).
Proof.
  intros (Hirr & Htrans & Hweak) Hi [Hnd Hentry Hseen].
  pose proof (lookup_In _ _ _ Hi) as Hina.
  destruct (map_find (dedup_key a) m) as [v|] eqn:Hfind.
  - destruct (Hentry _ _ Hfind) as (Hv & kept & Hkept & Hkey & Hbest).
    rewrite Hkept. pose proof (lookup_In _ _ _ Hkept) as Hink.
    destruct (flt (score_of kept) (score_of a)) eqn:Hlt.
    + (* the new annotation replaces the representative *)
      split.
      * rewrite map_assign_keys. exact Hnd.
      * intros k v'. rewrite map_find_assign, Hfind. case_decide as Hk.
        -- simpl. intros [= <-]. subst k. split; [lia|].
           exists a. split; [exact Hi|]. split; [reflexivity|].
           intros j aj Hj Haj Hkj.
           destruct (decide (j = i)) as [->|Hne].
           ++ rewrite Hi in Haj. injection Haj as <-.
              split; [apply Hirr; exact Hina | lia].
           ++ assert (j < i)%nat as Hji by lia.
              destruct (Hbest j aj Hji Haj Hkj) as [Hnot _].
              pose proof (lookup_In _ _ _ Haj) as Hinj.
              split.
              ** destruct (flt (score_of a) (score_of aj)) eqn:Haaj;
                   [|reflexivity].
                 rewrite (Htrans kept a aj Hink Hina Hinj Hlt Haaj) in Hnot.
                 discriminate.
              ** intros _. exact (Hweak kept aj a Hink Hinj Hina Hnot Hlt).
        -- intros Hf. destruct (Hentry _ _ Hf) as (Hv' & a' & Ha' & Hk' & Hb').
           split; [lia|]. exists a'. split; [exact Ha'|]. split; [exact Hk'|].
           intros j aj Hj Haj Hkj.
           destruct (decide (j = i)) as [->|Hne].
           ++ rewrite Hi in Haj. injection Haj as <-. congruence.
           ++ apply (Hb' j aj); [lia | assumption | assumption].
      * intros j aj Hj Haj. rewrite map_find_assign, Hfind. case_decide.
        -- simpl. discriminate.
        -- destruct (decide (j = i)) as [->|Hne].
           ++ rewrite Hi in Haj. injection Haj as <-. congruence.
           ++ apply (Hseen j); [lia | assumption].
    + (* the representative stays *)
      split.
      * exact Hnd.
      * intros k v' Hf. destruct (Hentry _ _ Hf) as (Hv' & a' & Ha' & Hk' & Hb').
        split; [lia|]. exists a'. split; [exact Ha'|]. split; [exact Hk'|].
        intros j aj Hj Haj Hkj.
        destruct (decide (j = i)) as [->|Hne].
        -- rewrite Hi in Haj. injection Haj as <-.
           assert (v' = v) as -> by congruence.
           assert (a' = kept) as -> by congruence.
           split; [exact Hlt | lia].
        -- apply (Hb' j aj); [lia | assumption | assumption].
      * intros j aj Hj Haj. destruct (decide (j = i)) as [->|Hne].
        -- rewrite Hi in Haj. injection Haj as <-. congruence.
        -- apply (Hseen j); [lia | assumption].
  - (* a new key *)
    split.
    + apply map_insert_NoDup; assumption.
    + intros k v'. rewrite (map_find_insert _ _ _ _ Hfind). case_decide as Hk.
      * intros [= <-]. subst k. split; [lia|].
        exists a. split; [exact Hi|]. split; [reflexivity|].
        intros j aj Hj Haj Hkj.
        destruct (decide (j = i)) as [->|Hne].
        -- rewrite Hi in Haj. injection Haj as <-.
           split; [apply Hirr; exact Hina | lia].
        -- exfalso. apply (Hseen j aj); [lia | assumption | congruence].
      * intros Hf. destruct (Hentry _ _ Hf) as (Hv' & a' & Ha' & Hk' & Hb').
        split; [lia|]. exists a'. split; [exact Ha'|]. split; [exact Hk'|].
        intros j aj Hj Haj Hkj.
        destruct (decide (j = i)) as [->|Hne].
        -- rewrite Hi in Haj. injection Haj as <-. congruence.
        -- apply (Hb' j aj); [lia | assumption | assumption].
    + intros j aj Hj Haj. rewrite (map_find_insert _ _ _ _ Hfind).
      case_decide; [discriminate|].
      destruct (decide (j = i)) as [->|Hne].
      * rewrite Hi in Haj. injection Haj as <-. congruence.
      * apply (Hseen j); [lia | assumption].
Qed.

Lemma dedup_loop_inv (anns : list ActionSuggestionAnnotation) :
  scores_ordered anns ->
  forall rest i m,
    drop i anns = rest ->
    dedup_inv anns i m ->
    dedup_inv anns (i + length rest) (dedup_loop anns i rest m).
Proof.
  intros Hord rest. induction rest as [|a rest IH]; intros i m Hdrop Hinv.
  - simpl. rewrite Nat.add_0_r. exact Hinv.
  - assert (anns !! i = Some a) as Hi.
    { rewrite <- (Nat.add_0_r i), <- lookup_drop, Hdrop. reflexivity. }
    assert (drop (S i) anns = rest) as Hdrop'.
    { replace (S i) with (i + 1)%nat by lia.
      rewrite <- drop_drop, Hdrop. reflexivity. }
    pose proof (dedup_inv_step anns i a m Hord Hi Hinv) as Hstep.
    simpl length. replace (i + S (length rest))%nat with (S i + length rest)%nat by lia.
    simpl dedup_loop. unfold score_of in Hstep.
    destruct (map_find (dedup_key a) m) as [v|].
    + destruct (anns !! v) as [kept|].
      * destruct (flt (cr_score (entity kept)) (cr_score (entity a)));
          apply IH; assumption.
      * apply IH; assumption.
    + apply IH; assumption.
Qed.

Lemma dedup_final_inv (anns : list ActionSuggestionAnnotation) :
  scores_ordered anns ->
  dedup_inv anns (length anns) (dedup_loop anns 0 anns []).
Proof.
  intros Hord.
  apply (dedup_loop_inv anns Hord anns 0 [] (drop_0 anns) (dedup_inv_init anns)).
Qed.

(** A candidate carries the collection of the top classification of its
    annotation as its name and the annotated substring as its text. *)
Lemma action_annotations_of_key (message_text : string) (message_index : Z)
    (spans : list AnnotatedSpan) (a : ActionSuggestionAnnotation) :
  In a (action_annotations_of message_text message_index spans) ->
  name a = collection (entity a)
  /\ asa_text a
     = UTF8Substring message_text (fst (asa_span a)) (snd (asa_span a))
  /\ exists sp lower, In sp spans /\ asa_span a = span sp
                      /\ classification sp = entity a :: lower.
Proof.
  induction spans as [|sp spans IH]; simpl; [intros []|].
  destruct (classification sp) as [|top lower] eqn:Hc.
  - intros Hin. destruct (IH Hin) as (Hn & Ht & sp' & lower' & Hsp & Hrest).
    split; [exact Hn|]. split; [exact Ht|]. exists sp', lower'. auto.
  - intros [<- | Hin].
    + simpl. split; [reflexivity|]. split; [reflexivity|].
      exists sp, lower. auto.
    + destruct (IH Hin) as (Hn & Ht & sp' & lower' & Hsp & Hrest).
      split; [exact Hn|]. split; [exact Ht|]. exists sp', lower'. auto.
Qed.

(** C5. Candidates are keyed by (collection name, matched substring). Each
    key group has exactly one selected representative; no member of the
    group has a strictly higher score than the representative, and every
    member seen before the representative has a strictly lower score, so
    among equal scores the earliest annotation is the one kept. *)
Theorem DeduplicateAnnotations_spec
    (anns : list ActionSuggestionAnnotation) :
  scores_ordered anns ->
  NoDup (DeduplicateAnnotations anns)
  /\ (forall r, In r (DeduplicateAnnotations anns) -> (r < length anns)%nat)
  /\ (forall j aj, anns !! j = Some aj ->
        exists r ar,
          In r (DeduplicateAnnotations anns)
          /\ anns !! r = Some ar
          /\ (name ar, asa_text ar) = (name aj, asa_text aj)
          /\ (forall r' ar', In r' (DeduplicateAnnotations anns) ->
                anns !! r' = Some ar' ->
                (name ar', asa_text ar') = (name aj, asa_text aj) -> r' = r)
          /\ flt (cr_score (entity ar)) (cr_score (entity aj)) = false
          /\ ((j < r)%nat ->
              flt (cr_score (entity aj)) (cr_score (entity ar)) = true))
  /\ (forall message_text message_index spans a,
        In a (action_annotations_of message_text message_index spans) ->
        (name a, asa_text a)
        = (collection (entity a),
           UTF8Substring message_text (fst (asa_span a)) (snd (asa_span a)))).
Proof.
  intros Hord.
  cut (NoDup (DeduplicateAnnotations anns)
       /\ (forall r, In r (DeduplicateAnnotations anns) ->
             (r < length anns)%nat)
       /\ (forall j aj, anns !! j = Some aj ->
             exists r ar,
               In r (DeduplicateAnnotations anns)
               /\ anns !! r = Some ar
               /\ (name ar, asa_text ar) = (name aj, asa_text aj)
               /\ (forall r' ar', In r' (DeduplicateAnnotations anns) ->
                     anns !! r' = Some ar' ->
                     (name ar', asa_text ar') = (name aj, asa_text aj) ->
                     r' = r)
               /\ flt (cr_score (entity ar)) (cr_score (entity aj)) = false
               /\ ((j < r)%nat ->
                   flt (cr_score (entity aj)) (cr_score (entity ar)) = true))).
  { intros (H1 & H2 & H3). split; [exact H1|]. split; [exact H2|].
    split; [exact H3|]. intros message_text message_index spans a Hin.
    destruct (action_annotations_of_key _ _ _ _ Hin) as (-> & -> & _).
    reflexivity. }
  unfold DeduplicateAnnotations.
  destruct (dedup_final_inv anns Hord) as [Hnd Hentry Hseen].
  set (m := dedup_loop anns 0 anns []) in *.
  assert (forall r, In r (map snd m) ->
            exists k, map_find k m = Some r) as Hval.
  { intros r Hr. apply in_map_iff in Hr as ([k v] & <- & Hin).
    exists k. apply In_map_find; assumption. }
  split; [|split].
  - (* distinct keys give distinct representatives *)
    clear Hseen Hval. revert Hnd Hentry. generalize m. clear m.
    induction m as [|[k v] m IH]; intros Hnd Hentry; [constructor|].
    simpl in Hnd. apply NoDup_cons in Hnd as [Hk Hnd]. simpl.
    rewrite list_elem_of_In in Hk.
    assert (forall k' v', map_find k' m = Some v' ->
              map_find k' ((k, v) :: m) = Some v') as Hlift.
    { intros k' v' Hf. rewrite map_find_cons. case_decide; [|exact Hf].
      subst. exfalso. apply Hk. apply map_find_In in Hf.
      apply (in_map fst) in Hf. exact Hf. }
    constructor.
    + rewrite list_elem_of_In. intros Hv.
      apply in_map_iff in Hv as ([k' v'] & Heq & Hin). simpl in Heq. subst v'.
      pose proof (In_map_find _ _ _ Hnd Hin) as Hf.
      destruct (Hentry k' v (Hlift _ _ Hf)) as (_ & a1 & Ha1 & Hk1 & _).
      assert (map_find k ((k, v) :: m) = Some v) as Hfk.
      { rewrite map_find_cons. case_decide; congruence. }
      destruct (Hentry k v Hfk) as (_ & a2 & Ha2 & Hk2 & _).
      apply Hk. assert (k = k') as -> by congruence.
      apply (in_map fst) in Hin. exact Hin.
    + apply IH; [exact Hnd|]. intros k' v' Hf. apply Hentry, Hlift, Hf.
  - intros r Hr. destruct (Hval r Hr) as (k & Hf).
    destruct (Hentry k r Hf) as (Hlt & _). exact Hlt.
  - intros j aj Haj.
    assert (j < length anns)%nat as Hj by (eapply lookup_lt_Some; eauto).
    destruct (map_find (dedup_key aj) m) as [r|] eqn:Hf;
      [|exfalso; exact (Hseen j aj Hj Haj Hf)].
    destruct (Hentry _ _ Hf) as (Hr & ar & Har & Hkr & Hbest).
    exists r, ar. split; [|split; [exact Har|split; [exact Hkr|split; [|]]]].
    + apply in_map_iff. exists (dedup_key aj, r). split; [reflexivity|].
      apply map_find_In. exact Hf.
    + intros r' ar' Hr' Har' Hk'. destruct (Hval r' Hr') as (k' & Hf').
      destruct (Hentry _ _ Hf') as (_ & a'' & Ha'' & Hk'' & _).
      assert (k' = dedup_key aj) as -> by (unfold dedup_key in *; congruence).
      congruence.
    + exact (Hbest j aj Hj Haj eq_refl).
Qed.

End Dedup.

Lemma Qltb_lt (a b : Q) : Fixtures.Qltb a b = true <-> (a < b)%Q.
Proof.
  unfold Fixtures.Qltb. rewrite negb_true_iff. split.
  - intros H. apply Qnot_le_lt. intros Hle.
    apply Qle_bool_iff in Hle. congruence.
  - intros H. destruct (Qle_bool b a) eqn:Hle; [|reflexivity].
    apply Qle_bool_iff in Hle. exfalso. exact (Qlt_not_le _ _ H Hle).
Qed.

Lemma Qltb_ge (a b : Q) : Fixtures.Qltb a b = false <-> (b <= a)%Q.
Proof.
  unfold Fixtures.Qltb. rewrite negb_false_iff. apply Qle_bool_iff.
Qed.

Lemma scores_ordered_rational
    (anns : list (ActionSuggestionAnnotation (P := Fixtures.rational_platform))) :
  scores_ordered anns.
Proof.
  unfold scores_ordered. simpl. repeat split.
  - intros a _. apply Qltb_ge. apply Qle_refl.
  - intros a b c _ _ _. rewrite !Qltb_lt. apply Qlt_trans.
  - intros a b c _ _ _. rewrite Qltb_ge, !Qltb_lt. apply Qle_lt_trans.
Qed.

Lemma DeduplicateAnnotations_spec_witness :
  scores_ordered Fixtures.two_dates
  /\ NoDup (DeduplicateAnnotations Fixtures.two_dates)
  /\ (forall r, In r (DeduplicateAnnotations Fixtures.two_dates) ->
        (r < length Fixtures.two_dates)%nat).
Proof.
  split; [apply scores_ordered_rational|].
  destruct (DeduplicateAnnotations_spec Fixtures.two_dates
              (scores_ordered_rational _)) as (Hnd & Hlt & _).
  split; assumption.
Defined.

(** Scenario C: of the scores 0.4 and 0.8 the second annotation is the one
    selected; of two equal scores the first one is. *)
Example DeduplicateAnnotations_scenario_C :
  DeduplicateAnnotations Fixtures.two_dates = [1%nat]
  /\ DeduplicateAnnotations (rev Fixtures.two_dates) = [0%nat]
  /\ DeduplicateAnnotations Fixtures.tied_dates = [0%nat].
Proof. repeat split; vm_compute; reflexivity. Qed.

End DeduplicationProps.

(** ** Properties of the rule pass *)

Module RulePassProps.
Import ActionsSuggestions RulePassSpec RulePassClaim.

Section RulePass.
Context {P : Platform}.

Lemma set_actions_actions (s : ActionsSuggestionsResponse) :
  set_actions s (actions s) = s.
Proof. destruct s. reflexivity. Qed.

Lemma set_actions_twice (s : ActionsSuggestionsResponse)
    (l l' : list ActionSuggestion) :
  set_actions (set_actions s l) l' = set_actions s l'.
Proof. reflexivity. Qed.

Lemma push_back_set_actions (s : ActionsSuggestionsResponse)
    (a : ActionSuggestion) (l : list ActionSuggestion) :
  set_actions (push_back s a) (actions (push_back s a) ++ l)
  = set_actions s (actions s ++ a :: l).
Proof.
  unfold push_back. rewrite set_actions_twice. simpl.
  rewrite <- app_assoc. reflexivity.
Qed.

Lemma rule_suggestion_for (E : Engine) (h : bool) (m : FindResult)
    (rule_action : RuleActionSpec) (payload : string) :
  entity_payload E h m rule_action = Some payload ->
  rule_suggestion (action rule_action) payload = suggestion_for E h m rule_action.
Proof.
  intros Hp. unfold rule_suggestion, suggestion_for. rewrite Hp.
  destruct (spec_response_text (action rule_action)); reflexivity.
Qed.

(** The actions loop: what it returns, from the payloads. *)
Lemma rule_actions_loop_spec (E : Engine) (h : bool) (m : FindResult)
    (ras : list RuleActionSpec) :
  forall s,
    match rule_actions_loop E h m ras s with
    | Some (true, s') =>
        Forall (fun ra => is_Some (entity_payload E h m ra)) ras
        /\ s' = set_actions s (actions s ++ map (suggestion_for E h m) ras)
    | Some (false, _) =>
        exists ra gs entity_data,
          In ra ras /\ entity_payload E h m ra = None
          /\ capturing_group ra = Some gs
          /\ set_capturing_groups gs m entity_data = None
    | None =>
        exists ra, In ra ras /\ entity_payload E h m ra = None
    end.
Proof.
  induction ras as [|ra ras IH]; intros s.
  - simpl. split; [constructor|]. rewrite app_nil_r, set_actions_actions.
    reflexivity.
  - simpl rule_actions_loop. destruct h.
    + destruct (entity_data_builder_ E) as [builder|] eqn:Hb.
      2:{ exists ra. split; [left; reflexivity|].
          unfold entity_payload. rewrite Hb. reflexivity. }
      destruct (NewRoot builder) as [root|] eqn:Hr.
      2:{ exists ra. split; [left; reflexivity|].
          unfold entity_payload. rewrite Hb. simpl. rewrite Hr. reflexivity. }
      set (merged := match spec_serialized_entity_data (action ra) with
                     | Some d => MergeFromSerializedFlatbuffer d root
                     | None => root
                     end).
      destruct (match capturing_group ra with
                | Some gs => set_capturing_groups gs m merged
                | None => Some merged
                end) as [final|] eqn:Hc.
      * assert (entity_payload E true m ra = Some (Serialize final)) as Hp.
        { unfold entity_payload. rewrite Hb. simpl. rewrite Hr. simpl.
          fold merged. rewrite Hc. reflexivity. }
        specialize (IH (push_back s (rule_suggestion (action ra) (Serialize final)))).
        destruct (rule_actions_loop E true m ras _) as [[[|] s']|].
        -- destruct IH as [Hall ->]. split.
           ++ constructor; [rewrite Hp; eauto | exact Hall].
           ++ rewrite push_back_set_actions, (rule_suggestion_for _ _ _ _ _ Hp).
              reflexivity.
        -- destruct IH as (ra' & gs & ed & Hin & Hn & Hg & Hs).
           exists ra', gs, ed. simpl. auto.
        -- destruct IH as (ra' & Hin & Hn). exists ra'. simpl. auto.
      * destruct (capturing_group ra) as [gs|] eqn:Hg; [|discriminate].
        exists ra, gs, merged. split; [left; reflexivity|].
        split; [|auto]. unfold entity_payload. rewrite Hb. simpl. rewrite Hr.
        simpl. rewrite Hg. fold merged. rewrite Hc. reflexivity.
    + assert (entity_payload E false m ra = Some "") as Hp by reflexivity.
      specialize (IH (push_back s (rule_suggestion (action ra) ""))).
      destruct (rule_actions_loop E false m ras _) as [[[|] s']|].
      * destruct IH as [Hall ->]. split.
        -- constructor; [rewrite Hp; eauto | exact Hall].
        -- rewrite push_back_set_actions, (rule_suggestion_for _ _ _ _ _ Hp).
           reflexivity.
      * destruct IH as (ra' & gs & ed & Hin & Hn & _). discriminate.
      * destruct IH as (ra' & Hin & Hn). exists ra'. simpl. auto.
Qed.

(** The loop over the matches of one rule. *)
Lemma find_loop_spec (E : Engine) (h : bool) (ras : list RuleActionSpec)
    (matcher : RegexMatcher) :
  forall s,
    match find_loop E h ras matcher s with
    | Some (true, s') =>
        (forall m ra, In m (matches_of matcher) -> In ra ras ->
                      is_Some (entity_payload E h m ra))
        /\ s' = set_actions s
                  (actions s
                   ++ flat_map (fun m => map (suggestion_for E h m) ras)
                        (matches_of matcher))
    | Some (false, _) =>
        exists m ra gs entity_data,
          In m (matches_of matcher) /\ In ra ras
          /\ entity_payload E h m ra = None
          /\ capturing_group ra = Some gs
          /\ set_capturing_groups gs m entity_data = None
    | None =>
        exists m ra, In m (matches_of matcher) /\ In ra ras
                     /\ entity_payload E h m ra = None
    end.
Proof.
  induction matcher as [|m later IH]; intros s.
  - simpl. split; [intros ? ? []|].
    rewrite app_nil_r, set_actions_actions. reflexivity.
  - simpl. destruct (found m && (find_status m =? kNoError)%Z).
    + pose proof (rule_actions_loop_spec E h m ras s) as Hm.
      destruct (rule_actions_loop E h m ras s) as [[[|] s1]|].
      * destruct Hm as [Hall ->]. specialize (IH (set_actions s
          (actions s ++ map (suggestion_for E h m) ras))).
        destruct (find_loop E h ras later _) as [[[|] s2]|].
        -- destruct IH as [Hrest ->]. split.
           ++ intros m' ra [<- | Hin] Hra.
              ** rewrite Forall_forall in Hall. apply Hall.
                 apply list_elem_of_In. exact Hra.
              ** apply Hrest; assumption.
           ++ rewrite set_actions_twice. simpl. rewrite <- app_assoc.
              reflexivity.
        -- destruct IH as (m' & ra & gs & ed & Hin & Hrest).
           exists m', ra, gs, ed. split; [right; exact Hin | exact Hrest].
        -- destruct IH as (m' & ra & Hin & Hrest).
           exists m', ra. split; [right; exact Hin | exact Hrest].
      * destruct Hm as (ra & gs & ed & Hin & Hrest).
        exists m, ra, gs, ed. split; [left; reflexivity|]. auto.
      * destruct Hm as (ra & Hin & Hn).
        exists m, ra. split; [left; reflexivity|]. auto.
    + simpl. split; [intros ? ? []|].
      rewrite app_nil_r, set_actions_actions. reflexivity.
Qed.

(** The loop over the rules. *)
Lemma rules_loop_spec (E : Engine) (message : string) (rs : list CompiledRule) :
  forall s,
    match rules_loop E message rs s with
    | Some (true, s') =>
        (forall r m ra, In r rs -> In m (matches_of (pattern r message)) ->
                        In ra (rule_actions (rule r)) ->
                        is_Some (entity_payload E (HasEntityData (rule r)) m ra))
        /\ s' = set_actions s
                  (actions s ++ flat_map (suggestions_of_rule E message) rs)
    | Some (false, _) =>
        exists r m ra gs entity_data,
          In r rs /\ In m (matches_of (pattern r message))
          /\ In ra (rule_actions (rule r))
          /\ entity_payload E (HasEntityData (rule r)) m ra = None
          /\ capturing_group ra = Some gs
          /\ set_capturing_groups gs m entity_data = None
    | None =>
        exists r m ra,
          In r rs /\ In m (matches_of (pattern r message))
          /\ In ra (rule_actions (rule r))
          /\ entity_payload E (HasEntityData (rule r)) m ra = None
    end.
Proof.
  induction rs as [|r rs IH]; intros s.
  - simpl. split; [intros ? ? ? []|].
    rewrite app_nil_r, set_actions_actions. reflexivity.
  - simpl rules_loop.
    pose proof (find_loop_spec E (HasEntityData (rule r))
                  (rule_actions (rule r)) (pattern r message) s) as Hr.
    destruct (find_loop E _ _ (pattern r message) s) as [[[|] s1]|].
    + destruct Hr as [Hall ->].
      specialize (IH (set_actions s (actions s ++ suggestions_of_rule E message r))).
      unfold suggestions_of_rule at 1 in IH.
      destruct (rules_loop E message rs _) as [[[|] s2]|].
      * destruct IH as [Hrest ->]. split.
        -- intros r' m ra [<- | Hin] Hm Hra; [apply Hall | apply Hrest];
             assumption.
        -- rewrite set_actions_twice. simpl. rewrite <- app_assoc.
           reflexivity.
      * destruct IH as (r' & m & ra & gs & ed & Hin & Hrest).
        exists r', m, ra, gs, ed. split; [right; exact Hin | exact Hrest].
      * destruct IH as (r' & m & ra & Hin & Hrest).
        exists r', m, ra. split; [right; exact Hin | exact Hrest].
    + destruct Hr as (m & ra & gs & ed & Hrest).
      exists r, m, ra, gs, ed. split; [left; reflexivity | exact Hrest].
    + destruct Hr as (m & ra & Hrest).
      exists r, m, ra. split; [left; reflexivity | exact Hrest].
Qed.

Lemma SuggestActionsFromRules_cases (E : Engine) (conversation : Conversation)
    (last_message : ConversationMessage) (s : ActionsSuggestionsResponse) :
  back (messages conversation) = Some last_message ->
  match SuggestActionsFromRules E conversation s with
  | Some (true, s') =>
      payloads_available E (text last_message)
      /\ s' = set_actions s
                (actions s ++ suggestions_of_rules E (text last_message))
  | Some (false, _) => extraction_fails E (text last_message)
  | None => ~ payloads_available E (text last_message)
  end.
Proof.
  intros Hback. unfold SuggestActionsFromRules. rewrite Hback.
  pose proof (rules_loop_spec E (text last_message) (rules_ E) s) as H.
  destruct (rules_loop E (text last_message) (rules_ E) s) as [[[|] s']|].
  - exact H.
  - destruct H as (r & m & ra & gs & ed & Hr & Hm & Hra & _ & Hg & Hs).
    exists r, m, ra, gs, ed. auto.
  - destruct H as (r & m & ra & Hr & Hm & Hra & Hn). intros Hav.
    specialize (Hav r m ra Hr Hm Hra). rewrite Hn in Hav.
    destruct Hav as [? [=]].
Qed.

Lemma SuggestActionsFromRules_available (E : Engine)
    (conversation : Conversation) (last_message : ConversationMessage)
    (s : ActionsSuggestionsResponse) :
  back (messages conversation) = Some last_message ->
  payloads_available E (text last_message) ->
  SuggestActionsFromRules E conversation s
  = Some (true, set_actions s
                  (actions s ++ suggestions_of_rules E (text last_message))).
Proof.
  intros Hback Hav. unfold SuggestActionsFromRules. rewrite Hback.
  pose proof (rules_loop_spec E (text last_message) (rules_ E) s) as H.
  destruct (rules_loop E (text last_message) (rules_ E) s) as [[[|] s']|].
  - destruct H as [_ ->]. reflexivity.
  - destruct H as (r & m & ra & gs & ed & Hr & Hm & Hra & Hn & _).
    specialize (Hav r m ra Hr Hm Hra). rewrite Hn in Hav.
    destruct Hav as [? [=]].
  - destruct H as (r & m & ra & Hr & Hm & Hra & Hn).
    specialize (Hav r m ra Hr Hm Hra). rewrite Hn in Hav.
    destruct Hav as [? [=]].
Qed.

(** The pass decides on entity data as the specification words it. *)
Lemma HasEntityData_declares (r : Rule) :
  HasEntityData r = rule_declares_entity_data r.
Proof.
  unfold HasEntityData, rule_declares_entity_data.
  induction (rule_actions r) as [|ra ras IH]; [reflexivity|].
  simpl. rewrite IH.
  destruct (spec_serialized_entity_data (action ra)),
    (capturing_group ra); reflexivity.
Qed.

Lemma captured_entity_data_None (gs : list CapturingGroup) (m : FindResult) :
  fold_left
    (fun acc group =>
       match acc with
       | Some e =>
           SetFieldFromCapturingGroup (group_id group) (entity_field group) m e
       | None => None
       end)
    gs None = None.
Proof. induction gs as [|g gs IH]; [reflexivity | exact IH]. Qed.

(** The loop over the capturing groups sets the fields one after the
    other and stops at the first group that cannot be extracted. *)
Lemma set_capturing_groups_captured (gs : list CapturingGroup)
    (m : FindResult) :
  forall entity_data,
    set_capturing_groups gs m entity_data
    = captured_entity_data gs m entity_data.
Proof.
  unfold captured_entity_data.
  induction gs as [|g gs IH]; intros entity_data; [reflexivity|].
  simpl.
  destruct (SetFieldFromCapturingGroup (group_id g) (entity_field g) m
              entity_data) as [e'|].
  - apply IH.
  - symmetry. apply captured_entity_data_None.
Qed.

Lemma entity_payload_claimed (E : Engine) (r : Rule) (m : FindResult)
    (ra : RuleActionSpec) :
  entity_payload E (HasEntityData r) m ra = claimed_payload E r m ra.
Proof.
  unfold entity_payload, claimed_payload.
  rewrite <- HasEntityData_declares.
  destruct (HasEntityData r); [|reflexivity].
  destruct (entity_data_builder_ E) as [builder|]; [|reflexivity]. simpl.
  destruct (NewRoot builder) as [root|]; [|reflexivity]. simpl.
  destruct (capturing_group ra) as [gs|]; simpl.
  - rewrite set_capturing_groups_captured.
    destruct (captured_entity_data gs m _); reflexivity.
  - reflexivity.
Qed.

Lemma suggestions_of_rules_claimed (E : Engine) (message : string) :
  suggestions_of_rules E message = claimed_suggestions E message.
Proof.
  unfold suggestions_of_rules, claimed_suggestions.
  apply flat_map_ext. intros r.
  unfold suggestions_of_rule, claimed_suggestions_of_rule.
  apply flat_map_ext. intros m. apply map_ext. intros ra.
  unfold suggestion_for, claimed_suggestion.
  rewrite entity_payload_claimed. reflexivity.
Qed.

Lemma payloads_available_buildable (E : Engine) (message : string) :
  payloads_available E message <-> payloads_buildable E message.
Proof.
  unfold payloads_available, payloads_buildable.
  split; intros Hall r m ra Hr Hm Hra; specialize (Hall r m ra Hr Hm Hra).
  - rewrite <- entity_payload_claimed. exact Hall.
  - rewrite entity_payload_claimed. exact Hall.
Qed.

(** C6. The rule pass reads only the text of the last message. It
    completes exactly when every payload can be built, and then it has
    appended, for every rule, every match of the rule and every action
    spec of the rule, in this order, exactly one suggestion with the
    action's response text (empty if none is declared), type and static
    score, no annotations, and the serialized entity payload: the empty
    string when the rule declares no entity data, and otherwise the
    serialization of a root record with the action's static payload
    merged in and its capturing groups set. *)
Theorem SuggestActionsFromRules_spec (E : Engine) (conversation : Conversation)
    (last_message : ConversationMessage) (s : ActionsSuggestionsResponse) :
  back (messages conversation) = Some last_message ->
  (forall conversation' last_message',
      back (messages conversation') = Some last_message' ->
      text last_message' = text last_message ->
      SuggestActionsFromRules E conversation' s
      = SuggestActionsFromRules E conversation s)
  /\ (forall s',
        SuggestActionsFromRules E conversation s = Some (true, s')
        <-> payloads_buildable E (text last_message)
            /\ s' = set_actions s
                      (actions s
                       ++ claimed_suggestions E (text last_message)))
  /\ (forall r, length (claimed_suggestions_of_rule E (text last_message) r)
                = (length (matches_of (pattern r (text last_message)))
                   * length (rule_actions (rule r)))%nat).
Proof.
  intros Hback. split; [|split].
  - intros conversation' last' Hback' Htext.
    unfold SuggestActionsFromRules. rewrite Hback, Hback', Htext. reflexivity.
  - intros s'. rewrite <- suggestions_of_rules_claimed,
      <- payloads_available_buildable. split.
    + intros Hs.
      pose proof (SuggestActionsFromRules_cases E _ _ s Hback) as H.
      rewrite Hs in H. exact H.
    + intros [Hav ->]. apply SuggestActionsFromRules_available; assumption.
  - intros r. unfold claimed_suggestions_of_rule.
    induction (matches_of (pattern r (text last_message))) as [|m ms IH];
      [reflexivity|].
    simpl. rewrite length_app, length_map, IH. reflexivity.
Qed.

End RulePass.

Lemma SuggestActionsFromRules_spec_witness :
  SuggestActionsFromRules MoreFixtures.event_engine Fixtures.meet_at_5pm
    default_response
  = Some (true,
          set_actions default_response
            [mkActionSuggestion (P := Fixtures.rational_platform)
               "" "create_event" (9 # 10) [] "";
             mkActionSuggestion (P := Fixtures.rational_platform)
               "Add to calendar" "create_event" (9 # 10) [] "{when=5pm";
             mkActionSuggestion (P := Fixtures.rational_platform)
               "" "set_alarm" (1 # 2) [] "{";
             mkActionSuggestion (P := Fixtures.rational_platform)
               "Add to calendar" "create_event" (9 # 10) [] "{when=6pm";
             mkActionSuggestion (P := Fixtures.rational_platform)
               "" "set_alarm" (1 # 2) [] "{"]).
Proof.
  destruct (SuggestActionsFromRules_spec MoreFixtures.event_engine
              Fixtures.meet_at_5pm (Fixtures.message "Let's meet at 5pm")
              default_response eq_refl) as (_ & Hrun & _).
  apply Hrun. split; [|vm_compute; reflexivity].
  intros r m ra [<- | [<- | []]] Hm Hra; vm_compute in Hm, Hra.
  - destruct Hm as [<- | []]. destruct Hra as [<- | []].
    vm_compute. eauto.
  - destruct Hm as [<- | [<- | []]]; destruct Hra as [<- | [<- | []]];
      vm_compute; eauto.
Defined.

(** Scenario A, evaluated through the whole pipeline. *)
Example scenario_A :
  SuggestActions Fixtures.time_engine Fixtures.meet_at_5pm None
    Fixtures.default_options
  = Some (set_actions default_response
            [mkActionSuggestion (P := Fixtures.rational_platform)
               "" "create_event" (9 # 10) [] ""]).
Proof. vm_compute. reflexivity. Qed.

End RulePassProps.

(** ** Properties of the gating pipeline *)

Module PipelineProps.
Import ActionsSuggestions RulePassSpec PipelineSpec.

Section Pipeline.
Context {P : Platform}.

Lemma extends_refl (r : ActionsSuggestionsResponse) : extends r r.
Proof.
  exists []. rewrite app_nil_r. destruct r. reflexivity.
Qed.

Lemma extends_push_back (r r' : ActionsSuggestionsResponse)
    (a : ActionSuggestion) :
  extends (push_back r a) r' -> extends r r'.
Proof.
  intros [l ->]. exists (a :: l). unfold push_back. simpl.
  rewrite <- app_assoc. reflexivity.
Qed.

Lemma extends_trans (r1 r2 r3 : ActionsSuggestionsResponse) :
  extends r1 r2 -> extends r2 r3 -> extends r1 r3.
Proof.
  intros [l ->] [l' ->]. exists (l ++ l'). simpl.
  rewrite app_assoc. reflexivity.
Qed.

Lemma create_actions_loop_extends (mappings : list AnnotationMapping)
    (a : ActionSuggestionAnnotation) :
  forall s, extends s (create_actions_loop mappings a s).
Proof.
  induction mappings as [|mapping rest IH]; intros s; simpl.
  - apply extends_refl.
  - destruct (collection (entity a) =? annotation_collection mapping);
      [|apply IH].
    destruct (flt (cr_score (entity a)) (min_annotation_score mapping));
      [apply IH|].
    eapply extends_push_back, IH.
Qed.

Lemma create_for_ids_extends (E : Engine) (message_index : Z)
    (anns : list ActionSuggestionAnnotation) (ids : list nat) :
  forall s s', create_for_ids E message_index anns ids s = Some s' ->
               extends s s'.
Proof.
  induction ids as [|annotation_id rest IH]; intros s s'; simpl.
  - intros [= <-]. apply extends_refl.
  - destruct (anns !! annotation_id) as [a|]; [|discriminate].
    intros Hrest. eapply extends_trans; [|exact (IH _ _ Hrest)].
    apply create_actions_loop_extends.
Qed.

Lemma fold_create_extends (E : Engine) (message_index : Z)
    (anns : list ActionSuggestionAnnotation) :
  forall s,
    extends s
      (fold_left (fun r a => CreateActionsFromAnnotation E message_index a r)
         anns s).
Proof.
  induction anns as [|a rest IH]; intros s; simpl.
  - apply extends_refl.
  - eapply extends_trans; [|apply IH]. apply create_actions_loop_extends.
Qed.

(** The annotation pass only appends suggestions. *)
Lemma SuggestActionsFromAnnotations_extends (E : Engine)
    (conversation : Conversation) (options : ActionSuggestionOptions)
    (annotator : option Annotator) (s s' : ActionsSuggestionsResponse) :
  SuggestActionsFromAnnotations E conversation options annotator s = Some s' ->
  extends s s'.
Proof.
  unfold SuggestActionsFromAnnotations.
  destruct (annotation_actions_spec (model_ E)) as [spec|];
    [|intros [= <-]; apply extends_refl].
  destruct (annotation_mapping spec) as [[|mapping mappings]|];
    [intros [= <-]; apply extends_refl| |intros [= <-]; apply extends_refl].
  destruct (back (messages conversation)) as [last_message|]; [|discriminate].
  destruct (deduplicate_annotations spec).
  - apply create_for_ids_extends.
  - intros [= <-]. apply fold_create_extends.
Qed.

Lemma to_int32_small (z : Z) :
  (- 2 ^ 31 <= z < 2 ^ 31)%Z -> to_int32 z = z.
Proof.
  intros Hz. unfold to_int32. rewrite Z.mod_small; lia.
Qed.

Lemma total_text_length_nonneg (selected : list ConversationMessage) :
  (0 <= total_text_length selected)%Z.
Proof. induction selected; simpl; lia. Qed.

Lemma input_text_length_total (selected : list ConversationMessage) :
  (total_text_length selected < 2 ^ 31)%Z ->
  input_text_length selected = total_text_length selected.
Proof.
  unfold input_text_length.
  assert (forall acc, (0 <= acc)%Z ->
            (acc + total_text_length selected < 2 ^ 31)%Z ->
            fold_left
              (fun a (m : ConversationMessage) =>
                 to_int32 (a + Z.of_nat (String.length (text m))))
              selected acc
            = (acc + total_text_length selected)%Z) as Hgen.
  { induction selected as [|m rest IH]; intros acc Hacc Hbound; simpl in *.
    - lia.
    - pose proof (total_text_length_nonneg rest).
      rewrite to_int32_small by lia. rewrite IH by lia. lia. }
  intros Hbound. rewrite Hgen; lia.
Qed.

Lemma result_eta (x : option (bool * ActionsSuggestionsResponse)) :
  match x with
  | None => None
  | Some (false, r) => Some (false, r)
  | Some (true, r) => Some (true, r)
  end = x.
Proof. destruct x as [[[|] r]|]; reflexivity. Qed.

Lemma num_messages_of_le (E : Engine) (conversation : Conversation) :
  (num_messages_of E conversation
   <= Z.of_nat (length (messages conversation)))%Z.
Proof.
  unfold num_messages_of.
  destruct (max_conversation_history_length (model_ E) <? 0)%Z eqn:Hneg;
    simpl; [lia|].
  destruct (Z.of_nat (length (messages conversation))
            <? max_conversation_history_length (model_ E))%Z eqn:Hlt; lia.
Qed.

(** *** Failures of the request *)

Lemma gather_from_model_failure (E : Engine) (conversation : Conversation)
    (num_messages : Z) (options : ActionSuggestionOptions)
    (s r : ActionsSuggestionsResponse) :
  gather_from_model E conversation num_messages options s = Some (false, r) ->
  exists last_message,
    back (messages conversation) = Some last_message
    /\ RulePassSpec.extraction_fails E (text last_message).
Proof.
  unfold gather_from_model.
  destruct (SuggestActionsFromModel E conversation num_messages options s)
    as [s2|]; [|discriminate].
  destruct (suppress_on_sensitive_topic (preconditions (model_ E))
            && output_filtered_sensitivity s2); [discriminate|].
  rewrite result_eta. intros Hrules.
  destruct (back (messages conversation)) as [last_message|] eqn:Hback.
  - exists last_message. split; [reflexivity|].
    pose proof (RulePassProps.SuggestActionsFromRules_cases E conversation
                  last_message s2 Hback) as Hcases.
    rewrite Hrules in Hcases. exact Hcases.
  - unfold SuggestActionsFromRules in Hrules. rewrite Hback in Hrules.
    discriminate.
Qed.

Lemma gather_failure_causes (E : Engine) (conversation : Conversation)
    (annotator : option Annotator) (options : ActionSuggestionOptions)
    (s r : ActionsSuggestionsResponse) :
  GatherActionsSuggestions E conversation annotator options s = Some (false, r) ->
  (num_messages_of E conversation <= 0)%Z
  \/ exists last_message,
       back (messages conversation) = Some last_message
       /\ RulePassSpec.extraction_fails E (text last_message).
Proof.
  unfold GatherActionsSuggestions.
  destruct (messages conversation) as [|m ms] eqn:Hm; [discriminate|].
  destruct (num_messages_of E conversation <=? 0)%Z eqn:Hn; [left; lia|].
  destruct (SuggestActionsFromAnnotations E conversation options annotator s)
    as [s1|]; [|discriminate].
  destruct (input_length_out_of_range E _); [discriminate|].
  unfold gather_after_length_check. rewrite Hm.
  destruct (flt _ _); [discriminate|].
  destruct (IsLowConfidenceInput E conversation _); [discriminate|].
  intros Hg. right. rewrite <- Hm.
  exact (gather_from_model_failure _ _ _ _ _ _ Hg).
Qed.

(** C1, amended. When gathering fails, or gathering succeeds and
    [RankActions] fails, the response of [SuggestActions] has an empty
    action list. Gathering fails only when no message is selected or when
    the extraction of a capturing group fails during the rule pass; an
    error status of a rule matcher is not among the causes. *)
Theorem SuggestActions_failure_clears (E : Engine)
    (conversation : Conversation) (annotator : option Annotator)
    (options : ActionSuggestionOptions) :
  (exists r, GatherActionsSuggestions E conversation annotator options
               default_response = Some (false, r))
  \/ (exists r, GatherActionsSuggestions E conversation annotator options
                  default_response = Some (true, r)
                /\ fst (RankActions (ranker_ E) r) = false) ->
  (exists final, SuggestActions E conversation annotator options = Some final
                 /\ actions final = [])
  /\ (forall r, GatherActionsSuggestions E conversation annotator options
                  default_response = Some (false, r) ->
        (num_messages_of E conversation <= 0)%Z
        \/ exists last_message,
             back (messages conversation) = Some last_message
             /\ RulePassSpec.extraction_fails E (text last_message)).
Proof.
  intros Hfail. split.
  - unfold SuggestActions. destruct Hfail as [[r Hg] | [r [Hg Hrank]]];
      rewrite Hg.
    + exists (clear r). split; reflexivity.
    + destruct (RankActions (ranker_ E) r) as [[|] ranked];
        [discriminate|].
      exists (clear ranked). split; reflexivity.
  - intros r. apply gather_failure_causes.
Qed.

End Pipeline.

Lemma SuggestActions_failure_clears_witness :
  (exists final,
      SuggestActions Fixtures.bad_group_engine Fixtures.meet_at_5pm None
        Fixtures.default_options = Some final
      /\ actions final = [])
  /\ (exists final,
        SuggestActions Fixtures.unranked_engine Fixtures.meet_at_5pm None
          Fixtures.default_options = Some final
        /\ actions final = []).
Proof.
  split.
  - apply (SuggestActions_failure_clears Fixtures.bad_group_engine
             Fixtures.meet_at_5pm None Fixtures.default_options).
    left. eexists. vm_compute. reflexivity.
  - apply (SuggestActions_failure_clears Fixtures.unranked_engine
             Fixtures.meet_at_5pm None Fixtures.default_options).
    right. eexists. split; vm_compute; reflexivity.
Defined.

(** C1, as stated, fails: the matcher of the first rule reports an error
    status during the rule pass, and the response still carries the
    suggestion of its first match and the suggestion of the next rule. *)
Lemma matcher_error_keeps_actions :
  rule_matcher_error Fixtures.flaky_engine "Let's meet at 5pm" = true
  /\ GatherActionsSuggestions Fixtures.flaky_engine Fixtures.meet_at_5pm None
       Fixtures.default_options default_response
     = Some (true,
             set_actions default_response
               [mkActionSuggestion (P := Fixtures.rational_platform)
                  "" "copy" (1 # 2) [] "";
                mkActionSuggestion (P := Fixtures.rational_platform)
                  "" "create_event" (9 # 10) [] ""])
  /\ SuggestActions Fixtures.flaky_engine Fixtures.meet_at_5pm None
       Fixtures.default_options
     = Some (set_actions default_response
               [mkActionSuggestion (P := Fixtures.rational_platform)
                  "" "copy" (1 # 2) [] "";
                mkActionSuggestion (P := Fixtures.rational_platform)
                  "" "create_event" (9 # 10) [] ""]).
Proof. repeat split; vm_compute; reflexivity. Qed.

(** *** Sensitive topics *)

Section Sensitivity.
Context {P : Platform}.

Lemma read_predictions_filtered (E : Engine) (interpreter : Interpreter)
    (r : ActionsSuggestionsResponse) :
  output_filtered_sensitivity r = true ->
  read_predictions E interpreter r = r.
Proof. intros H. unfold read_predictions. rewrite H. reflexivity. Qed.

Lemma ReadModelOutput_exceeded (E : Engine) (interpreter : Interpreter)
    (options : ActionSuggestionOptions) (response : ActionsSuggestionsResponse) :
  sensitivity_exceeded E interpreter = true ->
  output_filtered_sensitivity (ReadModelOutput E interpreter options response)
  = true
  /\ actions (ReadModelOutput E interpreter options response)
     = actions response
  /\ sensitivity_read E interpreter
     = Some (sensitivity_score (ReadModelOutput E interpreter options response)).
Proof.
  unfold sensitivity_exceeded, sensitivity_read, ReadModelOutput,
    read_sensitivity.
  destruct (0 <=? output_triggering_score (tflite_model_spec (model_ E)))%Z;
    simpl.
  - destruct (negb (is_valid _) || (size _ =? 0)%Z); simpl; [discriminate|].
    destruct (0 <=? output_sensitive_topic_score _)%Z; simpl; [|discriminate].
    destruct (is_valid _); simpl; [|discriminate].
    destruct (dim _ 0 =? 1)%Z; simpl; [|discriminate].
    intros Hlt. rewrite read_predictions_filtered by exact Hlt.
    simpl. auto.
  - destruct (0 <=? output_sensitive_topic_score _)%Z; simpl; [|discriminate].
    destruct (is_valid _); simpl; [|discriminate].
    destruct (dim _ 0 =? 1)%Z; simpl; [|discriminate].
    intros Hlt. rewrite read_predictions_filtered by exact Hlt.
    simpl. auto.
Qed.

Lemma SuggestActionsFromModel_invoked (E : Engine)
    (conversation : Conversation) (options : ActionSuggestionOptions)
    (interpreter : Interpreter) (response : ActionsSuggestionsResponse) :
  invoke_model E conversation (num_messages_of E conversation)
  = Some interpreter ->
  SuggestActionsFromModel E conversation (num_messages_of E conversation)
    options response
  = Some (ReadModelOutput E interpreter options response).
Proof.
  intros Hinv. unfold SuggestActionsFromModel. rewrite Hinv.
  pose proof (num_messages_of_le E conversation).
  destruct (Z.of_nat (length (messages conversation))
            <? num_messages_of E conversation)%Z eqn:Hlt; [lia|reflexivity].
Qed.

Lemma Gather_reaches_model (E : Engine) (conversation : Conversation)
    (annotator : option Annotator) (options : ActionSuggestionOptions)
    (response r1 : ActionsSuggestionsResponse) :
  reaches_model E conversation = true ->
  SuggestActionsFromAnnotations E conversation options annotator response
  = Some r1 ->
  GatherActionsSuggestions E conversation annotator options response
  = gather_from_model E conversation (num_messages_of E conversation)
      options r1.
Proof.
  unfold reaches_model, GatherActionsSuggestions, gather_after_length_check.
  intros Hreach Hann.
  destruct (messages conversation) as [|m ms]; [discriminate|].
  simpl in Hreach. rewrite !andb_true_iff, !negb_true_iff in Hreach.
  destruct Hreach as [[[Hn Hlen] Hloc] Hlow].
  assert ((num_messages_of E conversation <=? 0)%Z = false) as -> by lia.
  rewrite Hann, Hlen, Hloc, Hlow. reflexivity.
Qed.

(** The score [ReadModelOutput] reads is the model's sensitivity output,
    provided the triggering score can be read first. *)
Lemma sensitivity_exceeded_split (E : Engine) (interpreter : Interpreter) :
  sensitivity_exceeded E interpreter
  = triggering_score_readable E interpreter
    && model_sensitivity_exceeds E interpreter.
Proof.
  unfold sensitivity_exceeded, sensitivity_read, triggering_score_readable,
    model_sensitivity_exceeds, model_sensitivity.
  destruct (0 <=? output_triggering_score (tflite_model_spec (model_ E)))%Z;
    simpl; [|reflexivity].
  destruct (is_valid _); simpl; [|reflexivity].
  destruct (size _ =? 0)%Z; reflexivity.
Qed.

(** When the triggering score cannot be read, [ReadModelOutput] returns at
    once: the response is as it was. *)
Lemma ReadModelOutput_unreadable (E : Engine) (interpreter : Interpreter)
    (options : ActionSuggestionOptions) (response : ActionsSuggestionsResponse) :
  triggering_score_readable E interpreter = false ->
  ReadModelOutput E interpreter options response = response.
Proof.
  unfold triggering_score_readable, ReadModelOutput.
  destruct (0 <=? output_triggering_score (tflite_model_spec (model_ E)))%Z;
    simpl; [|discriminate].
  destruct (is_valid _); simpl; [|reflexivity].
  destruct (size _ =? 0)%Z; [reflexivity | discriminate].
Qed.

(** C10, amended. Whenever the triggering score can be read (the model
    declares
    none, or its tensor is valid and not empty) and the model's
    sensitivity score exceeds [max_sensitive_topic_score],
    [ReadModelOutput] sets [output_filtered_sensitivity] and returns with
    the action list as it was: no smart reply and no action-class
    suggestion is appended. This does not depend on
    [suppress_on_sensitive_topic]: when that is not set, the pipeline goes
    on to the rule pass from this response. *)
Theorem ReadModelOutput_sensitive (E : Engine) (interpreter : Interpreter)
    (options : ActionSuggestionOptions) (response : ActionsSuggestionsResponse) :
  triggering_score_readable E interpreter = true ->
  model_sensitivity_exceeds E interpreter = true ->
  output_filtered_sensitivity (ReadModelOutput E interpreter options response)
  = true
  /\ actions (ReadModelOutput E interpreter options response)
     = actions response
  /\ model_sensitivity E interpreter
     = Some (sensitivity_score (ReadModelOutput E interpreter options response))
  /\ (forall conversation,
        invoke_model E conversation (num_messages_of E conversation)
        = Some interpreter ->
        suppress_on_sensitive_topic (preconditions (model_ E)) = false ->
        gather_from_model E conversation (num_messages_of E conversation)
          options response
        = SuggestActionsFromRules E conversation
            (ReadModelOutput E interpreter options response)).
Proof.
  intros Hreadable Hexceeds.
  assert (sensitivity_exceeded E interpreter = true) as Hex
    by (rewrite sensitivity_exceeded_split, Hreadable, Hexceeds; reflexivity).
  destruct (ReadModelOutput_exceeded E interpreter options response Hex)
    as (Hflag & Hactions & Hscore).
  assert (model_sensitivity E interpreter
          = Some (sensitivity_score
                    (ReadModelOutput E interpreter options response)))
    as Hmodel.
  { rewrite <- Hscore. unfold sensitivity_read, model_sensitivity.
    unfold triggering_score_readable in Hreadable.
    destruct (0 <=? output_triggering_score (tflite_model_spec (model_ E)))%Z;
      simpl in *; [|reflexivity].
    destruct (is_valid _); simpl in *; [|discriminate].
    destruct (size _ =? 0)%Z; simpl in *; [discriminate | reflexivity]. }
  split; [exact Hflag|]. split; [exact Hactions|]. split; [exact Hmodel|].
  intros conversation Hinv Hsuppress. unfold gather_from_model.
  rewrite (SuggestActionsFromModel_invoked _ _ _ _ _ Hinv), Hsuppress.
  simpl. apply result_eta.
Qed.

(** C2, amended. When the conversation reaches the model, the triggering
    score of
    the model run can be read, the model's sensitivity score exceeds
    [max_sensitive_topic_score] and [suppress_on_sensitive_topic] is set,
    gathering succeeds with the response of the annotation pass, unchanged
    but for the scores and [output_filtered_sensitivity], which is set: it
    holds no model-derived and no rule-derived action. This response goes
    to the ranker; with a ranker that filters, the final response has the
    flag set and only annotation-derived actions. *)
Theorem sensitive_topic_suppresses (E : Engine) (conversation : Conversation)
    (annotator : option Annotator) (options : ActionSuggestionOptions)
    (interpreter : Interpreter) (r1 : ActionsSuggestionsResponse) :
  reaches_model E conversation = true ->
  SuggestActionsFromAnnotations E conversation options annotator
    default_response = Some r1 ->
  invoke_model E conversation (num_messages_of E conversation)
  = Some interpreter ->
  triggering_score_readable E interpreter = true ->
  model_sensitivity_exceeds E interpreter = true ->
  suppress_on_sensitive_topic (preconditions (model_ E)) = true ->
  GatherActionsSuggestions E conversation annotator options default_response
  = Some (true, ReadModelOutput E interpreter options r1)
  /\ actions (ReadModelOutput E interpreter options r1) = actions r1
  /\ output_filtered_sensitivity (ReadModelOutput E interpreter options r1)
     = true
  /\ SuggestActions E conversation annotator options
     = Some (match RankActions (ranker_ E)
                     (ReadModelOutput E interpreter options r1) with
             | (false, ranked) => clear ranked
             | (true, ranked) => ranked
             end)
  /\ (ranker_filters (ranker_ E) ->
      exists final,
        SuggestActions E conversation annotator options = Some final
        /\ output_filtered_sensitivity final = true
        /\ forall a, In a (actions final) -> In a (actions r1)).
Proof.
  intros Hreach Hann Hinv Hreadable Hexceeds Hsuppress.
  assert (sensitivity_exceeded E interpreter = true) as Hex
    by (rewrite sensitivity_exceeded_split, Hreadable, Hexceeds; reflexivity).
  destruct (ReadModelOutput_exceeded E interpreter options r1 Hex)
    as (Hflag & Hactions & _).
  assert (GatherActionsSuggestions E conversation annotator options
            default_response
          = Some (true, ReadModelOutput E interpreter options r1)) as Hg.
  { rewrite (Gather_reaches_model _ _ _ _ _ _ Hreach Hann).
    unfold gather_from_model.
    rewrite (SuggestActionsFromModel_invoked _ _ _ _ _ Hinv), Hsuppress, Hflag.
    reflexivity. }
  assert (SuggestActions E conversation annotator options
          = Some (match RankActions (ranker_ E)
                          (ReadModelOutput E interpreter options r1) with
                  | (false, ranked) => clear ranked
                  | (true, ranked) => ranked
                  end)) as Hs.
  { unfold SuggestActions. rewrite Hg.
    destruct (RankActions (ranker_ E) _) as [[|] ranked]; reflexivity. }
  split; [exact Hg|]. split; [exact Hactions|]. split; [exact Hflag|].
  split; [exact Hs|].
  intros Hranker. rewrite Hs.
  destruct (Hranker (ReadModelOutput E interpreter options r1))
    as [Hkeep Hsub].
  destruct (RankActions (ranker_ E) _) as [[|] ranked]; simpl in *.
  - exists ranked. split; [reflexivity|]. split; [congruence|].
    intros a Ha. rewrite <- Hactions. apply Hsub, Ha.
  - exists (clear ranked). split; [reflexivity|]. split; [simpl; congruence|].
    intros a [].
Qed.

End Sensitivity.

Lemma ReadModelOutput_sensitive_witness :
  output_filtered_sensitivity
    (ReadModelOutput (Fixtures.model_engine 0 (-1) false (9 # 10))
       (Fixtures.interpreter_with (9 # 10)) Fixtures.default_options
       default_response) = true
  /\ actions
       (ReadModelOutput (Fixtures.model_engine 0 (-1) false (9 # 10))
          (Fixtures.interpreter_with (9 # 10)) Fixtures.default_options
          default_response) = [].
Proof.
  destruct (ReadModelOutput_sensitive
              (Fixtures.model_engine 0 (-1) false (9 # 10))
              (Fixtures.interpreter_with (9 # 10)) Fixtures.default_options
              default_response eq_refl eq_refl) as (Hflag & Hactions & _).
  split; assumption.
Defined.

(** C10, as stated, fails: the model's sensitivity score, 0.9, exceeds the
    threshold 0.5, but the triggering-score tensor is empty, so
    [ReadModelOutput] returns before it reads the sensitivity score: the
    response is as it was and [output_filtered_sensitivity] is not set. *)
Lemma unreadable_triggering_score_keeps_flag :
  model_sensitivity_exceeds (MoreFixtures.no_trigger_engine false (9 # 10))
    (MoreFixtures.no_trigger_interpreter (9 # 10)) = true
  /\ triggering_score_readable (MoreFixtures.no_trigger_engine false (9 # 10))
       (MoreFixtures.no_trigger_interpreter (9 # 10)) = false
  /\ ReadModelOutput (MoreFixtures.no_trigger_engine false (9 # 10))
       (MoreFixtures.no_trigger_interpreter (9 # 10))
       Fixtures.default_options default_response
     = default_response
  /\ output_filtered_sensitivity
       (ReadModelOutput (MoreFixtures.no_trigger_engine false (9 # 10))
          (MoreFixtures.no_trigger_interpreter (9 # 10))
          Fixtures.default_options default_response)
     = false.
Proof. repeat split; vm_compute; reflexivity. Qed.

Lemma keep_all_ranker_filters : ranker_filters Fixtures.keep_all_ranker.
Proof. intros r. simpl. auto. Qed.

Lemma sensitive_topic_suppresses_witness :
  exists final,
    SuggestActions (Fixtures.model_engine 0 (-1) true (9 # 10))
      Fixtures.tomorrow_at_5pm None Fixtures.default_options = Some final
    /\ output_filtered_sensitivity final = true
    /\ forall a, In a (actions final) -> type a = "view_calendar".
Proof.
  destruct (sensitive_topic_suppresses
              (Fixtures.model_engine 0 (-1) true (9 # 10))
              Fixtures.tomorrow_at_5pm None Fixtures.default_options
              (Fixtures.interpreter_with (9 # 10))
              (set_actions default_response
                 [mkActionSuggestion (P := Fixtures.rational_platform)
                    "" "view_calendar" (8 # 10)
                    [mkActionSuggestionAnnotation
                       (P := Fixtures.rational_platform) 0 (8, 16)
                       (mkClassificationResult
                          (P := Fixtures.rational_platform) "date" (8 # 10))
                       "date" "tomorrow"] ""])
              eq_refl eq_refl eq_refl eq_refl eq_refl eq_refl)
    as (_ & _ & _ & _ & Hfinal).
  destruct (Hfinal keep_all_ranker_filters) as (final & Hs & Hflag & Hsub).
  exists final. split; [exact Hs|]. split; [exact Hflag|].
  intros a Ha. destruct (Hsub a Ha) as [<- | []]. reflexivity.
Defined.

(** C2, as stated, fails: the conversation reaches the model, the model's
    sensitivity score, 0.9, exceeds the threshold 0.5 and
    [suppress_on_sensitive_topic] is set, but the triggering-score tensor
    of the model run is empty. [ReadModelOutput] then returns before it
    reads the sensitivity score, [output_filtered_sensitivity] stays unset
    and the final response carries the rule-derived "create_event". *)
Lemma unreadable_triggering_score_lets_rules_run :
  reaches_model (MoreFixtures.no_trigger_engine true (9 # 10))
    Fixtures.tomorrow_at_5pm = true
  /\ invoke_model (MoreFixtures.no_trigger_engine true (9 # 10))
       Fixtures.tomorrow_at_5pm
       (num_messages_of (MoreFixtures.no_trigger_engine true (9 # 10))
          Fixtures.tomorrow_at_5pm)
     = Some (MoreFixtures.no_trigger_interpreter (9 # 10))
  /\ model_sensitivity_exceeds (MoreFixtures.no_trigger_engine true (9 # 10))
       (MoreFixtures.no_trigger_interpreter (9 # 10)) = true
  /\ suppress_on_sensitive_topic
       (preconditions (model_ (MoreFixtures.no_trigger_engine true (9 # 10))))
     = true
  /\ option_map
       (fun r => (output_filtered_sensitivity r, map type (actions r)))
       (SuggestActions (MoreFixtures.no_trigger_engine true (9 # 10))
          Fixtures.tomorrow_at_5pm None Fixtures.default_options)
     = Some (false, ["view_calendar"; "create_event"]).
Proof. repeat split; vm_compute; reflexivity. Qed.

(** Scenario D and its variants: with the sensitivity score 0.9 above the
    threshold 0.5, suppression leaves the annotation-derived action only;
    without suppression the rule-derived action is there too, and no
    model-derived one; with the score 0.1 the model's reply and action
    class are there. *)
Example scenario_D :
  (option_map (fun r => (output_filtered_sensitivity r, map type (actions r)))
     (SuggestActions (Fixtures.model_engine 0 (-1) true (9 # 10))
        Fixtures.tomorrow_at_5pm None Fixtures.default_options)
   = Some (true, ["view_calendar"]))
  /\ (option_map (fun r => (output_filtered_sensitivity r, map type (actions r)))
        (SuggestActions (Fixtures.model_engine 0 (-1) false (9 # 10))
           Fixtures.tomorrow_at_5pm None Fixtures.default_options)
      = Some (true, ["view_calendar"; "create_event"]))
  /\ (option_map (fun r => (output_filtered_sensitivity r, map type (actions r)))
        (SuggestActions (Fixtures.model_engine 0 (-1) true (1 # 10))
           Fixtures.tomorrow_at_5pm None Fixtures.default_options)
      = Some (false, ["view_calendar"; "text_reply"; "share_location";
                      "create_event"])).
Proof. repeat split; vm_compute; reflexivity. Qed.

(** *** The input-length check *)

Section InputLength.
Context {P : Platform}.

(** C3, amended. For a total text length of the selected messages that
    fits an [int], the input-length check stops the pipeline exactly when
    the total is below [min_input_length], or [max_input_length] is not
    negative and the total is above it: a negative maximum means no upper
    bound. When the check stops the pipeline, gathering succeeds with the
    response of the annotation pass: the incoming response with the
    annotation-derived actions appended, no model-derived action and every
    flag as it was. Otherwise gathering continues with the checks that
    follow. *)
Theorem input_length_check (E : Engine) (conversation : Conversation)
    (annotator : option Annotator) (options : ActionSuggestionOptions)
    (response r1 : ActionsSuggestionsResponse) :
  messages conversation <> [] ->
  (0 < num_messages_of E conversation)%Z ->
  SuggestActionsFromAnnotations E conversation options annotator response
  = Some r1 ->
  (total_text_length
     (last_messages (num_messages_of E conversation) (messages conversation))
   < 2 ^ 31)%Z ->
  (input_length_out_of_range E
     (last_messages (num_messages_of E conversation) (messages conversation))
   = true
   <-> (total_text_length
          (last_messages (num_messages_of E conversation)
             (messages conversation))
        < min_input_length (preconditions (model_ E)))%Z
       \/ ((0 <= max_input_length (preconditions (model_ E)))%Z
           /\ (max_input_length (preconditions (model_ E))
               < total_text_length
                   (last_messages (num_messages_of E conversation)
                      (messages conversation)))%Z))
  /\ (input_length_out_of_range E
        (last_messages (num_messages_of E conversation) (messages conversation))
      = true ->
      GatherActionsSuggestions E conversation annotator options response
      = Some (true, r1))
  /\ (input_length_out_of_range E
        (last_messages (num_messages_of E conversation) (messages conversation))
      = false ->
      GatherActionsSuggestions E conversation annotator options response
      = gather_after_length_check E conversation
          (num_messages_of E conversation) options r1)
  /\ (exists annotation_actions,
        r1 = set_actions response (actions response ++ annotation_actions))
  /\ output_filtered_sensitivity r1 = output_filtered_sensitivity response
  /\ output_filtered_min_triggering_score r1
     = output_filtered_min_triggering_score response
  /\ output_filtered_low_confidence r1
     = output_filtered_low_confidence response
  /\ output_filtered_locale_mismatch r1
     = output_filtered_locale_mismatch response.
Proof.
  intros Hne Hn Hann Hbound.
  assert (forall b,
            input_length_out_of_range E
              (last_messages (num_messages_of E conversation)
                 (messages conversation)) = b ->
            GatherActionsSuggestions E conversation annotator options response
            = if b then Some (true, r1)
              else gather_after_length_check E conversation
                     (num_messages_of E conversation) options r1) as Hgather.
  { intros b Hb. unfold GatherActionsSuggestions.
    destruct (messages conversation) as [|m ms] eqn:Hm; [congruence|].
    assert ((num_messages_of E conversation <=? 0)%Z = false) as -> by lia.
    rewrite Hann, Hb. reflexivity. }
  split; [|split; [|split; [|split]]].
  - unfold input_length_out_of_range.
    rewrite (input_text_length_total _ Hbound).
    rewrite orb_true_iff, andb_true_iff. lia.
  - intros Hb. exact (Hgather true Hb).
  - intros Hb. exact (Hgather false Hb).
  - exact (SuggestActionsFromAnnotations_extends _ _ _ _ _ _ Hann).
  - destruct (SuggestActionsFromAnnotations_extends _ _ _ _ _ _ Hann)
      as [l ->].
    repeat split.
Qed.

End InputLength.

Lemma input_length_check_witness :
  GatherActionsSuggestions (Fixtures.model_engine 10 (-1) true (1 # 10))
    Fixtures.five_characters None Fixtures.default_options default_response
  = Some (true,
          set_actions default_response
            [mkActionSuggestion (P := Fixtures.rational_platform)
               "" "view_calendar" (8 # 10)
               [mkActionSuggestionAnnotation
                  (P := Fixtures.rational_platform) 0 (0, 3)
                  (mkClassificationResult
                     (P := Fixtures.rational_platform) "date" (8 # 10))
                  "date" "5pm"] ""]).
Proof.
  assert (messages Fixtures.five_characters <> []) as Hne by discriminate.
  assert (0 < num_messages_of (Fixtures.model_engine 10 (-1) true (1 # 10))
                Fixtures.five_characters)%Z as Hn by reflexivity.
  destruct (input_length_check (Fixtures.model_engine 10 (-1) true (1 # 10))
              Fixtures.five_characters None Fixtures.default_options
              default_response _ Hne Hn eq_refl eq_refl)
    as (_ & Hstop & _).
  apply Hstop. reflexivity.
Defined.

(** C3, as stated, fails at [max_input_length = 0]: the specification
    reads it as no upper bound, so 23 characters would be in range; the
    check stops the pipeline, and the response lacks the model-derived and
    rule-derived actions that the same engine with [max_input_length = -1]
    gives. *)
Lemma zero_max_input_length_bounds :
  max_input_length
    (preconditions (model_ (Fixtures.model_engine 0 0 true (1 # 10)))) = 0%Z
  /\ total_text_length (messages Fixtures.tomorrow_at_5pm) = 23%Z
  /\ claimed_length_out_of_range 0 0 23 = false
  /\ input_length_out_of_range (Fixtures.model_engine 0 0 true (1 # 10))
       (messages Fixtures.tomorrow_at_5pm) = true
  /\ option_map (fun r => map type (actions r))
       (SuggestActions (Fixtures.model_engine 0 0 true (1 # 10))
          Fixtures.tomorrow_at_5pm None Fixtures.default_options)
     = Some ["view_calendar"]
  /\ option_map (fun r => map type (actions r))
       (SuggestActions (Fixtures.model_engine 0 (-1) true (1 # 10))
          Fixtures.tomorrow_at_5pm None Fixtures.default_options)
     = Some ["view_calendar"; "text_reply"; "share_location"; "create_event"].
Proof. repeat split; vm_compute; reflexivity. Qed.

(** Scenario B: [min_input_length = 10] and five characters of input. The
    model is not consulted, the annotation-derived action stays, and no
    flag is set. *)
Example scenario_B :
  SuggestActions (Fixtures.model_engine 10 (-1) true (1 # 10))
    Fixtures.five_characters None Fixtures.default_options
  = Some (set_actions default_response
            [mkActionSuggestion (P := Fixtures.rational_platform)
               "" "view_calendar" (8 # 10)
               [mkActionSuggestionAnnotation
                  (P := Fixtures.rational_platform) 0 (0, 3)
                  (mkClassificationResult
                     (P := Fixtures.rational_platform) "date" (8 # 10))
                  "date" "5pm"] ""]).
Proof. vm_compute. reflexivity. Qed.

End PipelineProps.

(** ** Properties of the trie matcher *)

Module TrieProps.
Import DoubleArrayTrie.

Section Steps.
Variable char_is_signed : bool.
Context {S : Type}.
Variable update_fn : TrieMatch -> S -> S.

(** The bounds check on the position of the next byte ends the walk
    without an error. *)
Lemma gather_loop_exhausted (T : Trie) (c : ascii) (rest : string)
    (i pos : Z) (s : S) :
  (nodes_length_ T <= Z.lxor pos (uchar c))%Z ->
  gather_loop char_is_signed update_fn T (String c rest) i pos s = (true, s).
Proof.
  intros Hout. simpl. destruct (uchar c =? 0)%Z; [reflexivity|].
  assert ((nodes_length_ T <=? Z.lxor pos (uchar c))%Z = true) as -> by lia.
  reflexivity.
Qed.

(** One step of the walk over a byte whose node exists and carries the
    byte as its label: a position past the length fails the call; otherwise
    a leaf-flagged node emits the value at the new position with the
    length of the prefix read so far, and the walk goes on. *)
Lemma gather_loop_step (T : Trie) (c : ascii) (rest : string)
    (i pos : Z) (s : S) :
  uchar c <> 0%Z ->
  (Z.lxor pos (uchar c) < nodes_length_ T)%Z ->
  label T (Z.lxor pos (uchar c)) = char_as_uint32 char_is_signed c ->
  gather_loop char_is_signed update_fn T (String c rest) i pos s
  = let pos1 := Z.lxor pos (uchar c) in
    let pos2 := Z.lxor pos1 (to_uint32 (offset T pos1)) in
    if (nodes_length_ T <? pos2)%Z then (false, s)
    else gather_loop char_is_signed update_fn T rest (i + 1) pos2
           (if has_leaf T pos1
            then update_fn (mkTrieMatch (value T pos2) (i + 1)) s
            else s).
Proof.
  intros Hc Hin Hlabel. simpl.
  assert ((uchar c =? 0)%Z = false) as -> by lia.
  assert ((nodes_length_ T <=? Z.lxor pos (uchar c))%Z = false) as -> by lia.
  rewrite Hlabel, Z.eqb_refl. reflexivity.
Qed.

End Steps.

(** C7. The position the walk reaches inside the loop is rejected only
    when it is greater than the node-array length. In a trie of 200 nodes
    whose node for "a" is leaf-flagged and leads to position 200, the
    lookup of "a" succeeds and reports a match whose id is read at
    position 200, behind the array; the same node leading to position 456
    makes the call fail. *)
Theorem position_at_bounds_accepted :
  Z.lxor 97 (to_uint32 (offset Fixtures.leaf_at_bounds_trie 97))
  = nodes_length_ Fixtures.leaf_at_bounds_trie
  /\ FindAllPrefixMatches false Fixtures.leaf_at_bounds_trie "a" []
     = (true, [mkTrieMatch 42 1])
  /\ FindAllPrefixMatches false Fixtures.leaf_past_bounds_trie "a" []
     = (false, []).
Proof. repeat split; vm_compute; reflexivity. Qed.

(** On a well-formed trie the matches come out at the leaf-flagged nodes,
    with the leaf's id and the length of the prefix, shortest first. *)
Example ab_trie_matches :
  FindAllPrefixMatches false Fixtures.ab_trie "abc" []
  = (true, [mkTrieMatch 7 1; mkTrieMatch 9 2])
  /\ LongestPrefixMatch false Fixtures.ab_trie "abc" (mkTrieMatch (-1) (-1))
     = (true, mkTrieMatch 9 2)
  /\ FindAllPrefixMatches false Fixtures.ab_trie "b" [] = (true, []).
Proof. repeat split; vm_compute; reflexivity. Qed.

End TrieProps.

(** ** Properties of the reflective flatbuffer *)

Module FlatbufferProps.
Import ReflectiveFlatbuffer.

Section Typing.
Context {Field : Type} `{Countable Field}.
Context {Object Variant : Type}.
Variable IsMatchingType : Object -> Field -> Variant -> bool.
Variable GetFieldOrNull : Object -> string -> option Field.
Variable table_type : Field -> option Object.
Variable field_offset : Field -> Z.

Abbreviation record :=
  (t (Field := Field) (Object := Object) (Variant := Variant)).
Abbreviation typed := (well_typed IsMatchingType).

Lemma empty_well_typed (ty : Object) : typed (mk ty ∅ ∅).
Proof.
  constructor; simpl; intros ? ?; rewrite lookup_empty; discriminate.
Qed.

Lemma Set_field_well_typed (field : option Field) (value : Variant)
    (r : record) :
  typed r -> typed (snd (Set_field IsMatchingType field value r)).
Proof.
  intros Hr. unfold Set_field. destruct field as [f|]; [|exact Hr].
  destruct (IsMatchingType (type_ r) f value) eqn:Hm; [|exact Hr].
  simpl. inversion Hr as [r0 Hfields Hchildren]; subst.
  constructor; simpl.
  - intros f' v'. rewrite lookup_insert. case_decide.
    + intros [= <-]. subst. exact Hm.
    + apply Hfields.
  - exact Hchildren.
Qed.

Lemma Set_name_well_typed (field_name : string) (value : Variant)
    (r : record) :
  typed r ->
  typed (snd (Set_name IsMatchingType GetFieldOrNull field_name value r)).
Proof.
  intros Hr. unfold Set_name.
  destruct (GetFieldOrNull (type_ r) field_name); [|exact Hr].
  apply Set_field_well_typed, Hr.
Qed.

Lemma update_at_well_typed (g : record -> record) (path : list step) :
  (forall x, typed x -> typed (g x)) ->
  forall r, typed r ->
            typed (update_at GetFieldOrNull table_type field_offset path g r).
Proof.
  intros Hg. induction path as [|st rest IH]; intros r Hr; simpl.
  - apply Hg, Hr.
  - destruct (step_field GetFieldOrNull r st) as [f|]; [|exact Hr].
    unfold Mutable_field. destruct (table_type f) as [ty|]; [|exact Hr].
    inversion Hr as [r0 Hfields Hchildren]; subst.
    destruct (children_ r !! field_offset f) as [child|] eqn:Hchild.
    + constructor; simpl; [exact Hfields|].
      intros o c. rewrite lookup_insert. case_decide.
      * intros [= <-]. apply IH. exact (Hchildren _ _ Hchild).
      * apply Hchildren.
    + constructor; simpl; [exact Hfields|].
      intros o c. rewrite lookup_insert. case_decide.
      * intros [= <-]. apply IH, empty_well_typed.
      * rewrite lookup_insert. case_decide; [congruence|]. apply Hchildren.
Qed.

Lemma run_well_typed (op : Op) (r : record) :
  typed r ->
  typed (run IsMatchingType GetFieldOrNull table_type field_offset op r).
Proof.
  intros Hr. destruct op as [path field_name value|path field value|path];
    simpl; apply update_at_well_typed; try exact Hr.
  - intros x. apply Set_name_well_typed.
  - intros x. apply Set_field_well_typed.
  - auto.
Qed.

(** C8. [Set] rejects a value whose type does not match the field: it
    returns false and leaves the record as it is; so it does for a null
    field and for a name that is not a field of the record. A [Set] that
    returns true has stored the value it was given under the field, in
    place of any earlier value, and changed nothing else. Hence every
    record built from an empty one by [Set] and [Mutable] calls, on the
    record or on its nested records, holds only values that match their
    fields. *)
Theorem Set_keeps_typing (r : record) (f : Field) (field_name : string)
    (value : Variant) :
  (IsMatchingType (type_ r) f value = false ->
   Set_field IsMatchingType (Some f) value r = (false, r))
  /\ Set_field IsMatchingType None value r = (false, r)
  /\ (GetFieldOrNull (type_ r) field_name = None ->
      Set_name IsMatchingType GetFieldOrNull field_name value r = (false, r))
  /\ (GetFieldOrNull (type_ r) field_name = Some f ->
      Set_name IsMatchingType GetFieldOrNull field_name value r
      = Set_field IsMatchingType (Some f) value r)
  /\ (forall r', Set_field IsMatchingType (Some f) value r = (true, r') ->
        IsMatchingType (type_ r) f value = true
        /\ fields_ r' !! f = Some value
        /\ (forall f', f' <> f -> fields_ r' !! f' = fields_ r !! f')
        /\ type_ r' = type_ r /\ children_ r' = children_ r)
  /\ (forall r', Set_field IsMatchingType (Some f) value r = (false, r') ->
        r' = r)
  /\ (forall (ty : Object) (ops : list Op),
        typed (fold_left
                 (fun x op =>
                    run IsMatchingType GetFieldOrNull table_type field_offset
                      op x)
                 ops (mk ty ∅ ∅))).
Proof.
  split; [|split; [|split; [|split; [|split; [|split]]]]].
  - intros Hm. unfold Set_field. rewrite Hm. reflexivity.
  - reflexivity.
  - intros Hn. unfold Set_name. rewrite Hn. reflexivity.
  - intros Hf. unfold Set_name. rewrite Hf. reflexivity.
  - intros r'. unfold Set_field.
    destruct (IsMatchingType (type_ r) f value); simpl; [|discriminate].
    intros [= <-]. simpl. split; [reflexivity|].
    split; [apply lookup_insert_eq|].
    split; [|split; reflexivity].
    intros f' Hne. apply lookup_insert_ne. congruence.
  - intros r'. unfold Set_field.
    destruct (IsMatchingType (type_ r) f value); simpl; [discriminate|].
    intros [= <-]. reflexivity.
  - intros ty ops. generalize (empty_well_typed ty).
    generalize (mk ty ∅ ∅ : record).
    induction ops as [|op ops IH]; intros x Hx; simpl; [exact Hx|].
    apply IH, run_well_typed, Hx.
Qed.

End Typing.

(** On the test schema: a boolean is stored in "done", a string is not,
    a later boolean replaces the earlier one, and a string set through
    [Mutable("owner")] lands in the nested record. *)
Example Set_on_test_schema :
  Set_name Fixtures.test_matching Fixtures.test_field "done"
    (Fixtures.StringValue "yes") Fixtures.empty_record
  = (false, Fixtures.empty_record)
  /\ fst (Set_name Fixtures.test_matching Fixtures.test_field "done"
            (Fixtures.BoolValue true) Fixtures.empty_record) = true
  /\ fields_
       (snd (Set_name Fixtures.test_matching Fixtures.test_field "done"
               (Fixtures.BoolValue false)
               (snd (Set_name Fixtures.test_matching Fixtures.test_field
                       "done" (Fixtures.BoolValue true)
                       Fixtures.empty_record))))
       !! 1%positive
     = Some (Fixtures.BoolValue false)
  /\ (children_
        (run Fixtures.test_matching Fixtures.test_field Fixtures.test_table
           Fixtures.test_offset
           (OpSetName [inl "owner"] "title" (Fixtures.StringValue "Ann"))
           Fixtures.empty_record) !! 8%Z)
     = Some (mk tt {[2%positive := Fixtures.StringValue "Ann"]} ∅).
Proof. repeat split; vm_compute; reflexivity. Qed.

End FlatbufferProps.

(** ** Further properties of annotation deduplication *)

Module DedupOrderProps.
Import ActionsSuggestions DedupOrderSpec.

Lemma ascii_compare_trans (a b c : ascii) :
  Ascii.compare a b = Lt -> Ascii.compare b c = Lt -> Ascii.compare a c = Lt.
Proof.
  unfold Ascii.compare. rewrite !N.compare_lt_iff. apply N.lt_trans.
Qed.

Lemma string_compare_trans (a : string) :
  forall b c, String.compare a b = Lt -> String.compare b c = Lt ->
              String.compare a c = Lt.
Proof.
  induction a as [|x a IH]; intros [|y b] [|z c]; simpl;
    try discriminate; try reflexivity.
  destruct (Ascii.compare x y) eqn:Hxy; try discriminate.
  - apply Ascii.compare_eq_iff in Hxy as ->.
    destruct (Ascii.compare y z) eqn:Hyz; try discriminate.
    + apply IH.
    + reflexivity.
  - intros _. destruct (Ascii.compare y z) eqn:Hyz; try discriminate.
    + apply Ascii.compare_eq_iff in Hyz as <-. rewrite Hxy. reflexivity.
    + rewrite (ascii_compare_trans _ _ _ Hxy Hyz). reflexivity.
Qed.

Lemma key_lt_trans (a b c : DedupKey) : key_lt a b -> key_lt b c -> key_lt a c.
Proof.
  destruct a as [a1 a2], b as [b1 b2], c as [c1 c2].
  unfold key_lt, key_compare. simpl.
  destruct (String.compare a1 b1) eqn:H1; try discriminate.
  - apply String.compare_eq_iff in H1 as ->.
    destruct (String.compare b1 c1); try discriminate; [|reflexivity].
    apply string_compare_trans.
  - intros _. destruct (String.compare b1 c1) eqn:H2; try discriminate.
    + apply String.compare_eq_iff in H2 as <-. rewrite H1. reflexivity.
    + rewrite (string_compare_trans _ _ _ H1 H2). reflexivity.
Qed.

Lemma key_lt_irrefl (a : DedupKey) : ~ key_lt a a.
Proof.
  unfold key_lt. rewrite DeduplicationProps.key_compare_refl. discriminate.
Qed.

Lemma key_compare_antisym (a b : DedupKey) :
  key_compare a b = CompOpp (key_compare b a).
Proof.
  destruct a as [a1 a2], b as [b1 b2]. unfold key_compare. simpl.
  rewrite (String.compare_antisym a1 b1).
  destruct (String.compare b1 a1); simpl; try reflexivity.
  apply String.compare_antisym.
Qed.

Lemma key_compare_Gt (a b : DedupKey) : key_compare a b = Gt -> key_lt b a.
Proof.
  unfold key_lt. rewrite (key_compare_antisym b a). intros ->. reflexivity.
Qed.

Lemma sorted_keys_NoDup (ks : list DedupKey) :
  StronglySorted key_lt ks -> NoDup ks.
Proof.
  induction 1 as [|k ks Hs IH Hall]; constructor; [|exact IH].
  rewrite list_elem_of_In. intros Hin. rewrite Forall_forall in Hall.
  apply (key_lt_irrefl k), Hall, list_elem_of_In, Hin.
Qed.

Lemma map_insert_sorted (k : DedupKey) (v : nat) (m : list (DedupKey * nat)) :
  map_find k m = None ->
  StronglySorted key_lt (map fst m) ->
  StronglySorted key_lt (map fst (map_insert k v m)).
Proof.
  induction m as [|[k0 v0] m IH]; intros Hnone Hs.
  - simpl. repeat constructor.
  - rewrite DeduplicationProps.map_find_cons in Hnone.
    destruct (decide (k = k0)) as [|Hne]; [discriminate|].
    simpl in Hs. apply StronglySorted_inv in Hs as [Hs Hall].
    simpl map_insert. destruct (key_compare k k0) eqn:Hc.
    + apply DeduplicationProps.key_compare_eq in Hc. contradiction.
    + simpl. constructor; [constructor; assumption|].
      constructor; [exact Hc|].
      eapply Forall_impl; [exact Hall|]. intros x Hx.
      exact (key_lt_trans _ _ _ Hc Hx).
    + simpl. constructor; [apply IH; assumption|].
      rewrite Forall_forall. intros x Hx.
      apply list_elem_of_In, DeduplicationProps.map_insert_keys in Hx
        as [-> | Hx].
      * apply key_compare_Gt, Hc.
      * rewrite Forall_forall in Hall. apply Hall, list_elem_of_In, Hx.
Qed.

Section Shape.
Context {P : Platform}.

Lemma dedup_shape_init (anns : list ActionSuggestionAnnotation) :
  dedup_shape anns 0 [].
Proof.
  split; [constructor | discriminate | intros; lia].
Qed.

Lemma dedup_shape_step (anns : list ActionSuggestionAnnotation) (i : nat)
    (a : ActionSuggestionAnnotation) (m : list (DedupKey * nat)) :
  anns !! i = Some a ->
  dedup_shape anns i m ->
  dedup_shape anns (S i)
    (match map_find (dedup_key a) m with
     | Some j =>
         match anns !! j with
         | Some kept =>
             if flt (cr_score (entity kept)) (cr_score (entity a))
             then map_assign (dedup_key a) i m else m
         | None => m
         end
     | None => map_insert (dedup_key a) i m
     end).
Proof.
  intros Hi [Hs Hentry Hseen].
  assert (forall m', (forall k, map_find k m' <> None <-> map_find k m <> None
                                \/ k = dedup_key a) ->
            forall j aj, (j < S i)%nat -> anns !! j = Some aj ->
                         map_find (dedup_key aj) m' <> None) as Hcover.
  { intros m' Hm' j aj Hj Haj. apply Hm'.
    destruct (decide (j = i)) as [->|Hne].
    - right. congruence.
    - left. apply (Hseen j); [lia | exact Haj]. }
  assert (forall k v, map_find k m = Some v ->
            (v < S i)%nat /\ exists a0, anns !! v = Some a0 /\ dedup_key a0 = k)
    as Hold.
  { intros k v Hf. destruct (Hentry k v Hf) as [Hv Ha]. split; [lia | exact Ha]. }
  destruct (map_find (dedup_key a) m) as [v|] eqn:Hfind.
  - assert (dedup_shape anns (S i) m) as Hkeep.
    { split; [exact Hs | exact Hold |].
      apply Hcover. intros k. split; [auto|].
      intros [Hk | ->]; [exact Hk | congruence]. }
    destruct (anns !! v) as [kept|]; [|exact Hkeep].
    destruct (flt (cr_score (entity kept)) (cr_score (entity a)));
      [|exact Hkeep].
    split.
    + rewrite DeduplicationProps.map_assign_keys. exact Hs.
    + intros k v'. rewrite DeduplicationProps.map_find_assign, Hfind.
      case_decide as Hk; [|apply Hold].
      simpl. intros [= <-]. subst k. split; [lia|]. exists a. auto.
    + apply Hcover. intros k.
      rewrite DeduplicationProps.map_find_assign, Hfind.
      case_decide as Hk; simpl; [|tauto].
      subst k. rewrite Hfind. split; [left; discriminate | discriminate].
  - split.
    + apply map_insert_sorted; assumption.
    + intros k v'. rewrite (DeduplicationProps.map_find_insert _ _ _ _ Hfind).
      case_decide as Hk; [|apply Hold].
      intros [= <-]. subst k. split; [lia|]. exists a. auto.
    + apply Hcover. intros k.
      rewrite (DeduplicationProps.map_find_insert _ _ _ _ Hfind).
      case_decide as Hk; [|tauto].
      split; [right; exact Hk | discriminate].
Qed.

Lemma dedup_loop_shape (anns : list ActionSuggestionAnnotation) :
  forall rest i m,
    drop i anns = rest ->
    dedup_shape anns i m ->
    dedup_shape anns (i + length rest) (dedup_loop anns i rest m).
Proof.
  intros rest. induction rest as [|a rest IH]; intros i m Hdrop Hshape.
  - simpl. rewrite Nat.add_0_r. exact Hshape.
  - assert (anns !! i = Some a) as Hi.
    { rewrite <- (Nat.add_0_r i), <- lookup_drop, Hdrop. reflexivity. }
    assert (drop (S i) anns = rest) as Hdrop'.
    { replace (S i) with (i + 1)%nat by lia.
      rewrite <- drop_drop, Hdrop. reflexivity. }
    pose proof (dedup_shape_step anns i a m Hi Hshape) as Hstep.
    simpl length.
    replace (i + S (length rest))%nat with (S i + length rest)%nat by lia.
    simpl dedup_loop.
    destruct (map_find (dedup_key a) m) as [v|].
    + destruct (anns !! v) as [kept|].
      * destruct (flt (cr_score (entity kept)) (cr_score (entity a)));
          apply IH; assumption.
      * apply IH; assumption.
    + apply IH; assumption.
Qed.

Lemma dedup_final_shape (anns : list ActionSuggestionAnnotation) :
  dedup_shape anns (length anns) (dedup_loop anns 0 anns []).
Proof.
  apply (dedup_loop_shape anns anns 0 [] (drop_0 anns) (dedup_shape_init anns)).
Qed.

Lemma sorted_lookup (ks : list DedupKey) :
  StronglySorted key_lt ks ->
  forall p q x y, (p < q)%nat -> ks !! p = Some x -> ks !! q = Some y ->
                  key_lt x y.
Proof.
  induction 1 as [|k ks Hs IH Hall]; intros p q x y Hpq Hp Hq.
  - destruct p; discriminate.
  - destruct q as [|q]; [lia|]. simpl in Hq. destruct p as [|p].
    + injection Hp as <-. rewrite Forall_forall in Hall.
      apply Hall, list_elem_of_lookup. eauto.
    + simpl in Hp. apply (IH p q); [lia | assumption | assumption].
Qed.

(** What the final map says about the ids returned. *)
Lemma dedup_ids_facts (anns : list ActionSuggestionAnnotation) :
  let m := dedup_loop anns 0 anns [] in
  StronglySorted key_lt (map fst m)
  /\ (forall k v, In (k, v) m ->
        (v < length anns)%nat
        /\ exists a, anns !! v = Some a /\ dedup_key a = k)
  /\ (forall j aj, anns !! j = Some aj ->
        exists r, In (dedup_key aj, r) m).
Proof.
  intros m. destruct (dedup_final_shape anns) as [Hs Hentry Hseen].
  fold m in Hs, Hentry, Hseen.
  split; [exact Hs|]. split.
  - intros k v Hin. apply Hentry.
    apply DeduplicationProps.In_map_find; [|exact Hin].
    apply sorted_keys_NoDup, Hs.
  - intros j aj Haj.
    assert (j < length anns)%nat as Hj by (eapply lookup_lt_Some; eauto).
    destruct (map_find (dedup_key aj) m) as [r|] eqn:Hf;
      [|exfalso; exact (Hseen j aj Hj Haj Hf)].
    exists r. apply DeduplicationProps.map_find_In, Hf.
Qed.

Lemma entries_values_NoDup (anns : list ActionSuggestionAnnotation)
    (m : list (DedupKey * nat)) :
  NoDup (map fst m) ->
  (forall k v, In (k, v) m -> exists a, anns !! v = Some a /\ dedup_key a = k) ->
  NoDup (map snd m).
Proof.
  induction m as [|[k v] m IH]; intros Hnd Hentry; [constructor|].
  simpl in *. apply NoDup_cons in Hnd as [Hk Hnd].
  rewrite list_elem_of_In in Hk. constructor.
  - rewrite list_elem_of_In. intros Hv.
    apply in_map_iff in Hv as ([k' v'] & Heq & Hin). simpl in Heq. subst v'.
    destruct (Hentry k v (or_introl eq_refl)) as (a & Ha & Hka).
    destruct (Hentry k' v (or_intror Hin)) as (a' & Ha' & Hka').
    apply Hk. assert (k = k') as -> by congruence.
    apply (in_map fst) in Hin. exact Hin.
  - apply IH; [exact Hnd|]. intros k' v' Hin. apply Hentry. right. exact Hin.
Qed.

(** X1. Whatever the scores, the ids returned address annotations, are
    pairwise distinct, hold exactly one id for every key that occurs and
    come in strictly increasing order of their keys (name first, then
    text, compared bytewise). *)
Theorem DeduplicateAnnotations_shape
    (anns : list ActionSuggestionAnnotation) :
  NoDup (DeduplicateAnnotations anns)
  /\ (forall r, In r (DeduplicateAnnotations anns) -> (r < length anns)%nat)
  /\ (forall j aj, anns !! j = Some aj ->
        exists r ar, In r (DeduplicateAnnotations anns)
                     /\ anns !! r = Some ar
                     /\ (name ar, asa_text ar) = (name aj, asa_text aj))
  /\ (forall r r' ar ar',
        In r (DeduplicateAnnotations anns) ->
        In r' (DeduplicateAnnotations anns) ->
        anns !! r = Some ar -> anns !! r' = Some ar' ->
        (name ar, asa_text ar) = (name ar', asa_text ar') -> r = r')
  /\ (forall p q rp rq ap aq,
        (p < q)%nat ->
        DeduplicateAnnotations anns !! p = Some rp ->
        DeduplicateAnnotations anns !! q = Some rq ->
        anns !! rp = Some ap -> anns !! rq = Some aq ->
        key_compare (name ap, asa_text ap) (name aq, asa_text aq) = Lt).
Proof.
  destruct (dedup_ids_facts anns) as (Hs & Hentry & Hseen).
  unfold DeduplicateAnnotations.
  set (m := dedup_loop anns 0 anns []) in *.
  pose proof (sorted_keys_NoDup _ Hs) as Hnd.
  assert (forall r, In r (map snd m) -> exists k, In (k, r) m) as Hval.
  { intros r Hr. apply in_map_iff in Hr as ([k v] & <- & Hin). eauto. }
  split; [|split; [|split; [|split]]].
  - apply (entries_values_NoDup anns); [exact Hnd|].
    intros k v Hin. apply (Hentry k v Hin).
  - intros r Hr. destruct (Hval r Hr) as (k & Hin). apply (Hentry k r Hin).
  - intros j aj Haj. destruct (Hseen j aj Haj) as (r & Hin).
    destruct (Hentry _ _ Hin) as (_ & ar & Har & Hk).
    exists r, ar. split; [|auto].
    apply in_map_iff. exists (dedup_key aj, r). auto.
  - intros r r' ar ar' Hr Hr' Har Har' Hkey.
    destruct (Hval r Hr) as (k & Hin). destruct (Hval r' Hr') as (k' & Hin').
    destruct (Hentry _ _ Hin) as (_ & a & Ha & Hk).
    destruct (Hentry _ _ Hin') as (_ & a' & Ha' & Hk').
    assert (k = k') as <- by (unfold dedup_key in *; congruence).
    apply (DeduplicationProps.In_map_find _ _ _ Hnd) in Hin, Hin'. congruence.
  - intros p q rp rq ap aq Hpq Hp Hq Hap Haq.
    rewrite list_lookup_fmap in Hp, Hq.
    destruct (m !! p) as [[kp vp]|] eqn:Hmp; [|discriminate].
    destruct (m !! q) as [[kq vq]|] eqn:Hmq; [|discriminate].
    simpl in Hp, Hq. injection Hp as ->. injection Hq as ->.
    assert (In (kp, rp) m) as Hinp
      by (apply list_elem_of_In, list_elem_of_lookup; eauto).
    assert (In (kq, rq) m) as Hinq
      by (apply list_elem_of_In, list_elem_of_lookup; eauto).
    destruct (Hentry _ _ Hinp) as (_ & a & Ha & Hk).
    destruct (Hentry _ _ Hinq) as (_ & a' & Ha' & Hk').
    assert (a = ap) as -> by congruence. assert (a' = aq) as -> by congruence.
    change (key_lt (dedup_key ap) (dedup_key aq)). rewrite Hk, Hk'.
    apply (sorted_lookup _ Hs p q); [exact Hpq| |];
      rewrite list_lookup_fmap; [rewrite Hmp | rewrite Hmq]; reflexivity.
Qed.

(** X2. When no two annotations share a key, deduplication drops nothing:
    the ids returned are all the indices, each once. *)
Theorem DeduplicateAnnotations_distinct_keys
    (anns : list ActionSuggestionAnnotation) :
  NoDup (map (fun a => (name a, asa_text a)) anns) ->
  Permutation (DeduplicateAnnotations anns) (seq 0 (length anns)).
Proof.
  intros Hkeys.
  destruct (dedup_ids_facts anns) as (Hs & Hentry & Hseen).
  unfold DeduplicateAnnotations.
  set (m := dedup_loop anns 0 anns []) in *.
  apply NoDup_Permutation.
  - apply (entries_values_NoDup anns); [apply sorted_keys_NoDup, Hs|].
    intros k v Hin. apply (Hentry k v Hin).
  - apply NoDup_seq.
  - intros r. rewrite !list_elem_of_In, in_seq. split.
    + intros Hr. apply in_map_iff in Hr as ([k v] & <- & Hin).
      destruct (Hentry _ _ Hin) as [Hlt _]. simpl. lia.
    + intros [_ Hr]. simpl in Hr.
      destruct (lookup_lt_is_Some_2 anns r Hr) as [a Ha].
      destruct (Hseen r a Ha) as (r' & Hin).
      destruct (Hentry _ _ Hin) as (_ & a' & Ha' & Hk).
      assert (r' = r) as <-.
      { eapply (NoDup_lookup (map (fun a => (name a, asa_text a)) anns));
          [exact Hkeys| |]; rewrite list_lookup_fmap.
        - rewrite Ha'. simpl. reflexivity.
        - rewrite Ha. simpl. unfold dedup_key in Hk. congruence. }
      apply in_map_iff. exists (dedup_key a, r'). auto.
Qed.

Lemma below_all_absent (x : DedupKey) (v : nat) (m : list (DedupKey * nat)) :
  Forall (fun k => key_lt k x) (map fst m) ->
  map_find x m = None /\ map_insert x v m = m ++ [(x, v)].
Proof.
  induction m as [|[k0 v0] m IH]; intros Hall; [split; reflexivity|].
  simpl in Hall. apply Forall_cons in Hall as [Hk Hall].
  destruct (IH Hall) as [Hf Hi].
  assert (key_compare x k0 = Gt) as Hgt.
  { rewrite (key_compare_antisym x k0). unfold key_lt in Hk. rewrite Hk.
    reflexivity. }
  simpl. rewrite Hgt, Hf, Hi. split; reflexivity.
Qed.

(** On annotations whose keys are already in increasing order, the loop
    appends one entry per annotation. *)
Lemma dedup_loop_sorted (anns : list ActionSuggestionAnnotation) :
  forall rest i m,
    StronglySorted key_lt (map fst m ++ map dedup_key rest) ->
    map snd (dedup_loop anns i rest m) = map snd m ++ seq i (length rest).
Proof.
  intros rest. induction rest as [|a rest IH]; intros i m Hs.
  - simpl. rewrite app_nil_r. reflexivity.
  - simpl dedup_loop.
    assert (Forall (fun k => key_lt k (dedup_key a)) (map fst m)) as Hbelow.
    { apply StronglySorted_app in Hs as (Hcross & _ & _).
      rewrite Forall_forall. intros k Hk. apply (Hcross k (dedup_key a) Hk).
      simpl. left. }
    destruct (below_all_absent (dedup_key a) i m Hbelow) as [-> ->].
    rewrite IH.
    + rewrite map_app. simpl. rewrite <- app_assoc. reflexivity.
    + rewrite map_app. simpl. rewrite <- app_assoc. exact Hs.
Qed.

Lemma representatives_keys (anns : list ActionSuggestionAnnotation)
    (m : list (DedupKey * nat)) :
  (forall k v, In (k, v) m -> exists a, anns !! v = Some a /\ dedup_key a = k) ->
  map dedup_key (omap (fun r => anns !! r) (map snd m)) = map fst m.
Proof.
  induction m as [|[k v] m IH]; intros Hentry; [reflexivity|].
  simpl. destruct (Hentry k v (or_introl eq_refl)) as (a & -> & <-).
  simpl. f_equal. apply IH. intros k' v' Hin. apply Hentry. right. exact Hin.
Qed.

(** X3. Deduplication is idempotent: run again on the annotations it has
    selected, in the order it returned them, it selects every one of them,
    in the same order. *)
Theorem DeduplicateAnnotations_idempotent
    (anns : list ActionSuggestionAnnotation) :
  length (representatives anns) = length (DeduplicateAnnotations anns)
  /\ DeduplicateAnnotations (representatives anns)
     = seq 0 (length (representatives anns)).
Proof.
  destruct (dedup_ids_facts anns) as (Hs & Hentry & _).
  assert (map dedup_key (representatives anns)
          = map fst (dedup_loop anns 0 anns [])) as Hkeys.
  { apply representatives_keys. intros k v Hin. apply (Hentry k v Hin). }
  split.
  - rewrite <- (length_map dedup_key), Hkeys. unfold DeduplicateAnnotations.
    rewrite !length_map. reflexivity.
  - unfold DeduplicateAnnotations at 1.
    rewrite (dedup_loop_sorted (representatives anns) (representatives anns) 0 []).
    + reflexivity.
    + simpl. rewrite Hkeys. exact Hs.
Qed.

End Shape.

Lemma DeduplicateAnnotations_distinct_keys_witness :
  Permutation (DeduplicateAnnotations MoreFixtures.two_days) [0; 1]%nat.
Proof.
  apply (DeduplicateAnnotations_distinct_keys MoreFixtures.two_days).
  apply NoDup_cons. split; [|apply NoDup_singleton].
  intros Hin. apply list_elem_of_singleton in Hin. discriminate.
Defined.

End DedupOrderProps.

(** ** Properties of the model invocation *)

Module ModelProps.
Import ActionsSuggestions ModelSpec.

Section ModelOutput.
Context {P : Platform}.

Lemma read_replies_smart (E : Engine) (scores : TensorView)
    (replies : list string) :
  forall i r,
    exists l, read_replies E scores i replies r = set_actions r (actions r ++ l)
              /\ Forall (is_smart_reply E) l.
Proof.
  induction replies as [|reply rest IH]; intros i r; simpl.
  - exists []. rewrite app_nil_r, RulePassProps.set_actions_actions. auto.
  - destruct (Z.of_nat (String.length reply) =? 0)%Z eqn:Hlen; [apply IH|].
    destruct (IH (S i) (push_back r
                (mkActionSuggestion reply (smart_reply_action_type (model_ E))
                   (data_at scores i) [] ""))) as (l & -> & Hl).
    eexists (_ :: l). split.
    + unfold push_back. rewrite RulePassProps.set_actions_twice. simpl.
      rewrite <- app_assoc. reflexivity.
    + constructor; [|exact Hl]. repeat split. simpl. intros ->. discriminate.
Qed.

Lemma read_actions_class (E : Engine) (actions_scores : TensorView)
    (types : list ActionTypeOptions) :
  (forall t, In t types -> In t (action_type (model_ E))) ->
  forall i r,
    exists l, read_actions actions_scores i types r
              = set_actions r (actions r ++ l)
              /\ Forall (is_action_class E) l.
Proof.
  induction types as [|t rest IH]; intros Hin i r; simpl.
  - exists []. rewrite app_nil_r, RulePassProps.set_actions_actions. auto.
  - assert (forall t', In t' rest -> In t' (action_type (model_ E))) as Hrest
      by (intros t' Ht'; apply Hin; right; exact Ht').
    destruct (enabled t) eqn:Hen; simpl; [|apply IH, Hrest].
    destruct (flt (data_at actions_scores i) (min_triggering_score t)) eqn:Hlt;
      [apply IH, Hrest|].
    destruct (IH Hrest (S i) (push_back r
                (mkActionSuggestion "" (at_name t)
                   (data_at actions_scores i) [] ""))) as (l & -> & Hl).
    eexists (_ :: l). split.
    + unfold push_back. rewrite RulePassProps.set_actions_twice. simpl.
      rewrite <- app_assoc. reflexivity.
    + constructor; [|exact Hl]. repeat split.
      exists t. simpl. split; [apply Hin; left; reflexivity | auto].
Qed.

Lemma read_predictions_step (E : Engine) (interpreter : Interpreter)
    (r : ActionsSuggestionsResponse) :
  model_step E r (read_predictions E interpreter r).
Proof.
  unfold read_predictions.
  destruct (output_filtered_sensitivity r) eqn:Hsens.
  - exists []. rewrite app_nil_r. repeat split; auto.
  - set (r1 := if negb (output_filtered_min_triggering_score r)
                  && (0 <=? output_replies (tflite_model_spec (model_ E)))%Z
               then read_replies E
                      (OutputView interpreter
                         (output_replies_scores (tflite_model_spec (model_ E))))
                      0 (Output interpreter
                           (output_replies (tflite_model_spec (model_ E)))) r
               else r).
    assert (exists l1, r1 = set_actions r (actions r ++ l1)
                       /\ Forall (is_smart_reply E) l1
                       /\ (output_filtered_min_triggering_score r = true ->
                           l1 = [])) as (l1 & Hr1 & Hl1 & Hmin).
    { unfold r1. destruct (output_filtered_min_triggering_score r); simpl.
      - exists []. rewrite app_nil_r, RulePassProps.set_actions_actions. auto.
      - destruct (0 <=? output_replies _)%Z.
        + destruct (read_replies_smart E
                      (OutputView interpreter
                         (output_replies_scores (tflite_model_spec (model_ E))))
                      (Output interpreter
                         (output_replies (tflite_model_spec (model_ E)))) 0 r)
            as (l & Hl & Hs).
          exists l. split; [exact Hl|]. split; [exact Hs | discriminate].
        + exists []. rewrite app_nil_r, RulePassProps.set_actions_actions.
          split; [reflexivity|]. split; [constructor | discriminate]. }
    assert (exists l2,
              (if (0 <=? output_actions_scores (tflite_model_spec (model_ E)))%Z
               then read_actions
                      (OutputView interpreter
                         (output_actions_scores (tflite_model_spec (model_ E))))
                      0 (action_type (model_ E)) r1
               else r1) = set_actions r1 (actions r1 ++ l2)
              /\ Forall (is_action_class E) l2) as (l2 & Hres & Hl2).
    { destruct (0 <=? output_actions_scores _)%Z.
      - apply read_actions_class. auto.
      - exists []. rewrite app_nil_r, RulePassProps.set_actions_actions. auto. }
    rewrite Hres, Hr1. exists (l1 ++ l2). simpl.
    split; [rewrite app_assoc; reflexivity|].
    split; [|split; [|split; [|split]]]; try reflexivity.
    + apply Forall_app. split.
      * eapply Forall_impl; [exact Hl1|]. tauto.
      * eapply Forall_impl; [exact Hl2|]. tauto.
    + rewrite Hsens. discriminate.
    + intros Hflag. rewrite (Hmin Hflag). exact Hl2.
Qed.

Lemma model_step_from (E : Engine) (r r' res : ActionsSuggestionsResponse) :
  actions r' = actions r ->
  output_filtered_locale_mismatch r' = output_filtered_locale_mismatch r ->
  output_filtered_low_confidence r' = output_filtered_low_confidence r ->
  model_step E r' res -> model_step E r res.
Proof.
  intros Ha Hl Hc (l & Hres & Hall & Hs & Hm & Hl' & Hc').
  exists l. rewrite <- Ha, <- Hl, <- Hc. auto 10.
Qed.

Lemma model_step_refl (E : Engine) (r : ActionsSuggestionsResponse) :
  model_step E r r.
Proof.
  exists []. rewrite app_nil_r. repeat split; auto.
Qed.

Lemma ReadModelOutput_step (E : Engine) (interpreter : Interpreter)
    (options : ActionSuggestionOptions) (r : ActionsSuggestionsResponse) :
  model_step E r (ReadModelOutput E interpreter options r).
Proof.
  assert (forall r0, actions r0 = actions r ->
            output_filtered_locale_mismatch r0
            = output_filtered_locale_mismatch r ->
            output_filtered_low_confidence r0
            = output_filtered_low_confidence r ->
            model_step E r (read_sensitivity E interpreter r0)) as Hsens.
  { intros r0 Ha Hl Hc. unfold read_sensitivity.
    destruct (0 <=? output_sensitive_topic_score _)%Z.
    - destruct (negb (is_valid _) || negb (dim _ 0 =? 1)%Z).
      + apply (model_step_from E r r0); auto using model_step_refl.
      + eapply model_step_from; [| | |apply read_predictions_step];
          simpl; assumption.
    - eapply model_step_from; [| | |apply read_predictions_step]; assumption. }
  unfold ReadModelOutput.
  destruct (0 <=? output_triggering_score _)%Z.
  - destruct (negb (is_valid _) || (size _ =? 0)%Z).
    + apply model_step_refl.
    + apply Hsens; reflexivity.
  - apply Hsens; reflexivity.
Qed.

(** X4. Reading the model output only appends to the action list. Every
    suggestion it appends is either a reply of the model, with a non-empty
    text and the smart-reply type, or an enabled action class whose score
    is not below the class's minimum; neither carries annotations or
    entity data. When the response ends with the sensitivity flag set
    nothing was appended, and when it ends with the triggering flag set no
    reply was. *)
Theorem ReadModelOutput_appends (E : Engine) (interpreter : Interpreter)
    (options : ActionSuggestionOptions) (r : ActionsSuggestionsResponse) :
  exists l,
    actions (ReadModelOutput E interpreter options r) = actions r ++ l
    /\ Forall (fun a => is_smart_reply E a \/ is_action_class E a) l
    /\ (output_filtered_sensitivity (ReadModelOutput E interpreter options r)
        = true -> l = [])
    /\ (output_filtered_min_triggering_score
          (ReadModelOutput E interpreter options r) = true ->
        Forall (fun a => response_text a = "") l).
Proof.
  destruct (ReadModelOutput_step E interpreter options r)
    as (l & Hres & Hall & Hs & Hm & _).
  exists l. split; [exact Hres|]. split; [exact Hall|]. split; [exact Hs|].
  intros Hflag. eapply Forall_impl; [exact (Hm Hflag)|].
  intros a Ha. apply Ha.
Qed.


End ModelOutput.

(** The difference of the reference times is an [int64]: 2500 ms after
    1000 ms is 1.5 s, and a difference that does not fit wraps around to a
    negative number, which [std::max] turns into 0. *)
Example time_diffs_wrap_around :
  time_diffs_from 0
    [mkConversationMessage (P := Fixtures.rational_platform) 1 "a" 1000 [] "";
     mkConversationMessage (P := Fixtures.rational_platform) 2 "b" 2500 [] ""]
  = [0%Q; 1500 / 1000]%Q
  /\ time_diffs_from 0
       [mkConversationMessage (P := Fixtures.rational_platform) 1 "a"
          (-9223372036854775807) [] "";
        mkConversationMessage (P := Fixtures.rational_platform) 2 "b" 2 [] ""]
     = [0%Q; 0%Q].
Proof. split; vm_compute; reflexivity. Qed.

End ModelProps.

(** ** Further properties of the gating pipeline *)

Module GatingProps.
Import ActionsSuggestions LocaleSpec RulePassSpec PipelineSpec GatingSpec.

Section Gating.
Context {P : Platform}.

(** *** The history clamp *)

(** X6. For a conversation with messages, the number of messages selected
    is the length of the conversation when
    [max_conversation_history_length] is negative and the smaller of the
    two otherwise; it selects that many messages. It is not positive
    exactly when the maximum is 0, and then every request fails with the
    response untouched and [SuggestActions] answers with no action. *)
Theorem history_clamp (E : Engine) (conversation : Conversation) :
  messages conversation <> [] ->
  num_messages_of E conversation
  = (if (max_conversation_history_length (model_ E) <? 0)%Z
     then Z.of_nat (length (messages conversation))
     else Z.min (Z.of_nat (length (messages conversation)))
            (max_conversation_history_length (model_ E)))
  /\ ((num_messages_of E conversation <= 0)%Z
      <-> max_conversation_history_length (model_ E) = 0%Z)
  /\ length (last_messages (num_messages_of E conversation)
               (messages conversation))
     = Z.to_nat (num_messages_of E conversation)
  /\ (max_conversation_history_length (model_ E) = 0%Z ->
      forall annotator options s,
        GatherActionsSuggestions E conversation annotator options s
        = Some (false, s))
  /\ (max_conversation_history_length (model_ E) = 0%Z ->
      forall annotator options,
        SuggestActions E conversation annotator options
        = Some (clear default_response)).
Proof.
  intros Hne.
  assert (0 < Z.of_nat (length (messages conversation)))%Z as Hlen.
  { destruct (messages conversation); [congruence | simpl; lia]. }
  assert (num_messages_of E conversation
          = (if (max_conversation_history_length (model_ E) <? 0)%Z
             then Z.of_nat (length (messages conversation))
             else Z.min (Z.of_nat (length (messages conversation)))
                    (max_conversation_history_length (model_ E)))) as Hn.
  { unfold num_messages_of.
    destruct (max_conversation_history_length (model_ E) <? 0)%Z eqn:Hneg;
      simpl; [reflexivity|].
    destruct (Z.of_nat (length (messages conversation))
              <? max_conversation_history_length (model_ E))%Z eqn:Hlt; lia. }
  assert ((num_messages_of E conversation <= 0)%Z
          <-> max_conversation_history_length (model_ E) = 0%Z) as Hzero.
  { rewrite Hn.
    destruct (max_conversation_history_length (model_ E) <? 0)%Z eqn:Hneg;
      lia. }
  assert (forall annotator options s,
            max_conversation_history_length (model_ E) = 0%Z ->
            GatherActionsSuggestions E conversation annotator options s
            = Some (false, s)) as Hfail.
  { intros annotator options s Hmax. unfold GatherActionsSuggestions.
    destruct (messages conversation) as [|m ms]; [congruence|].
    apply Hzero in Hmax.
    assert ((num_messages_of E conversation <=? 0)%Z = true) as -> by lia.
    reflexivity. }
  split; [exact Hn|]. split; [exact Hzero|]. split; [|split].
  - unfold last_messages. rewrite length_drop.
    pose proof (PipelineProps.num_messages_of_le E conversation).
    destruct (decide (num_messages_of E conversation <= 0)%Z) as [Hle|Hgt].
    + apply Hzero in Hle. rewrite Hn, Hle in *. simpl in *. lia.
    + lia.
  - intros Hmax annotator options s. apply Hfail, Hmax.
  - intros Hmax annotator options. unfold SuggestActions.
    rewrite (Hfail _ _ _ Hmax). reflexivity.
Qed.

(** *** What gathering does to the response *)

Lemma rule_actions_loop_extends (E : Engine) (h : bool) (m : FindResult)
    (ras : list RuleActionSpec) :
  forall s b s', rule_actions_loop E h m ras s = Some (b, s') -> extends s s'.
Proof.
  induction ras as [|ra ras IH]; intros s b s'; simpl.
  - intros [= <- <-]. apply PipelineProps.extends_refl.
  - destruct h.
    + destruct (entity_data_builder_ E) as [builder|]; [|discriminate].
      destruct (NewRoot builder) as [root|]; [|discriminate].
      destruct (match capturing_group ra with
                | Some gs => set_capturing_groups gs m _
                | None => _
                end) as [final|].
      * intros Hrest. eapply PipelineProps.extends_push_back, IH, Hrest.
      * intros [= <- <-]. apply PipelineProps.extends_refl.
    + intros Hrest. eapply PipelineProps.extends_push_back, IH, Hrest.
Qed.

Lemma find_loop_extends (E : Engine) (h : bool) (ras : list RuleActionSpec)
    (matcher : RegexMatcher) :
  forall s b s', find_loop E h ras matcher s = Some (b, s') -> extends s s'.
Proof.
  induction matcher as [|m later IH]; intros s b s'; simpl.
  - intros [= <- <-]. apply PipelineProps.extends_refl.
  - destruct (found m && (find_status m =? kNoError)%Z).
    + destruct (rule_actions_loop E h m ras s) as [[[|] s1]|] eqn:Hm;
        [| |discriminate].
      * intros Hrest. eapply PipelineProps.extends_trans;
          [exact (rule_actions_loop_extends _ _ _ _ _ _ _ Hm)|].
        exact (IH _ _ _ Hrest).
      * intros [= <- <-]. exact (rule_actions_loop_extends _ _ _ _ _ _ _ Hm).
    + intros [= <- <-]. apply PipelineProps.extends_refl.
Qed.

Lemma rules_loop_extends (E : Engine) (message : string)
    (rs : list CompiledRule) :
  forall s b s', rules_loop E message rs s = Some (b, s') -> extends s s'.
Proof.
  induction rs as [|r rs IH]; intros s b s'; simpl.
  - intros [= <- <-]. apply PipelineProps.extends_refl.
  - destruct (find_loop E _ _ (pattern r message) s) as [[[|] s1]|] eqn:Hr;
      [| |discriminate].
    + intros Hrest. eapply PipelineProps.extends_trans;
        [exact (find_loop_extends _ _ _ _ _ _ _ Hr)|].
      exact (IH _ _ _ Hrest).
    + intros [= <- <-]. exact (find_loop_extends _ _ _ _ _ _ _ Hr).
Qed.

Lemma SuggestActionsFromRules_extends (E : Engine)
    (conversation : Conversation) (s : ActionsSuggestionsResponse) (b : bool)
    (s' : ActionsSuggestionsResponse) :
  SuggestActionsFromRules E conversation s = Some (b, s') -> extends s s'.
Proof.
  unfold SuggestActionsFromRules.
  destruct (back (messages conversation)); [|discriminate].
  apply rules_loop_extends.
Qed.

Lemma extends_appends (r r' : ActionsSuggestionsResponse) :
  extends r r' -> appends r r'.
Proof. intros [l ->]. exists l. reflexivity. Qed.

Lemma appends_trans (r1 r2 r3 : ActionsSuggestionsResponse) :
  appends r1 r2 -> appends r2 r3 -> appends r1 r3.
Proof.
  intros [l H12] [l' H23]. exists (l ++ l'). rewrite H23, H12.
  rewrite app_assoc. reflexivity.
Qed.

Lemma extends_flags (r r' : ActionsSuggestionsResponse) :
  extends r r' ->
  output_filtered_locale_mismatch r' = output_filtered_locale_mismatch r
  /\ output_filtered_low_confidence r' = output_filtered_low_confidence r
  /\ sensitivity_score r' = sensitivity_score r
  /\ triggering_score r' = triggering_score r.
Proof. intros [l ->]. repeat split. Qed.

(** The stages after the two policy checks: the response keeps the two
    policy flags and its actions stay in front. *)
Lemma gather_from_model_keeps (E : Engine) (conversation : Conversation)
    (num_messages : Z) (options : ActionSuggestionOptions)
    (s : ActionsSuggestionsResponse) (b : bool)
    (s' : ActionsSuggestionsResponse) :
  gather_from_model E conversation num_messages options s = Some (b, s') ->
  appends s s'
  /\ output_filtered_locale_mismatch s' = output_filtered_locale_mismatch s
  /\ output_filtered_low_confidence s' = output_filtered_low_confidence s.
Proof.
  unfold gather_from_model, SuggestActionsFromModel.
  destruct (Z.of_nat (length (messages conversation)) <? num_messages)%Z;
    [discriminate|].
  assert (exists s2,
            match invoke_model E conversation num_messages with
            | Some interpreter =>
                Some (ReadModelOutput E interpreter options s)
            | None => Some s
            end = Some s2
            /\ appends s s2
            /\ output_filtered_locale_mismatch s2
               = output_filtered_locale_mismatch s
            /\ output_filtered_low_confidence s2
               = output_filtered_low_confidence s) as (s2 & -> & Ha & Hl & Hc).
  { destruct (invoke_model E conversation num_messages) as [interpreter|].
    - eexists. split; [reflexivity|].
      destruct (ModelProps.ReadModelOutput_step E interpreter options s)
        as (l & Hres & _ & _ & _ & Hl & Hc).
      split; [exists l; exact Hres | auto].
    - exists s. split; [reflexivity|]. split; [exists []|auto].
      rewrite app_nil_r. reflexivity. }
  destruct (suppress_on_sensitive_topic _ && output_filtered_sensitivity s2).
  - intros [= <- <-]. auto.
  - rewrite PipelineProps.result_eta. intros Hrules.
    apply SuggestActionsFromRules_extends in Hrules.
    destruct (extends_flags _ _ Hrules) as (Hl' & Hc' & _).
    split; [|split; congruence].
    eapply appends_trans; [exact Ha | apply extends_appends, Hrules].
Qed.

(** X7. Gathering only ever appends: whatever it returns, and also when it
    fails, the actions of the incoming response are the front part of the
    actions of the outgoing one. *)
Theorem GatherActionsSuggestions_appends (E : Engine)
    (conversation : Conversation) (annotator : option Annotator)
    (options : ActionSuggestionOptions) (s : ActionsSuggestionsResponse)
    (b : bool) (s' : ActionsSuggestionsResponse) :
  GatherActionsSuggestions E conversation annotator options s = Some (b, s') ->
  exists l, actions s' = actions s ++ l.
Proof.
  unfold GatherActionsSuggestions.
  destruct (messages conversation) as [|m ms] eqn:Hm.
  { intros [= <- <-]. exists []. rewrite app_nil_r. reflexivity. }
  destruct (num_messages_of E conversation <=? 0)%Z.
  { intros [= <- <-]. exists []. rewrite app_nil_r. reflexivity. }
  destruct (SuggestActionsFromAnnotations E conversation options annotator s)
    as [s1|] eqn:Hann; [|discriminate].
  apply PipelineProps.SuggestActionsFromAnnotations_extends, extends_appends
    in Hann.
  destruct (input_length_out_of_range E _).
  { intros [= <- <-]. exact Hann. }
  unfold gather_after_length_check. rewrite Hm.
  destruct (flt _ _).
  { intros [= <- <-]. exact Hann. }
  destruct (IsLowConfidenceInput E conversation _).
  { intros [= <- <-]. exact Hann. }
  intros Hg. apply gather_from_model_keeps in Hg as [Hg _].
  exact (appends_trans _ _ _ Hann Hg).
Qed.

(** X8. The two policy flags tell what happened. Starting from a response
    with neither flag set, a response that comes back with
    [output_filtered_locale_mismatch] or [output_filtered_low_confidence]
    set is a success, has only one of the two set, and is the response of
    the annotation pass with that flag: the model was not consulted (both
    scores are as they were) and no rule was run. *)
Theorem policy_flags_exclusive (E : Engine) (conversation : Conversation)
    (annotator : option Annotator) (options : ActionSuggestionOptions)
    (s : ActionsSuggestionsResponse) (b : bool)
    (s' : ActionsSuggestionsResponse) :
  output_filtered_locale_mismatch s = false ->
  output_filtered_low_confidence s = false ->
  GatherActionsSuggestions E conversation annotator options s = Some (b, s') ->
  output_filtered_locale_mismatch s' = true
  \/ output_filtered_low_confidence s' = true ->
  b = true
  /\ output_filtered_locale_mismatch s'
     = negb (output_filtered_low_confidence s')
  /\ sensitivity_score s' = sensitivity_score s
  /\ triggering_score s' = triggering_score s
  /\ exists r1,
       SuggestActionsFromAnnotations E conversation options annotator s
       = Some r1
       /\ actions s' = actions r1.
Proof.
  intros Hl Hc. unfold GatherActionsSuggestions.
  destruct (messages conversation) as [|m ms] eqn:Hm.
  { intros [= <- <-] [H | H]; congruence. }
  destruct (num_messages_of E conversation <=? 0)%Z.
  { intros [= <- <-] [H | H]; congruence. }
  destruct (SuggestActionsFromAnnotations E conversation options annotator s)
    as [s1|] eqn:Hann; [|discriminate].
  apply PipelineProps.SuggestActionsFromAnnotations_extends in Hann as Hext.
  destruct (extends_flags _ _ Hext) as (Hl1 & Hc1 & Hs1 & Ht1).
  destruct (input_length_out_of_range E _).
  { intros [= <- <-] [H | H]; congruence. }
  unfold gather_after_length_check. rewrite Hm.
  destruct (flt _ _).
  { intros [= <- <-] _. simpl. rewrite Hc1, Hc. eauto 10. }
  destruct (IsLowConfidenceInput E conversation _).
  { intros [= <- <-] _. simpl. rewrite Hl1, Hl. eauto 10. }
  intros Hg. apply gather_from_model_keeps in Hg as (_ & Hl2 & Hc2).
  intros [H | H]; congruence.
Qed.

(** *** Failed checks *)

Lemma missing_or_ready (E : Engine) :
  entity_data_missing E
  \/ exists builder root,
       entity_data_builder_ E = Some builder /\ NewRoot builder = Some root.
Proof.
  unfold entity_data_missing.
  destruct (entity_data_builder_ E) as [builder|]; [|left; exact I].
  destruct (NewRoot builder) as [root|] eqn:Hr; [right; eauto | left; reflexivity].
Qed.

Lemma rule_actions_loop_None (E : Engine) (h : bool) (m : FindResult)
    (ras : list RuleActionSpec) :
  forall s,
    rule_actions_loop E h m ras s = None
    <-> h = true /\ ras <> [] /\ entity_data_missing E.
Proof.
  unfold entity_data_missing.
  induction ras as [|ra ras IH]; intros s; simpl.
  - split; [discriminate | intros (_ & Hne & _); congruence].
  - destruct h.
    + destruct (entity_data_builder_ E) as [builder|]; [|intuition congruence].
      destruct (NewRoot builder) as [root|] eqn:Hr; [|intuition congruence].
      destruct (match capturing_group ra with
                | Some gs => set_capturing_groups gs m _
                | None => _
                end) as [final|].
      * rewrite IH. intuition congruence.
      * intuition congruence.
    + rewrite IH. intuition congruence.
Qed.

Lemma rule_actions_loop_false (E : Engine) (h : bool) (m : FindResult)
    (ras : list RuleActionSpec) :
  forall s s', rule_actions_loop E h m ras s = Some (false, s') ->
               ~ entity_data_missing E.
Proof.
  unfold entity_data_missing.
  induction ras as [|ra ras IH]; intros s s'; simpl; [discriminate|].
  destruct h.
  - destruct (entity_data_builder_ E) as [builder|]; [|discriminate].
    destruct (NewRoot builder) as [root|] eqn:Hr; [|discriminate].
    intros _. congruence.
  - apply IH.
Qed.

Lemma find_loop_None (E : Engine) (h : bool) (ras : list RuleActionSpec)
    (matcher : RegexMatcher) :
  forall s,
    find_loop E h ras matcher s = None
    <-> h = true /\ ras <> [] /\ entity_data_missing E
        /\ matches_of matcher <> [].
Proof.
  induction matcher as [|m later IH]; intros s; simpl.
  - split; [discriminate | intros (_ & _ & _ & Hne); congruence].
  - destruct (found m && (find_status m =? kNoError)%Z).
    + destruct (rule_actions_loop E h m ras s) as [[[|] s1]|] eqn:Hm.
      * rewrite IH. split; [intros (? & ? & Hmiss & ?)|intros (? & ? & Hmiss & ?)].
        -- auto.
        -- exfalso.
           assert (rule_actions_loop E h m ras s = None) as Hn
             by (apply rule_actions_loop_None; auto).
           congruence.
      * split; [discriminate|]. intros (_ & _ & Hmiss & _).
        exfalso. exact (rule_actions_loop_false _ _ _ _ _ _ Hm Hmiss).
      * apply rule_actions_loop_None in Hm as (? & ? & ?). split; [|reflexivity].
        intros _. auto.
    + split; [discriminate | intros (_ & _ & _ & Hne); congruence].
Qed.

Lemma find_loop_false (E : Engine) (h : bool) (ras : list RuleActionSpec)
    (matcher : RegexMatcher) :
  forall s s', find_loop E h ras matcher s = Some (false, s') ->
               ~ entity_data_missing E.
Proof.
  induction matcher as [|m later IH]; intros s s'; simpl; [discriminate|].
  destruct (found m && (find_status m =? kNoError)%Z); [|discriminate].
  destruct (rule_actions_loop E h m ras s) as [[[|] s1]|] eqn:Hm;
    [apply IH| |discriminate].
  intros _. exact (rule_actions_loop_false _ _ _ _ _ _ Hm).
Qed.

Lemma HasEntityData_actions (r : Rule) :
  HasEntityData r = true -> rule_actions r <> [].
Proof.
  unfold HasEntityData. destruct (rule_actions r); [discriminate | congruence].
Qed.

Lemma rules_loop_None (E : Engine) (message : string) (rs : list CompiledRule) :
  forall s,
    rules_loop E message rs s = None
    <-> entity_data_missing E
        /\ exists r, In r rs /\ HasEntityData (rule r) = true
                     /\ matches_of (pattern r message) <> [].
Proof.
  induction rs as [|r rs IH]; intros s; simpl.
  - split; [discriminate | intros (_ & r & [] & _)].
  - destruct (find_loop E _ _ (pattern r message) s) as [[[|] s1]|] eqn:Hr.
    + rewrite IH. split.
      * intros (Hmiss & r' & Hin & Hrest). split; [exact Hmiss|].
        exists r'. auto.
      * intros (Hmiss & r' & [<- | Hin] & Hh & Hm).
        -- exfalso.
           assert (find_loop E (HasEntityData (rule r)) (rule_actions (rule r))
                     (pattern r message) s = None) as Hn.
           { apply find_loop_None. auto using HasEntityData_actions. }
           congruence.
        -- split; [exact Hmiss|]. exists r'. auto.
    + split; [discriminate|]. intros (Hmiss & _).
      exfalso. exact (find_loop_false _ _ _ _ _ _ Hr Hmiss).
    + apply find_loop_None in Hr as (Hh & _ & Hmiss & Hm).
      split; [|reflexivity]. intros _. split; [exact Hmiss|].
      exists r. auto.
Qed.

(** X9. The rule pass runs into a failed [TC3_CHECK] exactly when the
    entity-data builder is missing or yields no root and some rule that
    declares entity data has a match in the last message. *)
Theorem SuggestActionsFromRules_aborts (E : Engine)
    (conversation : Conversation) (last_message : ConversationMessage)
    (s : ActionsSuggestionsResponse) :
  back (messages conversation) = Some last_message ->
  (SuggestActionsFromRules E conversation s = None
   <-> entity_data_missing E
       /\ exists r, In r (rules_ E) /\ HasEntityData (rule r) = true
                    /\ matches_of (pattern r (text last_message)) <> []).
Proof.
  intros Hback. unfold SuggestActionsFromRules. rewrite Hback.
  apply rules_loop_None.
Qed.

Lemma back_is_Some {A : Type} (x : A) (l : list A) : is_Some (back (x :: l)).
Proof.
  revert x. induction l as [|y l IH]; intros x; simpl; [eauto | apply IH].
Qed.

Lemma create_for_ids_defined (E : Engine) (message_index : Z)
    (anns : list ActionSuggestionAnnotation) (ids : list nat) :
  (forall r, In r ids -> (r < length anns)%nat) ->
  forall s, is_Some (create_for_ids E message_index anns ids s).
Proof.
  induction ids as [|r ids IH]; intros Hrange s; simpl; [eauto|].
  destruct (lookup_lt_is_Some_2 anns r (Hrange r (or_introl eq_refl)))
    as [a ->].
  apply IH. intros r' Hr'. apply Hrange. right. exact Hr'.
Qed.

Lemma SuggestActionsFromAnnotations_defined (E : Engine)
    (conversation : Conversation) (options : ActionSuggestionOptions)
    (annotator : option Annotator) (s : ActionsSuggestionsResponse) :
  messages conversation <> [] ->
  is_Some (SuggestActionsFromAnnotations E conversation options annotator s).
Proof.
  intros Hne. unfold SuggestActionsFromAnnotations.
  destruct (annotation_actions_spec (model_ E)) as [spec|]; [|eauto].
  destruct (annotation_mapping spec) as [[|mapping mappings]|]; eauto.
  destruct (messages conversation) as [|m ms] eqn:Hm; [congruence|].
  destruct (back_is_Some m ms) as [last_message ->].
  destruct (deduplicate_annotations spec); [|eauto].
  apply create_for_ids_defined. intros r Hr.
  destruct (DedupOrderProps.dedup_ids_facts
              (action_annotations_of (text last_message)
                 (Z.of_nat (length (m :: ms)) - 1)
                 (match annotations last_message, annotator with
                  | [], Some annotate =>
                      annotate (text last_message) (annotation_options options)
                  | _, _ => annotations last_message
                  end))) as (_ & Hentry & _).
  unfold DeduplicateAnnotations in Hr.
  apply in_map_iff in Hr as ([k v] & <- & Hin).
  apply (Hentry k v Hin).
Qed.

Lemma read_replies_elements (E : Engine) (scores : TensorView)
    (replies : list string) :
  forall i r,
    (forall j reply, replies !! j = Some reply -> reply <> "" ->
                     (i + j < length (data scores))%nat) ->
    exists l,
      actions (read_replies E scores i replies r) = actions r ++ l
      /\ Forall (fun a => In (score a) (data scores)) l.
Proof.
  induction replies as [|reply rest IH]; intros i r Hrange; simpl.
  - exists []. rewrite app_nil_r. auto.
  - assert (forall j reply', rest !! j = Some reply' -> reply' <> "" ->
                             (S i + j < length (data scores))%nat) as Hrest.
    { intros j reply' Hj Hne. specialize (Hrange (S j) reply' Hj Hne). lia. }
    destruct (Z.of_nat (String.length reply) =? 0)%Z eqn:Hlen;
      [apply IH, Hrest|].
    assert (reply <> "") as Hne by (intros ->; discriminate).
    specialize (Hrange 0%nat reply eq_refl Hne).
    destruct (IH (S i) (push_back r
                (mkActionSuggestion reply (smart_reply_action_type (model_ E))
                   (data_at scores i) [] "")) Hrest) as (l & Hl & Hall).
    eexists (_ :: l). split.
    + rewrite Hl. simpl. rewrite <- app_assoc. reflexivity.
    + constructor; [|exact Hall]. simpl. apply nth_In. lia.
Qed.

Lemma read_actions_elements (actions_scores : TensorView)
    (types : list ActionTypeOptions) :
  forall i r,
    (forall j t, types !! j = Some t -> enabled t = true ->
                 (i + j < length (data actions_scores))%nat) ->
    exists l,
      actions (read_actions actions_scores i types r) = actions r ++ l
      /\ Forall (fun a => In (score a) (data actions_scores)) l.
Proof.
  induction types as [|t rest IH]; intros i r Hrange; simpl.
  - exists []. rewrite app_nil_r. auto.
  - assert (forall j t', rest !! j = Some t' -> enabled t' = true ->
                         (S i + j < length (data actions_scores))%nat)
      as Hrest.
    { intros j t' Hj Hen. specialize (Hrange (S j) t' Hj Hen). lia. }
    destruct (enabled t) eqn:Hen; simpl; [|apply IH, Hrest].
    destruct (flt (data_at actions_scores i) (min_triggering_score t));
      [apply IH, Hrest|].
    specialize (Hrange 0%nat t eq_refl Hen).
    destruct (IH (S i) (push_back r
                (mkActionSuggestion "" (at_name t)
                   (data_at actions_scores i) [] "")) Hrest)
      as (l & Hl & Hall).
    eexists (_ :: l). split.
    + rewrite Hl. simpl. rewrite <- app_assoc. reflexivity.
    + constructor; [|exact Hall]. simpl. apply nth_In. lia.
Qed.

Lemma read_predictions_elements (E : Engine) (interpreter : Interpreter)
    (r : ActionsSuggestionsResponse) :
  reads_in_range E interpreter ->
  exists l,
    actions (read_predictions E interpreter r) = actions r ++ l
    /\ Forall (score_read_from E interpreter) l.
Proof.
  intros (_ & Hreplies & Hclasses). unfold read_predictions.
  destruct (output_filtered_sensitivity r);
    [exists []; rewrite app_nil_r; auto|].
  set (r1 := if negb (output_filtered_min_triggering_score r)
                && (0 <=? output_replies (tflite_model_spec (model_ E)))%Z
             then read_replies E
                    (OutputView interpreter
                       (output_replies_scores (tflite_model_spec (model_ E))))
                    0 (Output interpreter
                         (output_replies (tflite_model_spec (model_ E)))) r
             else r).
  assert (exists l1, actions r1 = actions r ++ l1
                     /\ Forall (score_read_from E interpreter) l1)
    as (l1 & Hr1 & Hl1).
  { unfold r1.
    destruct (negb (output_filtered_min_triggering_score r)
              && (0 <=? output_replies (tflite_model_spec (model_ E)))%Z);
      [|exists []; rewrite app_nil_r; auto].
    destruct (read_replies_elements E
                (OutputView interpreter
                   (output_replies_scores (tflite_model_spec (model_ E))))
                (Output interpreter
                   (output_replies (tflite_model_spec (model_ E)))) 0 r)
      as (l & Hl & Hall).
    { intros j reply Hj Hne. exact (proj2 (Hreplies j reply Hj Hne)). }
    exists l. split; [exact Hl|].
    eapply List.Forall_impl; [|exact Hall]. intros a Ha. left. exact Ha. }
  assert (exists l2,
            actions
              (if (0 <=? output_actions_scores (tflite_model_spec (model_ E)))%Z
               then read_actions
                      (OutputView interpreter
                         (output_actions_scores (tflite_model_spec (model_ E))))
                      0 (action_type (model_ E)) r1
               else r1) = actions r1 ++ l2
            /\ Forall (score_read_from E interpreter) l2)
    as (l2 & Hres & Hl2).
  { destruct (0 <=? output_actions_scores (tflite_model_spec (model_ E)))%Z;
      [|exists []; rewrite app_nil_r; auto].
    destruct (read_actions_elements
                (OutputView interpreter
                   (output_actions_scores (tflite_model_spec (model_ E))))
                (action_type (model_ E)) 0 r1) as (l & Hl & Hall).
    { intros j t Hj Hen. exact (proj2 (Hclasses j t Hj Hen)). }
    exists l. split; [exact Hl|].
    eapply List.Forall_impl; [|exact Hall]. intros a Ha. right. exact Ha. }
  exists (l1 ++ l2). rewrite Hres, Hr1, <- app_assoc.
  split; [reflexivity|]. apply Forall_app. split; assumption.
Qed.

Lemma ReadModelOutput_elements (E : Engine) (interpreter : Interpreter)
    (options : ActionSuggestionOptions) (r : ActionsSuggestionsResponse) :
  reads_in_range E interpreter ->
  exists l,
    actions (ReadModelOutput E interpreter options r) = actions r ++ l
    /\ Forall (score_read_from E interpreter) l.
Proof.
  intros Hrange.
  assert (forall r0, actions r0 = actions r ->
            exists l,
              actions (read_sensitivity E interpreter r0) = actions r ++ l
              /\ Forall (score_read_from E interpreter) l) as Hsens.
  { intros r0 Ha. unfold read_sensitivity. rewrite <- Ha.
    destruct (0 <=? output_sensitive_topic_score _)%Z.
    - destruct (negb (is_valid _) || negb (dim _ 0 =? 1)%Z).
      + exists []. rewrite app_nil_r. auto.
      + apply (read_predictions_elements E interpreter
                 (set_sensitivity r0 _ _) Hrange).
    - apply (read_predictions_elements E interpreter r0 Hrange). }
  unfold ReadModelOutput.
  destruct (0 <=? output_triggering_score _)%Z.
  - destruct (negb (is_valid _) || (size _ =? 0)%Z).
    + exists []. rewrite app_nil_r. auto.
    + apply Hsens. reflexivity.
  - apply Hsens. reflexivity.
Qed.

(** X10. With an engine that can build the entity data its rules ask for
    and whose model runs put out score tensors that hold every element
    [ReadModelOutput] reads, gathering and [SuggestActions] always come
    back with a response: no [TC3_CHECK] fails, [back()] is never called
    on an empty conversation, and every score [ReadModelOutput] puts into
    a suggestion is an element of the tensor it was read from. The
    unchecked reads of the score tensors are the one other way the code
    can go wrong; the second hypothesis excludes them. *)
Theorem SuggestActions_returns (E : Engine) (conversation : Conversation)
    (annotator : option Annotator) (options : ActionSuggestionOptions) :
  entity_data_ready E ->
  model_output_in_range E ->
  (forall s, is_Some (GatherActionsSuggestions E conversation annotator
                        options s))
  /\ is_Some (SuggestActions E conversation annotator options)
  /\ (forall executor input interpreter r,
        model_executor_ E = Some executor ->
        Invoke executor input = Some interpreter ->
        exists l,
          actions (ReadModelOutput E interpreter options r) = actions r ++ l
          /\ Forall (score_read_from E interpreter) l).
Proof.
  intros Hready Hrange.
  cut ((forall s, is_Some (GatherActionsSuggestions E conversation annotator
                             options s))
       /\ is_Some (SuggestActions E conversation annotator options)).
  { intros [Hg Hs]. split; [exact Hg|]. split; [exact Hs|].
    intros executor input interpreter r Hexecutor Hinvoke.
    apply ReadModelOutput_elements.
    exact (Hrange executor input interpreter Hexecutor Hinvoke). }
  clear Hrange.
  assert (forall s, is_Some (GatherActionsSuggestions E conversation annotator
                               options s)) as Hg.
  { intros s. unfold GatherActionsSuggestions.
    destruct (messages conversation) as [|m ms] eqn:Hm; [eauto|].
    destruct (num_messages_of E conversation <=? 0)%Z; [eauto|].
    destruct (SuggestActionsFromAnnotations_defined E conversation options
                annotator s) as [s1 ->]; [congruence|].
    destruct (input_length_out_of_range E _); [eauto|].
    unfold gather_after_length_check. rewrite Hm.
    destruct (flt _ _); [eauto|].
    destruct (IsLowConfidenceInput E conversation _); [eauto|].
    unfold gather_from_model, SuggestActionsFromModel.
    pose proof (PipelineProps.num_messages_of_le E conversation) as Hle.
    destruct (Z.of_nat (length (messages conversation))
              <? num_messages_of E conversation)%Z eqn:Hlt; [lia|].
    set (s2 := match invoke_model E conversation _ with
               | Some interpreter => _
               | None => _
               end).
    assert (exists s2', s2 = Some s2') as [s2' ->]
      by (unfold s2; destruct (invoke_model E conversation _); eauto).
    cbv beta iota.
    destruct (suppress_on_sensitive_topic (preconditions (model_ E))
              && output_filtered_sensitivity s2'); [eauto|].
    rewrite PipelineProps.result_eta.
    destruct (SuggestActionsFromRules E conversation s2') as [res|] eqn:Hrules;
      [eauto|].
    exfalso.
    destruct (back (messages conversation)) as [last_message|] eqn:Hback.
    - unfold SuggestActionsFromRules in Hrules. rewrite Hback in Hrules.
      destruct (proj1 (rules_loop_None E (text last_message) (rules_ E) s2')
                  Hrules) as (Hmiss & r & Hin & Hh & _).
      destruct Hready as [Hnone | (builder & root & Hb & Hr)].
      + rewrite (Hnone r Hin) in Hh. discriminate.
      + unfold entity_data_missing in Hmiss. rewrite Hb in Hmiss. congruence.
    - rewrite Hm in Hback. destruct (back_is_Some m ms) as [x Hx]. congruence. }
  split; [exact Hg|].
  unfold SuggestActions. destruct (Hg default_response) as [[[|] r] ->].
  - destruct (RankActions (ranker_ E) r) as [[|] ranked]; eauto.
  - eauto.
Qed.

(** *** The locale check *)

Lemma num_matching_locales_count (E : Engine)
    (selected : list ConversationMessage) :
  num_matching_locales E selected
  = Z.of_nat (length (List.filter (locale_counts E) selected)).
Proof.
  unfold num_matching_locales.
  assert (forall acc,
            fold_left
              (fun acc (m : ConversationMessage) =>
                 match ParseLocales (locales m) with
                 | Some message_locales =>
                     if IsAnyLocaleSupportedByModel E message_locales
                     then (acc + 1)%Z else acc
                 | None => acc
                 end) selected acc
            = (acc + Z.of_nat (length (List.filter (locale_counts E)
                                         selected)))%Z) as Hgen.
  { induction selected as [|m rest IH]; intros acc; simpl; [lia|].
    rewrite IH. unfold locale_counts at 2.
    destruct (ParseLocales (locales m)) as [ls|]; [|lia].
    destruct (IsAnyLocaleSupportedByModel E ls); simpl; lia. }
  rewrite Hgen. lia.
Qed.

(** X11. The number of matching locales counts the selected messages whose
    locale string parses and holds a supported locale, each once: it lies
    between 0 and the number of selected messages, and a message whose
    locale string does not parse is never counted. *)
Theorem num_matching_locales_spec (E : Engine)
    (selected : list ConversationMessage) :
  num_matching_locales E selected
  = Z.of_nat (length (List.filter (locale_counts E) selected))
  /\ (0 <= num_matching_locales E selected <= Z.of_nat (length selected))%Z
  /\ ((forall m, In m selected -> ParseLocales (locales m) = None) ->
      num_matching_locales E selected = 0%Z).
Proof.
  rewrite num_matching_locales_count. split; [reflexivity|]. split.
  - pose proof (List.filter_length_le (locale_counts E) selected). lia.
  - intros Hnone.
    replace (List.filter (locale_counts E) selected)
      with (@nil ConversationMessage); [reflexivity|].
    induction selected as [|m rest IH]; [reflexivity|].
    simpl. unfold locale_counts at 1.
    rewrite (Hnone m (or_introl eq_refl)).
    apply IH. intros m' Hm'. apply Hnone. right. exact Hm'.
Qed.

(** X12. A valid declared locale whose language, script and region are each
    empty or the wildcard makes every valid, known locale supported; an
    engine whose declared locales are all invalid supports no valid, known
    locale. *)
Theorem open_model_locale (E : Engine) (locale : Locale) :
  IsValid locale = true ->
  IsUnknown locale = false ->
  ((exists m, In m (locales_ E) /\ IsValid m = true
              /\ open_field (Language m) /\ open_field (Script m)
              /\ open_field (Region m)) ->
   IsLocaleSupportedByModel E locale = true)
  /\ ((forall m, In m (locales_ E) -> IsValid m = false) ->
      IsLocaleSupportedByModel E locale = false).
Proof.
  intros Hvalid Hknown. unfold IsLocaleSupportedByModel.
  rewrite Hvalid, Hknown. simpl. split.
  - intros (m & Hin & Hm & Hl & Hs & Hr).
    apply LocaleProps.any_model_locale_matches_exists. exists m.
    split; [exact Hin|]. apply LocaleProps.single_model_locale.
    split; [exact Hm|]. unfold open_field in *.
    unfold spec_locale_matches, spec_field_matches. tauto.
  - intros Hall.
    destruct (any_model_locale_matches (locales_ E) locale) eqn:Hany;
      [|reflexivity].
    apply LocaleProps.any_model_locale_matches_exists in Hany
      as (m & Hin & Hm).
    apply LocaleProps.single_model_locale in Hm as [Hm _].
    rewrite (Hall m Hin) in Hm. discriminate.
Qed.

(** X13. A list of locales is supported exactly when it is empty and
    missing locales count as supported, or it holds a valid locale that is
    either unknown, with unknown locales counting as supported, or known
    and matched by a valid declared locale. Invalid locales never count. *)
Theorem IsAnyLocaleSupportedByModel_spec (E : Engine) (ls : list Locale) :
  IsAnyLocaleSupportedByModel E ls = true
  <-> (ls = []
       /\ handle_missing_locale_as_supported (preconditions (model_ E)) = true)
      \/ exists l, In l ls /\ IsValid l = true
           /\ ((IsUnknown l = true
                /\ handle_unknown_locale_as_supported
                     (preconditions (model_ E)) = true)
               \/ (IsUnknown l = false
                   /\ exists m, In m (locales_ E) /\ IsValid m = true
                                /\ spec_locale_matches m l)).
Proof.
  assert (forall l,
            IsLocaleSupportedByModel E l = true
            <-> IsValid l = true
                /\ ((IsUnknown l = true
                     /\ handle_unknown_locale_as_supported
                          (preconditions (model_ E)) = true)
                    \/ (IsUnknown l = false
                        /\ exists m, In m (locales_ E) /\ IsValid m = true
                                     /\ spec_locale_matches m l))) as Hone.
  { intros l. unfold IsLocaleSupportedByModel.
    destruct (IsValid l); simpl; [|intuition congruence].
    destruct (IsUnknown l); [intuition congruence|].
    rewrite LocaleProps.any_model_locale_matches_exists. split.
    - intros (m & Hin & Hm). apply LocaleProps.single_model_locale in Hm.
      split; [reflexivity|]. right. split; [reflexivity|]. exists m. tauto.
    - intros [_ [[? _] | [_ (m & Hin & Hm)]]]; [discriminate|].
      exists m. split; [exact Hin|]. apply LocaleProps.single_model_locale.
      exact Hm. }
  destruct ls as [|l0 ls].
  - simpl. split.
    + intros Hflag. left. auto.
    + intros [[_ Hflag] | (l & [] & _)]. exact Hflag.
  - unfold IsAnyLocaleSupportedByModel. rewrite existsb_exists. split.
    + intros (l & Hin & Hl). right. exists l. split; [exact Hin|].
      apply Hone, Hl.
    + intros [[Hnil _] | (l & Hin & Hl)]; [discriminate|].
      exists l. split; [exact Hin|]. apply Hone. exact Hl.
Qed.

(** *** Low-confidence input *)

(** X14. Only the selected messages are looked at: messages older than the
    last [num_messages] never make the input low-confidence. The input is
    low-confidence exactly when, for one of the selected messages, the
    first [Find] of some low-confidence rule reports a match and no
    error; a matcher that fails on its first [Find] counts as no match. *)
Theorem IsLowConfidenceInput_spec (E : Engine)
    (older recent : list ConversationMessage) :
  IsLowConfidenceInput E (mkConversation (older ++ recent))
    (Z.of_nat (length recent))
  = IsLowConfidenceInput E (mkConversation recent) (Z.of_nat (length recent))
  /\ (IsLowConfidenceInput E (mkConversation (older ++ recent))
        (Z.of_nat (length recent)) = true
      <-> exists m r first later,
            In m recent /\ In r (low_confidence_rules_ E)
            /\ pattern r (text m) = first :: later
            /\ found first = true /\ find_status first = kNoError).
Proof.
  assert (last_messages (Z.of_nat (length recent)) (older ++ recent) = recent)
    as Hsel.
  { unfold last_messages. rewrite length_app.
    replace (Z.to_nat (Z.of_nat (length older + length recent)
                       - Z.of_nat (length recent))) with (length older) by lia.
    apply drop_app_length. }
  assert (last_messages (Z.of_nat (length recent)) recent = recent) as Hsel'.
  { unfold last_messages.
    replace (Z.to_nat (Z.of_nat (length recent) - Z.of_nat (length recent)))
      with 0%nat by lia.
    reflexivity. }
  unfold IsLowConfidenceInput. simpl. rewrite Hsel, Hsel'.
  split; [reflexivity|].
  rewrite existsb_exists. split.
  - intros (m & Hin & Hm). apply in_rev in Hin.
    apply existsb_exists in Hm as (r & Hr & Hfind).
    unfold rule_finds in Hfind.
    destruct (pattern r (text m)) as [|first later] eqn:Hp; [discriminate|].
    apply andb_true_iff in Hfind as [Hf Hs].
    exists m, r, first, later. repeat split; try assumption. lia.
  - intros (m & r & first & later & Hin & Hr & Hp & Hf & Hs).
    exists m. split; [apply in_rev in Hin; exact Hin|].
    apply existsb_exists. exists r. split; [exact Hr|].
    unfold rule_finds. rewrite Hp, Hf, Hs. reflexivity.
Qed.

End Gating.

Lemma history_clamp_witness :
  num_messages_of Fixtures.time_engine Fixtures.meet_at_5pm = 1%Z.
Proof.
  assert (messages Fixtures.meet_at_5pm <> []) as Hne by discriminate.
  destruct (history_clamp Fixtures.time_engine Fixtures.meet_at_5pm Hne)
    as [Hn _].
  rewrite Hn. reflexivity.
Defined.

Lemma GatherActionsSuggestions_appends_witness :
  exists l,
    actions
      (set_actions default_response
         [mkActionSuggestion (P := Fixtures.rational_platform)
            "" "create_event" (9 # 10) [] ""])
    = actions (default_response (P := Fixtures.rational_platform)) ++ l.
Proof.
  apply (GatherActionsSuggestions_appends Fixtures.time_engine
           Fixtures.meet_at_5pm None Fixtures.default_options
           default_response true).
  reflexivity.
Defined.

Lemma policy_flags_exclusive_witness :
  output_filtered_low_confidence
    (set_output_filtered_locale_mismatch
       (default_response (P := Fixtures.rational_platform)))
  = false.
Proof.
  destruct (policy_flags_exclusive MoreFixtures.strict_locale_engine
              MoreFixtures.treffen_um_5pm None Fixtures.default_options
              default_response true
              (set_output_filtered_locale_mismatch default_response)
              eq_refl eq_refl eq_refl (or_introl eq_refl))
    as (_ & Hflags & _).
  exact (proj1 (negb_true_iff _) (eq_sym Hflags)).
Defined.

Lemma SuggestActionsFromRules_aborts_witness :
  SuggestActionsFromRules MoreFixtures.no_builder_engine
    Fixtures.meet_at_5pm default_response = None.
Proof.
  apply (SuggestActionsFromRules_aborts MoreFixtures.no_builder_engine
           Fixtures.meet_at_5pm (Fixtures.message "Let's meet at 5pm")
           default_response eq_refl).
  split; [exact I|]. exists MoreFixtures.payload_rule.
  split; [left; reflexivity|]. split; [reflexivity | discriminate].
Defined.

Lemma SuggestActions_returns_witness :
  is_Some (SuggestActions (Fixtures.model_engine 0 (-1) false (1 # 10))
             Fixtures.tomorrow_at_5pm None Fixtures.default_options).
Proof.
  apply (SuggestActions_returns (Fixtures.model_engine 0 (-1) false (1 # 10))
           Fixtures.tomorrow_at_5pm None Fixtures.default_options).
  - right. eexists _, _. split; reflexivity.
  - intros executor input interpreter [= <-] [= <-].
    split; [discriminate|]. split.
    + intros [|i] reply Hi Hreply; [|destruct i; discriminate].
      split; [reflexivity | simpl; lia].
    + intros [|i] t Hi Ht; [|destruct i; discriminate].
      split; [reflexivity | simpl; lia].
Defined.

Lemma open_model_locale_witness :
  IsLocaleSupportedByModel MoreFixtures.any_locale_engine
    (mkLocale "zh" "Hans" "CN" true false) = true.
Proof.
  apply (open_model_locale MoreFixtures.any_locale_engine
           (mkLocale "zh" "Hans" "CN" true false) eq_refl eq_refl).
  exists (mkLocale "*" "" "" true false).
  split; [left; reflexivity|]. split; [reflexivity|].
  unfold open_field. simpl. auto.
Defined.

End GatingProps.

(** ** Properties of the annotation pass *)

Module AnnotationProps.
Import ActionsSuggestions DedupOrderSpec AnnotationSpec.

Section Mapping.
Context {P : Platform}.

Lemma create_actions_loop_mapped (mappings : list AnnotationMapping)
    (a : ActionSuggestionAnnotation) :
  forall s,
    create_actions_loop mappings a s
    = set_actions s
        (actions s
         ++ map (fun mapping => mapped_action mapping a)
              (List.filter (fun mapping => mapping_applies mapping a) mappings)).
Proof.
  induction mappings as [|mapping rest IH]; intros s; simpl.
  - rewrite app_nil_r, RulePassProps.set_actions_actions. reflexivity.
  - unfold mapping_applies at 1.
    destruct (collection (entity a) =? annotation_collection mapping); simpl;
      [|apply IH].
    destruct (flt (cr_score (entity a)) (min_annotation_score mapping)); simpl;
      [apply IH|].
    rewrite IH. unfold push_back. rewrite RulePassProps.set_actions_twice.
    simpl. rewrite <- app_assoc. simpl. unfold mapped_action at 2.
    destruct (spec_serialized_entity_data (mapping_action mapping));
      reflexivity.
Qed.

(** X15. For one candidate the mapping table is scanned in order and every
    entry whose collection equals the candidate's and whose minimum score
    the candidate reaches makes exactly one suggestion, so one candidate
    can give several. Each carries the candidate as its only annotation,
    an empty response text, the entry's action type, the candidate's score
    or the entry's fixed score as the entry says, and the entry's entity
    data or the empty string. *)
Theorem CreateActionsFromAnnotation_spec (E : Engine) (message_index : Z)
    (a : ActionSuggestionAnnotation) (s : ActionsSuggestionsResponse) :
  CreateActionsFromAnnotation E message_index a s
  = set_actions s (actions s ++ mapped_actions E a)
  /\ (length (mapped_actions E a) <= length (annotation_mappings E))%nat
  /\ (forall x, In x (mapped_actions E a) ->
        exists mapping,
          In mapping (annotation_mappings E)
          /\ collection (entity a) = annotation_collection mapping
          /\ flt (cr_score (entity a)) (min_annotation_score mapping) = false
          /\ x = mapped_action mapping a).
Proof.
  split; [|split].
  - apply create_actions_loop_mapped.
  - unfold mapped_actions. rewrite length_map. apply List.filter_length_le.
  - intros x Hx. unfold mapped_actions in Hx.
    apply in_map_iff in Hx as (mapping & <- & Hin).
    apply filter_In in Hin as [Hin Happ]. unfold mapping_applies in Happ.
    apply andb_true_iff in Happ as [Hc Hs].
    apply String.eqb_eq in Hc. apply negb_true_iff in Hs.
    exists mapping. auto.
Qed.

Lemma fold_create_mapped (E : Engine) (message_index : Z)
    (anns : list ActionSuggestionAnnotation) :
  forall s,
    fold_left (fun r a => CreateActionsFromAnnotation E message_index a r)
      anns s
    = set_actions s (actions s ++ flat_map (mapped_actions E) anns).
Proof.
  induction anns as [|a rest IH]; intros s; simpl.
  - rewrite app_nil_r, RulePassProps.set_actions_actions. reflexivity.
  - rewrite IH. unfold CreateActionsFromAnnotation.
    rewrite create_actions_loop_mapped. fold (mapped_actions E a).
    rewrite RulePassProps.set_actions_twice. simpl.
    rewrite <- app_assoc. reflexivity.
Qed.

Lemma create_for_ids_mapped (E : Engine) (message_index : Z)
    (anns : list ActionSuggestionAnnotation) (ids : list nat) :
  (forall r, In r ids -> (r < length anns)%nat) ->
  forall s,
    create_for_ids E message_index anns ids s
    = Some (fold_left
              (fun r a => CreateActionsFromAnnotation E message_index a r)
              (omap (fun r => anns !! r) ids) s).
Proof.
  induction ids as [|r ids IH]; intros Hrange s; simpl; [reflexivity|].
  destruct (lookup_lt_is_Some_2 anns r (Hrange r (or_introl eq_refl)))
    as [a Ha].
  rewrite Ha. simpl. apply IH. intros r' Hr'. apply Hrange. right. exact Hr'.
Qed.

Lemma mapped_actions_no_mappings (E : Engine) (a : ActionSuggestionAnnotation) :
  annotation_mappings E = [] -> mapped_actions E a = [].
Proof. intros H. unfold mapped_actions. rewrite H. reflexivity. Qed.

Lemma flat_map_nil {A B : Type} (f : A -> list B) (l : list A) :
  (forall x, f x = []) -> flat_map f l = [].
Proof.
  intros Hf. induction l as [|x l IH]; simpl; [reflexivity|].
  rewrite Hf, IH. reflexivity.
Qed.

(** X16. The annotation pass looks at the last message only. Its candidates
    are the annotations of that message, or the annotator's when the
    message has none, that have a classification. With deduplication they
    are reduced to the selected representatives, in the order of the ids;
    without it every candidate is kept in annotation order. The pass
    appends the suggestions of the kept candidates, candidate by candidate,
    and changes nothing else in the response; without a mapping table it
    appends nothing. *)
Theorem SuggestActionsFromAnnotations_spec (E : Engine)
    (conversation : Conversation) (options : ActionSuggestionOptions)
    (annotator : option Annotator) (last_message : ConversationMessage)
    (s : ActionsSuggestionsResponse) :
  back (messages conversation) = Some last_message ->
  SuggestActionsFromAnnotations E conversation options annotator s
  = Some (set_actions s
            (actions s
             ++ flat_map (mapped_actions E)
                  (if deduplicates E
                   then representatives
                          (annotation_candidates conversation options annotator
                             last_message)
                   else annotation_candidates conversation options annotator
                          last_message))).
Proof.
  intros Hback.
  assert (annotation_mappings E = [] ->
          Some s
          = Some (set_actions s
                    (actions s
                     ++ flat_map (mapped_actions E)
                          (if deduplicates E
                           then representatives
                                  (annotation_candidates conversation options
                                     annotator last_message)
                           else annotation_candidates conversation options
                                  annotator last_message)))) as Hnone.
  { intros Hm. rewrite flat_map_nil.
    - rewrite app_nil_r, RulePassProps.set_actions_actions. reflexivity.
    - intros a. apply mapped_actions_no_mappings, Hm. }
  unfold SuggestActionsFromAnnotations.
  destruct (annotation_actions_spec (model_ E)) as [spec|] eqn:Hspec;
    [|apply Hnone; unfold annotation_mappings; rewrite Hspec; reflexivity].
  destruct (annotation_mapping spec) as [[|mapping mappings]|] eqn:Hmap;
    [apply Hnone; unfold annotation_mappings; rewrite Hspec, Hmap; reflexivity
    | | apply Hnone; unfold annotation_mappings; rewrite Hspec, Hmap;
        reflexivity].
  clear Hnone. rewrite Hback.
  fold (annotation_candidates conversation options annotator last_message).
  assert (deduplicates E = deduplicate_annotations spec) as ->
    by (unfold deduplicates; rewrite Hspec; reflexivity).
  destruct (deduplicate_annotations spec).
  - rewrite create_for_ids_mapped.
    + unfold representatives. rewrite fold_create_mapped. reflexivity.
    + intros r Hr.
      destruct (DedupOrderProps.dedup_ids_facts
                  (annotation_candidates conversation options annotator
                     last_message)) as (_ & Hentry & _).
      unfold DeduplicateAnnotations in Hr.
      apply in_map_iff in Hr as ([k v] & <- & Hin).
      apply (Hentry k v Hin).
  - rewrite fold_create_mapped. reflexivity.
Qed.

End Mapping.

Lemma SuggestActionsFromAnnotations_spec_witness :
  SuggestActionsFromAnnotations (Fixtures.model_engine 0 (-1) false (1 # 10))
    Fixtures.tomorrow_at_5pm Fixtures.default_options None default_response
  = Some (set_actions default_response
            [mkActionSuggestion (P := Fixtures.rational_platform)
               "" "view_calendar" (8 # 10)
               [mkActionSuggestionAnnotation
                  (P := Fixtures.rational_platform) 0 (8, 16)
                  (mkClassificationResult
                     (P := Fixtures.rational_platform) "date" (8 # 10))
                  "date" "tomorrow"] ""]).
Proof.
  rewrite (SuggestActionsFromAnnotations_spec
             (Fixtures.model_engine 0 (-1) false (1 # 10))
             Fixtures.tomorrow_at_5pm Fixtures.default_options None
             (Fixtures.annotated_message "See you tomorrow at 5pm" 8 16)
             default_response eq_refl).
  reflexivity.
Defined.

End AnnotationProps.

(** ** Further properties of the rule pass and of rule compilation *)

Module RuleMoreProps.
Import ActionsSuggestions Initialization RulePassSpec.

Section Rules.
Context {P : Platform}.

(** X17. Entity data is decided per rule, not per action: in a rule where
    some action declares a static payload or a capturing group, an action
    that declares neither still gets a payload, the serialization of the
    bare root record. *)
Theorem entity_data_per_rule (E : Engine) (r : Rule) (m : FindResult)
    (ra other : RuleActionSpec) (builder : ReflectiveFlatbufferBuilder)
    (root : EntityData) (s : ActionsSuggestionsResponse) :
  In other (rule_actions r) ->
  is_Some (spec_serialized_entity_data (action other))
  \/ is_Some (capturing_group other) ->
  spec_serialized_entity_data (action ra) = None ->
  capturing_group ra = None ->
  entity_data_builder_ E = Some builder ->
  NewRoot builder = Some root ->
  HasEntityData r = true
  /\ rule_actions_loop E (HasEntityData r) m [ra] s
     = Some (true,
             push_back s (rule_suggestion (action ra) (Serialize root))).
Proof.
  intros Hin Hother Hdata Hgroups Hb Hr.
  assert (HasEntityData r = true) as Hh.
  { unfold HasEntityData. apply existsb_exists. exists other.
    split; [exact Hin|].
    destruct Hother as [[d ->] | [gs ->]]; [reflexivity|].
    destruct (spec_serialized_entity_data (action other)); reflexivity. }
  split; [exact Hh|]. rewrite Hh. simpl.
  rewrite Hb, Hr, Hdata, Hgroups. reflexivity.
Qed.

Variable UncompressMakeRegexPattern :
  option string -> option string -> option (string -> RegexMatcher).

Abbreviation compiles e :=
  (is_Some (UncompressMakeRegexPattern (entry_pattern e)
              (entry_compressed_pattern e))).

Lemma InitializeRules_into_facts (entries : list RuleEntry) :
  forall compiled,
    (fst (InitializeRules_into UncompressMakeRegexPattern entries compiled)
     = true
     <-> forall e, In e entries -> compiles e)
    /\ exists out,
         snd (InitializeRules_into UncompressMakeRegexPattern entries compiled)
         = compiled ++ out
         /\ Forall2
              (fun e cr =>
                 rule cr = entry_rule e
                 /\ UncompressMakeRegexPattern (entry_pattern e)
                      (entry_compressed_pattern e) = Some (pattern cr))
              (take (length out) entries) out
         /\ (fst (InitializeRules_into UncompressMakeRegexPattern entries
                    compiled) = false ->
             exists e, entries !! length out = Some e /\ ~ compiles e).
Proof.
  induction entries as [|e rest IH]; intros compiled; simpl.
  - split; [split; [intros _ ? [] | reflexivity]|].
    exists []. rewrite app_nil_r. split; [reflexivity|].
    split; [constructor | discriminate].
  - destruct (UncompressMakeRegexPattern (entry_pattern e)
                (entry_compressed_pattern e)) as [compiled_pattern|] eqn:Hc.
    + destruct (IH (compiled ++ [mkCompiledRule (entry_rule e) compiled_pattern]))
        as (Hok & out & Hout & Hall & Hfail).
      split.
      * rewrite Hok. split.
        -- intros Hrest e' [<- | Hin]; [rewrite Hc; eauto | auto].
        -- intros Hevery e' Hin. apply Hevery. right. exact Hin.
      * exists (mkCompiledRule (entry_rule e) compiled_pattern :: out).
        split; [rewrite Hout, <- app_assoc; reflexivity|].
        split; [simpl; constructor; [auto | exact Hall] | exact Hfail].
    + simpl. split.
      * split; [discriminate|]. intros Hevery.
        destruct (Hevery e (or_introl eq_refl)) as [x Hx]. congruence.
      * exists []. rewrite app_nil_r. split; [reflexivity|].
        split; [constructor|]. intros _. exists e. split; [reflexivity|].
        rewrite Hc. intros [x Hx]. discriminate.
Qed.

(** X18. Compiling a rule table succeeds exactly when every pattern of the
    table can be built. The vector keeps what it held and gains, in table
    order, one compiled rule per entry, each pointing at its rule and
    holding its pattern; on failure it has gained the entries before the
    first pattern that cannot be built, and nothing after it. *)
Theorem InitializeRules_into_spec (entries : list RuleEntry)
    (compiled : list CompiledRule) :
  (fst (InitializeRules_into UncompressMakeRegexPattern entries compiled)
   = true
   <-> forall e, In e entries -> compiles e)
  /\ exists out,
       snd (InitializeRules_into UncompressMakeRegexPattern entries compiled)
       = compiled ++ out
       /\ Forall2
            (fun e cr =>
               rule cr = entry_rule e
               /\ UncompressMakeRegexPattern (entry_pattern e)
                    (entry_compressed_pattern e) = Some (pattern cr))
            (take (length out) entries) out
       /\ (fst (InitializeRules_into UncompressMakeRegexPattern entries
                  compiled) = true -> length out = length entries)
       /\ (fst (InitializeRules_into UncompressMakeRegexPattern entries
                  compiled) = false ->
           exists e, entries !! length out = Some e /\ ~ compiles e).
Proof.
  destruct (InitializeRules_into_facts entries compiled)
    as (Hok & out & Hout & Hall & Hfail).
  split; [exact Hok|]. exists out. split; [exact Hout|].
  split; [exact Hall|]. split; [|exact Hfail].
  intros Htrue.
  destruct (decide (length out < length entries)%nat) as [Hlt|Hge].
  - exfalso. apply Forall2_length in Hall. rewrite length_take in Hall.
    destruct (lookup_lt_is_Some_2 entries (length out) Hlt) as [e He].
    clear Hfail. revert compiled out Hout Hall Hlt He Htrue Hok.
    induction entries as [|e0 rest IH]; intros compiled out Hout Hall Hlt He;
      [discriminate|].
    simpl.
    destruct (UncompressMakeRegexPattern (entry_pattern e0)
                (entry_compressed_pattern e0)) as [cp|] eqn:Hc;
      [|discriminate].
    intros Htrue Hok.
    destruct (InitializeRules_into_facts rest
                (compiled ++ [mkCompiledRule (entry_rule e0) cp]))
      as (Hok' & out' & Hout' & Hall' & _).
    simpl in Hout. rewrite Hc in Hout. rewrite Hout' in Hout.
    rewrite <- app_assoc in Hout. apply app_inv_head in Hout.
    subst out. simpl in *.
    apply Forall2_length in Hall'. rewrite length_take in Hall'.
    apply (IH (compiled ++ [mkCompiledRule (entry_rule e0) cp]) out');
      try assumption; lia.
  - apply Forall2_length in Hall. rewrite length_take in Hall. lia.
Qed.

(** X19. The low-confidence rules of a model are compiled only when
    [suppress_on_low_confidence_input] is set. An engine initialized from
    a model without the flag holds no low-confidence rule, whatever the
    model declares, and never finds an input low-confidence. *)
Theorem low_confidence_rules_need_flag (E : Engine) (tables : RuleTables)
    (ok : bool) (rs lcs : list CompiledRule) :
  InitializeRules UncompressMakeRegexPattern (model_ E) tables [] []
  = (ok, (rs, lcs)) ->
  low_confidence_rules_ E = lcs ->
  suppress_on_low_confidence_input (preconditions (model_ E)) = false ->
  lcs = []
  /\ forall conversation num_messages,
       IsLowConfidenceInput E conversation num_messages = false.
Proof.
  unfold InitializeRules. intros Hinit Hlcs Hflag. rewrite Hflag in Hinit.
  assert (lcs = []) as ->.
  { destruct (match rules tables with
              | Some entries =>
                  InitializeRules_into UncompressMakeRegexPattern entries []
              | None => (true, [])
              end) as [[|] rules1]; simpl in Hinit; congruence. }
  split; [reflexivity|]. intros conversation num_messages.
  unfold IsLowConfidenceInput. rewrite Hlcs. simpl.
  induction (rev (last_messages num_messages (messages conversation)))
    as [|m rest IH]; [reflexivity | exact IH].
Qed.

End Rules.

Lemma entity_data_per_rule_witness :
  rule_actions_loop Fixtures.time_engine
    (HasEntityData MoreFixtures.mixed_rule)
    (mkFindResult true kNoError [Some "5pm"]) [MoreFixtures.bare_action]
    default_response
  = Some (true,
          push_back default_response
            (mkActionSuggestion (P := Fixtures.rational_platform)
               "" "set_alarm" (1 # 2) [] "")).
Proof.
  apply (entity_data_per_rule Fixtures.time_engine MoreFixtures.mixed_rule
           (mkFindResult true kNoError [Some "5pm"])
           MoreFixtures.bare_action MoreFixtures.payload_action
           (mkReflectiveFlatbufferBuilder (P := Fixtures.rational_platform)
              (Some ""))
           "" default_response).
  - left. reflexivity.
  - left. eexists. reflexivity.
  - reflexivity.
  - reflexivity.
  - reflexivity.
  - reflexivity.
Defined.

Lemma low_confidence_rules_need_flag_witness :
  IsLowConfidenceInput Fixtures.time_engine Fixtures.meet_at_5pm 1 = false.
Proof.
  apply (low_confidence_rules_need_flag MoreFixtures.known_patterns
           Fixtures.time_engine MoreFixtures.time_tables true
           [Fixtures.time_rule] [] eq_refl eq_refl eq_refl).
Defined.

End RuleMoreProps.

(** ** Further properties of the trie walk *)

Module TrieWalkProps.
Import DoubleArrayTrie TrieSpec.

Section Walk.
Variable char_is_signed : bool.
Variable T : Trie.

Abbreviation push := (fun (m : TrieMatch) (ms : list TrieMatch) => ms ++ [m]).

Lemma gather_loop_push (input : string) :
  forall i pos acc,
    gather_loop char_is_signed push T input i pos acc
    = (fst (emitted char_is_signed T input i pos),
       acc ++ snd (emitted char_is_signed T input i pos)).
Proof.
  unfold emitted.
  induction input as [|c rest IH]; intros i pos acc; simpl.
  - rewrite app_nil_r. reflexivity.
  - destruct (uchar c =? 0)%Z; [rewrite app_nil_r; reflexivity|].
    destruct (nodes_length_ T <=? Z.lxor pos (uchar c))%Z;
      [rewrite app_nil_r; reflexivity|].
    destruct (negb _); [rewrite app_nil_r; reflexivity|].
    destruct (nodes_length_ T <? _)%Z; [rewrite app_nil_r; reflexivity|].
    destruct (has_leaf T (Z.lxor pos (uchar c))).
    + rewrite (IH _ _ (acc ++ _)), (IH _ _ [_]), <- app_assoc. reflexivity.
    + rewrite (IH _ _ acc), (IH _ _ []). reflexivity.
Qed.

(** The walk, one byte at a time, in terms of what it reports. *)
Lemma emitted_cons (c : ascii) (rest : string) (i pos : Z) :
  emitted char_is_signed T (String c rest) i pos
  = if (uchar c =? 0)%Z then (true, [])
    else
      let pos1 := Z.lxor pos (uchar c) in
      if (nodes_length_ T <=? pos1)%Z then (true, [])
      else if negb (label T pos1 =? char_as_uint32 char_is_signed c)%Z
      then (true, [])
      else
        let pos2 := Z.lxor pos1 (to_uint32 (offset T pos1)) in
        if (nodes_length_ T <? pos2)%Z then (false, [])
        else
          (fst (emitted char_is_signed T rest (i + 1) pos2),
           (if has_leaf T pos1 then [mkTrieMatch (value T pos2) (i + 1)]
            else [])
           ++ snd (emitted char_is_signed T rest (i + 1) pos2)).
Proof.
  unfold emitted at 1. simpl.
  destruct (uchar c =? 0)%Z; [reflexivity|].
  destruct (nodes_length_ T <=? Z.lxor pos (uchar c))%Z; [reflexivity|].
  destruct (negb _); [reflexivity|].
  destruct (nodes_length_ T <? _)%Z; [reflexivity|].
  rewrite gather_loop_push.
  destruct (has_leaf T (Z.lxor pos (uchar c))); reflexivity.
Qed.

Lemma emitted_nil (i pos : Z) :
  emitted char_is_signed T EmptyString i pos = (true, []).
Proof. reflexivity. Qed.

Lemma gather_loop_fold {S : Type} (update_fn : TrieMatch -> S -> S)
    (input : string) :
  forall i pos s,
    gather_loop char_is_signed update_fn T input i pos s
    = (fst (emitted char_is_signed T input i pos),
       fold_left (fun st m => update_fn m st)
         (snd (emitted char_is_signed T input i pos)) s).
Proof.
  induction input as [|c rest IH]; intros i pos s; [reflexivity|].
  rewrite emitted_cons. simpl.
  destruct (uchar c =? 0)%Z; [reflexivity|].
  destruct (nodes_length_ T <=? Z.lxor pos (uchar c))%Z; [reflexivity|].
  destruct (negb _); [reflexivity|].
  destruct (nodes_length_ T <? _)%Z; [reflexivity|].
  rewrite IH. simpl. rewrite fold_left_app.
  destruct (has_leaf T (Z.lxor pos (uchar c))); reflexivity.
Qed.

Lemma FindAllPrefixMatches_emitted (input : string)
    (matches : list TrieMatch) :
  FindAllPrefixMatches char_is_signed T input matches
  = if (nodes_length_ T =? 0)%Z then (true, matches)
    else (fst (emitted char_is_signed T input 0 (to_uint32 (offset T 0))),
          matches
          ++ snd (emitted char_is_signed T input 0 (to_uint32 (offset T 0)))).
Proof.
  unfold FindAllPrefixMatches, GatherPrefixMatches.
  destruct (nodes_length_ T =? 0)%Z; [reflexivity|].
  apply gather_loop_push.
Qed.

Lemma fold_left_last (l : list TrieMatch) :
  forall e, fold_left (fun _ m => m) l e = List.last l e.
Proof.
  induction l as [|m l IH] using rev_ind; intros e; [reflexivity|].
  rewrite fold_left_app, List.last_last. reflexivity.
Qed.

(** X20. The callback never influences the walk. Whatever the callback and
    its state, [GatherPrefixMatches] returns what [FindAllPrefixMatches]
    returns on an empty vector, and leaves the state that results from
    feeding the matches of that vector to the callback, first to last. *)
Theorem GatherPrefixMatches_factors {S : Type}
    (update_fn : TrieMatch -> S -> S) (input : string) (s : S) :
  GatherPrefixMatches char_is_signed update_fn T input s
  = (fst (FindAllPrefixMatches char_is_signed T input []),
     fold_left (fun st m => update_fn m st)
       (snd (FindAllPrefixMatches char_is_signed T input [])) s).
Proof.
  rewrite FindAllPrefixMatches_emitted. unfold GatherPrefixMatches.
  destruct (nodes_length_ T =? 0)%Z; [reflexivity|].
  apply gather_loop_fold.
Qed.

(** X21. [FindAllPrefixMatches] appends to the vector it is given, also when
    it fails, and [LongestPrefixMatch] leaves the last match
    [FindAllPrefixMatches] reports, or the empty match when there is none;
    the two return the same value. *)
Theorem LongestPrefixMatch_is_last (input : string)
    (matches : list TrieMatch) (empty_match : TrieMatch) :
  FindAllPrefixMatches char_is_signed T input matches
  = (fst (FindAllPrefixMatches char_is_signed T input []),
     matches ++ snd (FindAllPrefixMatches char_is_signed T input []))
  /\ LongestPrefixMatch char_is_signed T input empty_match
     = (fst (FindAllPrefixMatches char_is_signed T input []),
        List.last (snd (FindAllPrefixMatches char_is_signed T input []))
          empty_match).
Proof.
  rewrite !FindAllPrefixMatches_emitted.
  unfold LongestPrefixMatch, GatherPrefixMatches.
  destruct (nodes_length_ T =? 0)%Z.
  - rewrite app_nil_r. split; reflexivity.
  - split; [reflexivity|]. rewrite gather_loop_fold, fold_left_last.
    reflexivity.
Qed.

Lemma emitted_lengths (input : string) :
  forall i pos,
    StronglySorted (fun a b => (match_length a < match_length b)%Z)
      (snd (emitted char_is_signed T input i pos))
    /\ Forall
         (fun m =>
            (i < match_length m <= i + Z.of_nat (String.length input))%Z
            /\ exists p, (p <= nodes_length_ T)%Z /\ id m = value T p)
         (snd (emitted char_is_signed T input i pos)).
Proof.
  induction input as [|c rest IH]; intros i pos.
  - simpl. split; constructor.
  - rewrite emitted_cons. cbv zeta.
    destruct (uchar c =? 0)%Z; [split; constructor|].
    destruct (nodes_length_ T <=? Z.lxor pos (uchar c))%Z;
      [split; constructor|].
    destruct (negb _); [split; constructor|].
    destruct (nodes_length_ T <? _)%Z eqn:Hpos; [split; constructor|].
    destruct (IH (i + 1)%Z
                (Z.lxor (Z.lxor pos (uchar c))
                   (to_uint32 (offset T (Z.lxor pos (uchar c))))))
      as [Hsorted Hall].
    assert (Forall
              (fun m =>
                 (i < match_length m
                  <= i + Z.of_nat (String.length (String c rest)))%Z
                 /\ exists p, (p <= nodes_length_ T)%Z /\ id m = value T p)
              (snd (emitted char_is_signed T rest (i + 1)
                      (Z.lxor (Z.lxor pos (uchar c))
                         (to_uint32 (offset T (Z.lxor pos (uchar c))))))))
      as Hall'.
    { eapply List.Forall_impl; [|exact Hall]. simpl.
      intros m [Hm Hp]. split; [lia | exact Hp]. }
    simpl snd. destruct (has_leaf T (Z.lxor pos (uchar c))); simpl app.
    + split.
      * constructor; [exact Hsorted|].
        eapply List.Forall_impl; [|exact Hall]. simpl. intros m [Hm _]. lia.
      * constructor; [|exact Hall']. simpl. split; [lia|].
        eexists. split; [|reflexivity]. lia.
    + split; assumption.
Qed.

(** X22. The matches come out shortest first: their lengths increase
    strictly and lie between 1 and the length of the input, so there is at
    most one match per prefix. Each id is read at a position that is at
    most the length of the node array. *)
Theorem FindAllPrefixMatches_lengths (input : string) :
  StronglySorted (fun a b => (match_length a < match_length b)%Z)
    (snd (FindAllPrefixMatches char_is_signed T input []))
  /\ Forall
       (fun m =>
          (1 <= match_length m <= Z.of_nat (String.length input))%Z
          /\ exists p, (p <= nodes_length_ T)%Z /\ id m = value T p)
       (snd (FindAllPrefixMatches char_is_signed T input [])).
Proof.
  rewrite FindAllPrefixMatches_emitted.
  destruct (nodes_length_ T =? 0)%Z; [split; constructor|].
  destruct (emitted_lengths input 0 (to_uint32 (offset T 0)))
    as [Hsorted Hall].
  split; [exact Hsorted|].
  eapply List.Forall_impl; [|exact Hall]. simpl. intros m [Hm Hp].
  split; [lia | exact Hp].
Qed.

Lemma emitted_NUL (input rest : string) :
  forall i pos,
    emitted char_is_signed T (input ++ String zero rest) i pos
    = emitted char_is_signed T input i pos.
Proof.
  induction input as [|c input IH]; intros i pos.
  - reflexivity.
  - change (String c input +:+ String zero rest)
      with (String c (input +:+ String zero rest)).
    rewrite !emitted_cons. cbv zeta. rewrite IH. reflexivity.
Qed.

(** X23. A zero byte ends the input: what follows the first zero byte is
    never read, whatever the callback. *)
Theorem NUL_ends_walk {S : Type} (update_fn : TrieMatch -> S -> S)
    (input rest : string) (s : S) :
  GatherPrefixMatches char_is_signed update_fn T
    (input ++ String zero rest) s
  = GatherPrefixMatches char_is_signed update_fn T input s.
Proof.
  unfold GatherPrefixMatches.
  destruct (nodes_length_ T =? 0)%Z; [reflexivity|].
  rewrite !gather_loop_fold, emitted_NUL. reflexivity.
Qed.

Lemma emitted_app (input more : string) :
  forall i pos,
    exists later,
      snd (emitted char_is_signed T (input ++ more) i pos)
      = snd (emitted char_is_signed T input i pos) ++ later
      /\ Forall
           (fun m =>
              (i + Z.of_nat (String.length input) < match_length m)%Z)
           later
      /\ (fst (emitted char_is_signed T input i pos) = false ->
          fst (emitted char_is_signed T (input ++ more) i pos) = false
          /\ later = []).
Proof.
  induction input as [|c input IH]; intros i pos.
  - change (EmptyString +:+ more) with more.
    exists (snd (emitted char_is_signed T more i pos)).
    split; [reflexivity|]. split; [|discriminate].
    destruct (emitted_lengths more i pos) as [_ Hall].
    eapply List.Forall_impl; [|exact Hall]. simpl. intros m [Hm _]. lia.
  - change (String c input +:+ more) with (String c (input +:+ more)).
    rewrite !emitted_cons. cbv zeta.
    destruct (uchar c =? 0)%Z;
      [exists []; split; [reflexivity|]; split; [constructor|discriminate]|].
    destruct (nodes_length_ T <=? Z.lxor pos (uchar c))%Z;
      [exists []; split; [reflexivity|]; split; [constructor|discriminate]|].
    destruct (negb _);
      [exists []; split; [reflexivity|]; split; [constructor|discriminate]|].
    destruct (nodes_length_ T <? _)%Z;
      [exists []; split; [reflexivity|]; split; [constructor|auto]|].
    destruct (IH (i + 1)%Z
                (Z.lxor (Z.lxor pos (uchar c))
                   (to_uint32 (offset T (Z.lxor pos (uchar c))))))
      as (later & Heq & Hall & Hfail).
    exists later. simpl fst. simpl snd. rewrite Heq, app_assoc.
    split; [reflexivity|]. split; [|exact Hfail].
    eapply List.Forall_impl; [|exact Hall]. simpl. intros m Hm. lia.
Qed.

(** X24. Reading more bytes never changes the matches already found: the
    matches of an input extended by further bytes start with the matches
    of the input itself, and every further match is longer than the input.
    A lookup that fails on an input fails on every extension of it, with
    the same matches. *)
Theorem FindAllPrefixMatches_extension (input more : string) :
  exists later,
    snd (FindAllPrefixMatches char_is_signed T (input ++ more) [])
    = snd (FindAllPrefixMatches char_is_signed T input []) ++ later
    /\ Forall
         (fun m => (Z.of_nat (String.length input) < match_length m)%Z)
         later
    /\ (fst (FindAllPrefixMatches char_is_signed T input []) = false ->
        fst (FindAllPrefixMatches char_is_signed T (input ++ more) [])
        = false
        /\ later = []).
Proof.
  rewrite !FindAllPrefixMatches_emitted.
  destruct (nodes_length_ T =? 0)%Z.
  - exists []. split; [reflexivity|]. split; [constructor|discriminate].
  - destruct (emitted_app input more 0 (to_uint32 (offset T 0)))
      as (later & Heq & Hall & Hfail).
    exists later. simpl. split; [exact Heq|]. split; [exact Hall|].
    exact Hfail.
Qed.

End Walk.
End TrieWalkProps.

(** ** Sequences of [Set] calls on one record *)

Module FlatbufferSetProps.
Import ReflectiveFlatbuffer.

Section Sets.
Context {Field : Type} `{Countable Field}.
Context {Object Variant : Type}.
Variable IsMatchingType : Object -> Field -> Variant -> bool.
Variable GetFieldOrNull : Object -> string -> option Field.

Abbreviation Set_field' := (Set_field IsMatchingType).
Abbreviation Set_name' := (Set_name IsMatchingType GetFieldOrNull).

Lemma Set_field_type (field : option Field) (value : Variant)
    (r : t (Field := Field) (Object := Object) (Variant := Variant)) :
  type_ (snd (Set_field' field value r)) = type_ r.
Proof.
  unfold Set_field. destruct field as [f|]; [|reflexivity].
  destruct (negb _); reflexivity.
Qed.

(** X25. A [Set] by name succeeds exactly when the name resolves to a field
    of the record's type whose type the value matches. A failed call
    leaves the record as it was; a successful one caches the value under
    the field and touches no other cached field. The type and the nested
    records are never touched. *)
Theorem Set_name_frame (field_name : string) (value : Variant)
    (r : t (Field := Field) (Object := Object) (Variant := Variant)) :
  (fst (Set_name' field_name value r) = true
   <-> exists f, GetFieldOrNull (type_ r) field_name = Some f
                 /\ IsMatchingType (type_ r) f value = true)
  /\ (fst (Set_name' field_name value r) = false ->
      snd (Set_name' field_name value r) = r)
  /\ (forall f, GetFieldOrNull (type_ r) field_name = Some f ->
                fst (Set_name' field_name value r) = true ->
                forall g,
                  fields_ (snd (Set_name' field_name value r)) !! g
                  = if decide (f = g) then Some value else fields_ r !! g)
  /\ type_ (snd (Set_name' field_name value r)) = type_ r
  /\ children_ (snd (Set_name' field_name value r)) = children_ r.
Proof.
  unfold Set_name, Set_field.
  destruct (GetFieldOrNull (type_ r) field_name) as [f|] eqn:Hf.
  - destruct (IsMatchingType (type_ r) f value) eqn:Hm; simpl.
    + split; [split; [intros _; exists f; auto | reflexivity]|].
      split; [discriminate|].
      split; [|split; reflexivity].
      intros f' [= <-] _ g. apply lookup_insert.
    + split.
      * split; [discriminate|]. intros (f' & [= <-] & Hm'). congruence.
      * split; [reflexivity|]. split; [discriminate | split; reflexivity].
  - simpl. split.
    + split; [discriminate|]. intros (f' & Hf' & _). discriminate.
    + split; [reflexivity|]. split; [discriminate | split; reflexivity].
Qed.

(** X26. Whether a [Set] succeeds does not depend on the calls made before
    it, and the last successful [Set] of a field decides its cached value:
    after two calls on the same field the record is the one the second
    call alone would give if the second call succeeds, and the one the
    first call gives if the second fails. *)
Theorem Set_field_last_wins (field other : option Field) (v w : Variant)
    (r : t (Field := Field) (Object := Object) (Variant := Variant)) :
  fst (Set_field' field w (snd (Set_field' other v r)))
  = fst (Set_field' field w r)
  /\ snd (Set_field' field w (snd (Set_field' field v r)))
     = if fst (Set_field' field w r) then snd (Set_field' field w r)
       else snd (Set_field' field v r).
Proof.
  split.
  - unfold Set_field at 1 3. rewrite Set_field_type.
    destruct field as [f|]; [|reflexivity].
    destruct (negb _); reflexivity.
  - unfold Set_field. destruct field as [f|]; [|reflexivity].
    destruct (IsMatchingType (type_ r) f v) eqn:Hv;
      destruct (IsMatchingType (type_ r) f w) eqn:Hw; simpl;
      rewrite ?Hv, ?Hw; simpl; try reflexivity.
    rewrite insert_insert_eq. reflexivity.
Qed.

(** X27. [Set] calls on different fields commute: both orders give the same
    record and the same two results. *)
Theorem Set_field_commute (f g : Field) (v w : Variant)
    (r : t (Field := Field) (Object := Object) (Variant := Variant)) :
  f <> g ->
  snd (Set_field' (Some g) w (snd (Set_field' (Some f) v r)))
  = snd (Set_field' (Some f) v (snd (Set_field' (Some g) w r)))
  /\ fst (Set_field' (Some g) w (snd (Set_field' (Some f) v r)))
     = fst (Set_field' (Some g) w r)
  /\ fst (Set_field' (Some f) v (snd (Set_field' (Some g) w r)))
     = fst (Set_field' (Some f) v r).
Proof.
  intros Hne. unfold Set_field.
  destruct (IsMatchingType (type_ r) f v) eqn:Hv;
    destruct (IsMatchingType (type_ r) g w) eqn:Hw; simpl;
    rewrite ?Hv, ?Hw; simpl; repeat split.
  rewrite insert_insert_ne by congruence. reflexivity.
Qed.

End Sets.

Lemma Set_field_commute_witness :
  snd (Set_field Fixtures.test_matching (Some 2%positive)
         (Fixtures.StringValue "notes")
         (snd (Set_field Fixtures.test_matching (Some 1%positive)
                 (Fixtures.BoolValue true) Fixtures.empty_record)))
  = snd (Set_field Fixtures.test_matching (Some 1%positive)
           (Fixtures.BoolValue true)
           (snd (Set_field Fixtures.test_matching (Some 2%positive)
                   (Fixtures.StringValue "notes") Fixtures.empty_record))).
Proof.
  apply (Set_field_commute Fixtures.test_matching 1%positive 2%positive
           (Fixtures.BoolValue true) (Fixtures.StringValue "notes")
           Fixtures.empty_record).
  discriminate.
Defined.

End FlatbufferSetProps.
